(** * DiskIO: a reserved disk-space budget enforced through a sentinel file

    A shallow embedding of the [DiskIO] class (src/unnamed/part_000) and of
    [exists] (src/common/fs-extends.ts).  JavaScript numbers that hold byte
    counts are integers ([Z], assumed to stay in the safe-integer range);
    the percentage of the reservation report is computed on binary64 floats
    as the code does.  Path strings are kept as strings; Node's [path.join]
    and the file-system calls of [node:fs] are modelled from their
    documentation, over a file system that maps resolved paths to nodes. *)

From Stdlib Require Import ZArith String Ascii List Floats Uint63 Lia.
From stdpp Require Import gmap strings list fin_maps.
Import ListNotations.
Open Scope string_scope.
Open Scope list_scope.
Open Scope Z_scope.

(** ** JavaScript strings *)

Module JS.

(** [s.split(c)] for a one-character separator. *)
Fixpoint split (sep : ascii) (s : string) : list string :=
  match s with
  | EmptyString => [EmptyString]
  | String c s' =>
      if Ascii.eqb c sep then EmptyString :: split sep s'
      else match split sep s' with
           | [] => [String c EmptyString]
           | w :: ws => String c w :: ws
           end
  end.

(** [Boolean(s)]: a string is truthy unless it is empty. *)
Definition Boolean (s : string) : bool := negb (String.eqb s "").

(** [s.replace(pat, rep)] with a string pattern: the first occurrence only. *)
Fixpoint replace (pat rep s : string) : string :=
  if String.prefix pat s then rep +:+ String.substring (String.length pat) (String.length s - String.length pat) s
  else match s with
       | EmptyString => EmptyString
       | String c s' => String c (replace pat rep s')
       end.

(** Last character of a string, if any. *)
Fixpoint last_char (s : string) : option ascii :=
  match s with
  | EmptyString => None
  | String c EmptyString => Some c
  | String _ s' => last_char s'
  end.

(** [s.replace(/ +/g, ' ')]: every run of spaces becomes one space;
    [in_run] tells that the character before was a space. *)
Fixpoint collapse_spaces (in_run : bool) (s : string) : string :=
  match s with
  | EmptyString => EmptyString
  | String c s' =>
      if Ascii.eqb c " " then
        (if in_run then collapse_spaces true s' else String " " (collapse_spaces true s'))
      else String c (collapse_spaces false s')
  end.

Definition replace_space_runs (s : string) : string := collapse_spaces false s.

Definition startsWith_slash (s : string) : bool :=
  match s with String c _ => Ascii.eqb c "/" | EmptyString => false end.

Definition endsWith_slash (s : string) : bool :=
  match last_char s with Some c => Ascii.eqb c "/" | None => false end.

End JS.

(** ** [node:path] (POSIX) *)

Module Path.

(** One step of [normalizeString]: [res] is the stack of segments kept so
    far, last segment first. *)
Definition norm_step (allowAboveRoot : bool) (res : list string) (seg : string) : list string :=
  if String.eqb seg "" then res
  else if String.eqb seg "." then res
  else if String.eqb seg ".." then
    match res with
    | [] => if allowAboveRoot then [".."] else []
    | top :: below =>
        if String.eqb top ".." then (if allowAboveRoot then ".." :: res else res)
        else below
    end
  else seg :: res.

Definition normalizeString (path : string) (allowAboveRoot : bool) : string :=
  String.concat "/" (rev (fold_left (norm_step allowAboveRoot) (JS.split "/" path) [])).

(** [path.normalize]. *)
Definition normalize (path : string) : string :=
  if String.eqb path "" then "."
  else
    let isAbsolute := JS.startsWith_slash path in
    let trailingSeparator := JS.endsWith_slash path in
    let p := normalizeString path (negb isAbsolute) in
    if String.eqb p "" then
      (if isAbsolute then "/" else if trailingSeparator then "./" else ".")
    else
      let p := if trailingSeparator then p +:+ "/" else p in
      if isAbsolute then "/" +:+ p else p.

(** [path.join(...args)]: the non-empty arguments glued with slashes, then
    normalized. *)
Definition join (args : list string) : string :=
  match List.filter JS.Boolean args with
  | [] => "."
  | parts => normalize (String.concat "/" parts)
  end.

End Path.

(** ** The file system and the calls the class makes on it *)

(** A node of the file system: a regular file with its bytes, or a
    directory.  Entries are keyed by their resolved absolute path, a list
    of segments from the root; the root itself is always a directory. *)
Inductive node :=
| File (data : list Byte.byte)
| Dir.

Inductive error :=
| Error (message : string)
| ENOENT | EEXIST | EISDIR | ENOTDIR | ENOTEMPTY | EBUSY | EBADF | EINVAL
| ERR_OUT_OF_RANGE | ERR_INVALID_ARG_VALUE
| ExecError
| Diverge
| OutOfFuel.

(** The calls issued to the outside, in the order they are issued. *)
Inductive event :=
| EvAccess (p : string)
| EvStat (p : string)
| EvWriteFile (p : string)
| EvTruncate (p : string) (len : Z)
| EvMkdir (p : string)
| EvUnlink (p : string)
| EvReaddir (p : string)
| EvRmdir (p : string)
| EvDu (p : string)
| EvStatfs (p : string)
| EvRandomUUID
| EvClose (fd : nat)
| EvFstat (fd : nat)
| EvRead (fd : nat) (offset length position : Z)
| EvWrite (fd : nat) (offset length position : Z).

Record world := World {
  w_fs : gmap (list string) node;
  w_fds : gmap nat (list string);
  w_block : Z;
  w_dirsz : Z;
  w_uuid : nat -> string;
  w_next : nat;
  w_log : list event
}.

Definition set_fs (fs : gmap (list string) node) (w : world) : world :=
  World fs (w_fds w) (w_block w) (w_dirsz w) (w_uuid w) (w_next w) (w_log w).
Definition set_fds (fds : gmap nat (list string)) (w : world) : world :=
  World (w_fs w) fds (w_block w) (w_dirsz w) (w_uuid w) (w_next w) (w_log w).
Definition set_next (n : nat) (w : world) : world :=
  World (w_fs w) (w_fds w) (w_block w) (w_dirsz w) (w_uuid w) n (w_log w).
Definition add_log (e : event) (w : world) : world :=
  World (w_fs w) (w_fds w) (w_block w) (w_dirsz w) (w_uuid w) (w_next w) (w_log w ++ [e]).

(** *** Computations: a state over the world, with exceptions *)

Inductive result (A : Type) :=
| Ok (a : A)
| Throw (e : error).
Arguments Ok {A} a.
Arguments Throw {A} e.

Definition M (A : Type) : Type := world -> result A * world.

#[global] Instance M_ret : MRet M := fun A a w => (Ok a, w).
#[global] Instance M_bind : MBind M := fun A B f m w =>
  match m w with
  | (Ok a, w') => f a w'
  | (Throw e, w') => (Throw e, w')
  end.

Definition throw {A} (e : error) : M A := fun w => (Throw e, w).
Definition try_catch {A} (m : M A) (handler : error -> M A) : M A := fun w =>
  match m w with
  | (Ok a, w') => (Ok a, w')
  | (Throw e, w') => handler e w'
  end.
Definition issue (e : event) : M unit := fun w => (Ok tt, add_log e w).
Definition get_fs : M (gmap (list string) node) := fun w => (Ok (w_fs w), w).
Definition put_fs (fs : gmap (list string) node) : M unit := fun w => (Ok tt, set_fs fs w).
Definition get_fds : M (gmap nat (list string)) := fun w => (Ok (w_fds w), w).
Definition put_fds (fds : gmap nat (list string)) : M unit := fun w => (Ok tt, set_fds fds w).
Definition get_world : M world := fun w => (Ok w, w).

(** *** Paths as the operating system resolves them *)

Module Fs.

(** Path resolution on segments: empty and [.] segments are skipped, [..]
    goes to the parent (the root is its own parent).  No symbolic links;
    a relative path is resolved from the root.  The resolution is done on
    the text of the path: it is what the operating system finds for the
    paths [path.join] produces from entry names (no [..] is left in them
    and no slash ends them); the operating system itself refuses the
    empty path, and a regular file followed by a slash or a dot. *)
Definition walk_step (stack : list string) (seg : string) : list string :=
  if String.eqb seg "" then stack
  else if String.eqb seg "." then stack
  else if String.eqb seg ".." then tail stack
  else seg :: stack.

Definition resolve (p : string) : list string :=
  rev (fold_left walk_step (JS.split "/" p) []).

Definition lookup (fs : gmap (list string) node) (r : list string) : option node :=
  match r with
  | [] => Some Dir
  | _ => fs !! r
  end.

(** Why a path that leads nowhere does so, going down from [base]: the
    first segment that is not a directory decides, [ENOTDIR] when a
    regular file stands in the way, [ENOENT] when nothing is there. *)
Fixpoint obstacle (fs : gmap (list string) node) (base segs : list string) : error :=
  match segs with
  | [] => ENOENT
  | s :: rest =>
      match lookup fs (base ++ [s]) with
      | Some Dir => obstacle fs (base ++ [s]) rest
      | Some (File _) => ENOTDIR
      | None => ENOENT
      end
  end.

Fixpoint strip_prefix (p q : list string) : option (list string) :=
  match p, q with
  | [], _ => Some q
  | a :: p', b :: q' => if String.eqb a b then strip_prefix p' q' else None
  | _ :: _, [] => None
  end.

(** [q] is a direct entry of directory [p]: its name. *)
Definition child_of (p q : list string) : option string :=
  match strip_prefix p q with
  | Some [x] => Some x
  | _ => None
  end.

(** [q] lies strictly below [p]. *)
Definition under (p q : list string) : bool :=
  match strip_prefix p q with
  | Some (_ :: _) => true
  | _ => false
  end.

Definition children (fs : gmap (list string) node) (p : list string) : list string :=
  omap (fun e => child_of p e.1) (map_to_list fs).

Definition node_size (dirsz : Z) (n : node) : Z :=
  match n with
  | File data => Z.of_nat (length data)
  | Dir => dirsz
  end.

(** Apparent sizes of everything strictly below [p], as [du -sb] adds them
    up: the byte length of each file, [dirsz] for each directory. *)
Definition usage_below (dirsz : Z) (fs : gmap (list string) node) (p : list string) : Z :=
  map_fold (fun q n acc => if under p q then acc + node_size dirsz n else acc) 0 fs.

Definition usage (dirsz : Z) (fs : gmap (list string) node) (p : list string) : option Z :=
  match lookup fs p with
  | Some n => Some (node_size dirsz n + usage_below dirsz fs p)
  | None => None
  end.

(** [pwrite]: the bytes of [chunk] land at [pos]; a gap after the end of
    the file reads as zeros; writing nothing changes nothing. *)
Definition pwrite (data : list Byte.byte) (pos : nat) (chunk : list Byte.byte) : list Byte.byte :=
  match chunk with
  | [] => data
  | _ =>
      let padded := data ++ replicate (pos - length data) Byte.x00 in
      take pos padded ++ chunk ++ drop (pos + length chunk) padded
  end.

(** [pread]: at most [len] bytes from [pos], fewer at the end of the file,
    stored in [buffer] from [offset]. *)
Definition pread (data : list Byte.byte) (pos len : nat) (buffer : list Byte.byte) (offset : nat) : list Byte.byte :=
  let got := take len (drop pos data) in
  take offset buffer ++ got ++ drop (offset + length got) buffer.

End Fs.

(** *** [node:fs/promises], [node:fs], [node:child_process], [crypto] *)

Record Stats := { st_size : Z; st_isDirectory : bool }.

Definition access (p : string) : M unit :=
  issue (EvAccess p);;
  fs ← get_fs;
  match Fs.lookup fs (Fs.resolve p) with
  | Some _ => mret tt
  | None => throw ENOENT
  end.

Definition stat (p : string) : M Stats :=
  issue (EvStat p);;
  w ← get_world;
  match Fs.lookup (w_fs w) (Fs.resolve p) with
  | Some (File data) => mret {| st_size := Z.of_nat (length data); st_isDirectory := false |}
  | Some Dir => mret {| st_size := w_dirsz w; st_isDirectory := true |}
  | None => throw ENOENT
  end.

(** [writeFile(p, data)]: creates the file or replaces its content. *)
Definition writeFile (p : string) (data : list Byte.byte) : M unit :=
  issue (EvWriteFile p);;
  fs ← get_fs;
  let r := Fs.resolve p in
  match Fs.lookup fs r with
  | Some Dir => throw EISDIR
  | Some (File _) => put_fs (<[r := File data]> fs)
  | None =>
      match Fs.lookup fs (removelast r) with
      | Some Dir => put_fs (<[r := File data]> fs)
      | Some (File _) => throw ENOTDIR
      | None => throw ENOENT
      end
  end.

(** [truncate(p, len)]: the file is opened for update and resized; a
    negative length is taken as zero (Node: [len = Math.max(0, len)]);
    a longer file is filled with zero bytes. *)
Definition truncate (p : string) (len : Z) : M unit :=
  issue (EvTruncate p len);;
  fs ← get_fs;
  let r := Fs.resolve p in
  match Fs.lookup fs r with
  | Some (File data) => put_fs (<[r := File (resize (Z.to_nat (Z.max 0 len)) Byte.x00 data)]> fs)
  | Some Dir => throw EISDIR
  | None => throw ENOENT
  end.

(** [mkdir(p, { recursive: true })]: every missing directory on the way is
    created; existing directories are left alone. *)
Fixpoint mkdir_from (fs : gmap (list string) node) (base segs : list string)
  : option error * gmap (list string) node :=
  match segs with
  | [] => (None, fs)
  | s :: rest =>
      let here := base ++ [s] in
      match Fs.lookup fs here with
      | Some Dir => mkdir_from fs here rest
      | Some (File _) => (Some (match rest with [] => EEXIST | _ => ENOTDIR end), fs)
      | None => mkdir_from (<[here := Dir]> fs) here rest
      end
  end.

Definition mkdir_recursive (p : string) : M unit :=
  issue (EvMkdir p);;
  fs ← get_fs;
  match mkdir_from fs [] (Fs.resolve p) with
  | (None, fs') => put_fs fs'
  | (Some e, fs') => put_fs fs';; throw e
  end.

(** [unlink(p)]: removes a regular file; a directory is refused with
    [EISDIR], a path through a regular file with [ENOTDIR]. *)
Definition unlink (p : string) : M unit :=
  issue (EvUnlink p);;
  fs ← get_fs;
  let r := Fs.resolve p in
  match Fs.lookup fs r with
  | Some (File _) => put_fs (delete r fs)
  | Some Dir => throw EISDIR
  | None => throw (Fs.obstacle fs [] r)
  end.

Definition readdir (p : string) : M (list string) :=
  issue (EvReaddir p);;
  fs ← get_fs;
  let r := Fs.resolve p in
  match Fs.lookup fs r with
  | Some Dir => mret (Fs.children fs r)
  | Some (File _) => throw ENOTDIR
  | None => throw ENOENT
  end.

Definition rmdir (p : string) : M unit :=
  issue (EvRmdir p);;
  fs ← get_fs;
  let r := Fs.resolve p in
  match r, Fs.lookup fs r with
  | [], _ => throw EBUSY
  | _, Some Dir =>
      match Fs.children fs r with
      | [] => put_fs (delete r fs)
      | _ => throw ENOTEMPTY
      end
  | _, Some (File _) => throw ENOTDIR
  | _, None => throw ENOENT
  end.

(** The blocking calls of [node:fs] perform the same operations. *)
Definition statSync : string -> M Stats := stat.
Definition writeFileSync : string -> list Byte.byte -> M unit := writeFile.
Definition truncateSync : string -> Z -> M unit := truncate.
Definition mkdirSync_recursive : string -> M unit := mkdir_recursive.
Definition existsSync (p : string) : M bool :=
  try_catch (access p;; mret true) (fun _ => mret false).

(** src/common/fs-extends.ts *)
Definition fs_exists (p : string) : M bool :=
  try_catch (access p;; mret true) (fun _ => mret false).

(** [du -sb folder], first field of its output, as a number.  The class
    pastes the folder path into the command line without quotes; the
    model is the command on one operand, which is what runs when the path
    is a word the shell hands over unchanged ([shell_word] below). *)
Definition du_sb (p : string) : M Z :=
  issue (EvDu p);;
  w ← get_world;
  match Fs.usage (w_dirsz w) (w_fs w) (Fs.resolve p) with
  | Some n => mret n
  | None => throw ExecError
  end.

(** [stat -f -c %S folder]: the block size of the file system; the path
    is pasted into the command line as for [du_sb]. *)
Definition stat_f_S (p : string) : M Z :=
  issue (EvStatfs p);;
  w ← get_world;
  match Fs.lookup (w_fs w) (Fs.resolve p) with
  | Some _ => mret (w_block w)
  | None => throw ExecError
  end.

(** [crypto.randomUUID()]: the next identifier of the world's supply. *)
Definition take_uuid : M string := fun w =>
  (Ok (w_uuid w (w_next w)), set_next (S (w_next w)) w).

Definition randomUUID : M string :=
  issue EvRandomUUID;;
  take_uuid.

(** [Buffer.alloc(size)]: [size] zero bytes; a negative size is refused
    (with [ERR_INVALID_ARG_VALUE] before Node 20). *)
Definition Buffer_alloc (size : Z) : M (list Byte.byte) :=
  if size <? 0 then throw ERR_OUT_OF_RANGE
  else mret (replicate (Z.to_nat size) Byte.x00).

(** *** [FileHandle] *)

Definition FileHandle := nat.

Definition fh_file (fd : FileHandle) : M (list string * list Byte.byte) :=
  w ← get_world;
  match w_fds w !! fd with
  | None => throw EBADF
  | Some r =>
      match w_fs w !! r with
      | Some (File data) => mret (r, data)
      | _ => throw EBADF
      end
  end.

(** [fh.close()]: closing a handle that is closed already resolves
    without doing anything. *)
Definition fh_close (fd : FileHandle) : M unit :=
  issue (EvClose fd);;
  fds ← get_fds;
  match fds !! fd with
  | None => mret tt
  | Some _ => put_fds (delete fd fds)
  end.

Definition fh_stat (fd : FileHandle) : M Stats :=
  issue (EvFstat fd);;
  '(_, data) ← fh_file fd;
  mret {| st_size := Z.of_nat (length data); st_isDirectory := false |}.

(** [fh.read(buffer, offset, length, position)]; the result is the buffer
    after the call.  Node checks the arguments first: the range
    [offset, offset + length) has to lie inside the buffer. *)
Definition fh_read (fd : FileHandle) (buffer : list Byte.byte) (offset len position : Z)
  : M (list Byte.byte) :=
  issue (EvRead fd offset len position);;
  if offset <? 0 then throw ERR_OUT_OF_RANGE
  else if len =? 0 then mret buffer
  else if Z.of_nat (length buffer) =? 0 then throw ERR_INVALID_ARG_VALUE
  else if len <? 0 then throw ERR_OUT_OF_RANGE
  else if offset + len >? Z.of_nat (length buffer) then throw ERR_OUT_OF_RANGE
  else if position <? 0 then throw EINVAL
  else
    '(_, data) ← fh_file fd;
    mret (Fs.pread data (Z.to_nat position) (Z.to_nat len) buffer (Z.to_nat offset)).

(** [fh.write(buffer, offset, length, position)]: writes
    [buffer[offset .. offset + length)] at [position] of the file; the
    result is the number of bytes written.  Node checks the arguments
    first: [offset <= buffer.length] and
    [0 <= length <= buffer.length - offset]. *)
Definition fh_write (fd : FileHandle) (buffer : list Byte.byte) (offset len position : Z)
  : M Z :=
  issue (EvWrite fd offset len position);;
  let byteLength := Z.of_nat (length buffer) in
  if byteLength =? 0 then mret 0
  else if offset <? 0 then throw ERR_OUT_OF_RANGE
  else if offset >? byteLength then throw ERR_OUT_OF_RANGE
  else if len >? byteLength - offset then throw ERR_OUT_OF_RANGE
  else if len <? 0 then throw ERR_OUT_OF_RANGE
  else if position <? 0 then throw EINVAL
  else
    '(r, data) ← fh_file fd;
    let chunk := take (Z.to_nat len) (drop (Z.to_nat offset) buffer) in
    fs ← get_fs;
    put_fs (<[r := File (Fs.pwrite data (Z.to_nat position) chunk)]> fs);;
    mret len.

(** ** JavaScript numbers *)

(** The value of [Math.ceil(a / b)] for integers [a] and [b], or of a loop
    bound in general. *)
Inductive number :=
| Finite (z : Z)
| PosInfinity
| NegInfinity
| NaN.

Definition Math_ceil_div (a b : Z) : number :=
  if b =? 0 then
    (if a >? 0 then PosInfinity else if a <? 0 then NegInfinity else NaN)
  else Finite (- ((- a) / b)).

(** [let index = 0; while (index < bound) { body; index++ }], the body
    passing a value on from round to round. *)
Fixpoint rounds {S : Type} (n : nat) (index : Z) (body : Z -> S -> M S) (s : S) : M S :=
  match n with
  | O => mret s
  | Datatypes.S n' => s' ← body index s; rounds n' (index + 1) body s'
  end.

(** With an infinite bound the loop never ends by itself: the first round
    runs (and may throw), and a loop that goes on is [Diverge]. *)
Definition while_index_lt {S : Type} (bound : number) (body : Z -> S -> M S) (s : S) : M S :=
  match bound with
  | Finite n => rounds (Z.to_nat n) 0 body s
  | PosInfinity => body 0 s;; throw Diverge
  | NegInfinity | NaN => mret s
  end.

(** [Number.MAX_SAFE_INTEGER], and the integers a JavaScript number holds
    exactly ([Number.isSafeInteger]); sums and differences of byte counts
    are the integers' as long as they stay among these, and [truncate]
    refuses a length outside of them. *)
Definition MAX_SAFE_INTEGER : Z := 2 ^ 53 - 1.

Definition safe_integer (z : Z) : Prop := - MAX_SAFE_INTEGER <= z <= MAX_SAFE_INTEGER.

(** An integer as a binary64 number (exact on the safe integers). *)
Definition Number (z : Z) : float :=
  if z <? 0 then PrimFloat.opp (PrimFloat.of_uint63 (Uint63.of_Z (- z)))
  else PrimFloat.of_uint63 (Uint63.of_Z z).

(** [Math.round]: the nearest integer, halves going up. *)
Definition Math_round (x : float) : float :=
  match Prim2SF x with
  | S754_finite s m e =>
      if 0 <=? e then x
      else
        let num := if s then Z.neg m else Z.pos m in
        let n := (2 * num + 2 ^ (- e)) / 2 ^ (1 - e) in
        if (n =? 0) && s then PrimFloat.neg_zero else Number n
  | _ => x
  end.

(** ** The class *)

(** Modelled from the spec: the per-file wrapper class [DiskIOFile]
    (src/classes/diskio-file.class.ts is not among the sources).  The spec
    asks of it an open file handle and an initialization-complete signal;
    the model keeps the name it is built from and whether that signal has
    been awaited before the object is handed to the caller. *)
Record DiskIOFile := {
  file_name : list string;
  file_ready : bool
}.

Definition new_DiskIOFile (name : list string) : DiskIOFile :=
  {| file_name := name; file_ready := false |}.

Definition await_ready (f : DiskIOFile) : M DiskIOFile :=
  mret {| file_name := file_name f; file_ready := true |}.

Record report := {
  rp_size : Z;
  rp_used : Z;
  rp_available : Z;
  rp_capacity : float
}.

(** What [information.disk] returns; a field the line of [df] does not
    reach is [undefined]. *)
Record disk_information := {
  di_filesystem : option string;
  di_size : float;
  di_used : float;
  di_available : float;
  di_capacity : option string;
  di_mount : option string
}.

Module DiskIO.

(** The fields of an instance. *)
Record t := {
  RESERVED_SIZE : Z;
  path_folder : string;
  path_diskio : string;
  optimal : Z
}.

Definition RESERVED_FILE : string := "diskio.dat".

Definition set_optimal (d : t) (b : Z) : t :=
  {| RESERVED_SIZE := RESERVED_SIZE d; path_folder := path_folder d;
     path_diskio := path_diskio d; optimal := b |}.

(** The fields of an instance for a folder path and a capacity; [optimal]
    is 4096 until [ready] replaces it with the block size. *)
Definition instance (path : string) (size : Z) (optimal : Z) : t :=
  {| RESERVED_SIZE := size;
     path_folder := Path.join [path];
     path_diskio := Path.join [path] +:+ "/" +:+ RESERVED_FILE;
     optimal := optimal |}.

Definition size_block (d : t) : M Z := stat_f_S (path_folder d).

Definition size_diskio (d : t) : M Z :=
  status ← stat (path_diskio d);
  mret (st_size status).

Definition size_diskioSync (d : t) : M Z :=
  status ← statSync (path_diskio d);
  mret (st_size status).

Definition size_folder (d : t) : M Z := du_sb (path_folder d).

Definition size_folderSync (d : t) : M Z := du_sb (path_folder d).

(** The getter [folder]. *)
Definition folder (d : t) : string := path_folder d.

(** [information.disk]: the second line of what [df -k folder] prints, cut
    at its runs of spaces.  The command runner [exec] and JavaScript's
    [Number] on strings ([undefined] included) are taken as they come;
    reading [replace] of a missing second line is a [TypeError], kept here
    as an [Error] with Node's message. *)
Definition information_disk (exec : string -> M string) (Number_of : option string -> float)
    (d : t) : M disk_information :=
  stdout ← exec ("df -k " +:+ path_folder d);
  match nth_error (JS.split "010" stdout) 1 with
  | None => throw (Error "Cannot read properties of undefined (reading 'replace')")
  | Some information =>
      let cleaned := JS.replace_space_runs information in
      let fields := JS.split " " cleaned in
      mret {| di_filesystem := nth_error fields 0;
              di_size := Number_of (nth_error fields 1);
              di_used := Number_of (nth_error fields 2);
              di_available := Number_of (nth_error fields 3);
              di_capacity := nth_error fields 4;
              di_mount := nth_error fields 5 |}
  end.

Definition information_diskio (d : t) : M report :=
  let size := RESERVED_SIZE d - optimal d in
  available ← size_diskio d;
  folder ← size_folder d;
  let used := folder - available in
  let capacity :=
    Math_round (PrimFloat.sub 100 (PrimFloat.mul (PrimFloat.div (Number used) (Number size)) 100)) in
  mret {| rp_size := size; rp_used := used; rp_available := available; rp_capacity := capacity |}.

Definition stabilize (d : t) (expected : Z) : M unit :=
  diskioExists ← fs_exists (path_diskio d);
  (if negb diskioExists then writeFile (path_diskio d) [] else mret tt);;
  diskio ← size_diskio d;
  folder ← size_folder d;
  let difference := expected - folder + diskio in
  truncate (path_diskio d) difference.

Definition stabilizeSync (d : t) (expected : Z) : M unit :=
  diskioExists ← existsSync (path_diskio d);
  (if negb diskioExists then writeFileSync (path_diskio d) [] else mret tt);;
  diskio ← size_diskioSync d;
  folder ← size_folderSync d;
  let difference := expected - folder + diskio in
  truncateSync (path_diskio d) difference.

Definition constructor (path : string) (size : Z) : M t :=
  pathExists ← existsSync path;
  if negb pathExists then throw (Error "The path does not exist")
  else
    status ← statSync path;
    if negb (st_isDirectory status) then throw (Error "The path is not a directory")
    else if size <=? 0 then throw (Error "The size must be positive")
    else mret (instance path size 4096).

(** The [ready] promise: the first stabilization, then the block size. *)
Definition ready (d : t) : M t :=
  stabilize d (RESERVED_SIZE d);;
  b ← size_block d;
  mret (set_optimal d b).

Definition allocate (d : t) (size : Z) : M unit :=
  diskio ← size_diskio d;
  if size >? diskio then throw (Error "The size is greater than the available size")
  else truncate (path_diskio d) (diskio - size).

Definition get (d : t) (name : string) : M DiskIOFile :=
  let cleaned := List.filter JS.Boolean (JS.split "/" name) in
  let path := Path.join (path_folder d :: cleaned) in
  if String.eqb path (path_diskio d) then throw (Error "The name is diskio storage file")
  else
    let diskioFile := new_DiskIOFile cleaned in
    await_ready diskioFile.

Definition getSync (d : t) (name : string) : M DiskIOFile :=
  let cleaned := List.filter JS.Boolean (JS.split "/" name) in
  let path := Path.join (path_folder d :: cleaned) in
  if String.eqb path (path_diskio d) then throw (Error "The name is diskio storage file")
  else
    let diskioFile := new_DiskIOFile cleaned in
    mret diskioFile.

(** [create] calls itself again when the generated path is taken; [fuel]
    bounds the number of further attempts. *)
Fixpoint create (fuel : nat) (d : t) (name : string) : M DiskIOFile :=
  if (String.length name =? 0)%nat then throw (Error "The name is empty")
  else
    uuid ← randomUUID;
    let path := Path.join (path_folder d :: JS.split "-" uuid) in
    mkdir_recursive path;;
    let filePath := Path.join [path; name] in
    taken ← fs_exists filePath;
    if (taken : bool) then
      match fuel with
      | O => throw OutOfFuel
      | Datatypes.S fuel' => create fuel' d name
      end
    else
      writeFile filePath [];;
      stabilize d (RESERVED_SIZE d);;
      get d (JS.replace (path_folder d) "" filePath).

Fixpoint createSync (fuel : nat) (d : t) (name : string) : M DiskIOFile :=
  if (String.length name =? 0)%nat then throw (Error "The name is empty")
  else
    uuid ← randomUUID;
    let path := Path.join (path_folder d :: JS.split "-" uuid) in
    mkdirSync_recursive path;;
    let filePath := Path.join [path; name] in
    taken ← existsSync filePath;
    if (taken : bool) then
      match fuel with
      | O => throw OutOfFuel
      | Datatypes.S fuel' => createSync fuel' d name
      end
    else
      writeFileSync filePath [];;
      stabilizeSync d (RESERVED_SIZE d);;
      getSync d (JS.replace (path_folder d) "" filePath).

Definition read (d : t) (fh : FileHandle) (start end_ : Z) : M (list Byte.byte) :=
  let difference := end_ - start in
  status ← fh_stat fh;
  let size := st_size status in
  buffer ← Buffer_alloc (end_ - start);
  let reads := Math_ceil_div difference (optimal d) in
  while_index_lt reads (fun index buffer =>
    let bufferStart := start + index * optimal d in
    let bytesToRead := if bufferStart + optimal d >? size then size - bufferStart else optimal d in
    fh_read fh buffer bufferStart bytesToRead bufferStart) buffer.

Definition write (d : t) (fh : FileHandle) (data : list Byte.byte) (position : Z) : M unit :=
  let data_length := Z.of_nat (length data) in
  allocate d data_length;;
  let writes := Math_ceil_div data_length (optimal d) in
  while_index_lt writes (fun index (_ : unit) =>
    let bufferStart := position + index * optimal d in
    let bytesToWrite :=
      if optimal d >? data_length - bufferStart then data_length - bufferStart else optimal d in
    fh_write fh data bufferStart bytesToWrite bufferStart;;
    mret tt) tt.

(** [while (copy.pop())]: [popped] lists what is left of [copy], last
    element first; an empty string ends the loop as a missing one does. *)
Fixpoint delete_walk (d : t) (popped : list string) : M unit :=
  match popped with
  | [] => mret tt
  | last :: before =>
      if JS.Boolean last then
        let parent := Path.join (path_folder d :: rev before) in
        readed ← readdir parent;
        if (length readed =? 0)%nat then
          rmdir parent;;
          delete_walk d before
        else mret tt
      else mret tt
  end.

Definition delete (d : t) (fh : FileHandle) (name : list string) : M unit :=
  fh_close fh;;
  let path := Path.join (path_folder d :: name) in
  unlink (Path.join [path]);;
  delete_walk d (rev name);;
  stabilize d (RESERVED_SIZE d).

End DiskIO.

(** * Vocabulary of the properties *)

(** ** The errors of the class *)

(** The class throws plain [Error]s; these are the two the spec names. *)
Definition ReservedNameError : error := Error "The name is diskio storage file".

Definition InsufficientSpaceError : error := Error "The size is greater than the available size".

(** ** Path segments *)

(** A segment without a slash. *)
Fixpoint no_slash (s : string) : bool :=
  match s with
  | EmptyString => true
  | String c s' => negb (Ascii.eqb c "/") && no_slash s'
  end.

(** A segment that names an entry: not empty, not [.] or [..], no slash. *)
Definition plain (s : string) : bool :=
  negb (String.eqb s "") && negb (String.eqb s ".") && negb (String.eqb s "..") && no_slash s.

(** Segments that [normalizeString] keeps in its result and that are not
    [..]: the walk of the operating system pushes them as well. *)
Definition kept (s : string) : Prop := s <> "" /\ s <> "." /\ s <> "..".

(** An absolute path in normal form: a slash, then segments glued with
    slashes; the root alone is a single slash. *)
Definition canonical (segs : list string) : string :=
  match segs with
  | [] => "/"
  | _ => "/" +:+ String.concat "/" segs
  end.

(** A non-empty string without a slash. *)
Definition segment (s : string) : Prop := s <> "" /\ no_slash s = true.

(** ** Words of a command line *)

(** Characters the shell gives no meaning to: letters, digits, and
    [/ . _ -]. *)
Definition shell_literal (c : ascii) : bool :=
  let n := nat_of_ascii c in
  ((48 <=? n) && (n <=? 57) || (65 <=? n) && (n <=? 90) || (97 <=? n) && (n <=? 122))%nat
  || Ascii.eqb c "/" || Ascii.eqb c "." || Ascii.eqb c "_" || Ascii.eqb c "-".

Fixpoint all_chars (f : ascii -> bool) (s : string) : bool :=
  match s with
  | EmptyString => true
  | String c s' => f c && all_chars f s'
  end.

(** A path that reaches [du] or [stat] as the one operand it is meant to
    be although the command line does not quote it: not empty, made of
    [shell_literal] characters, and not starting like an option. *)
Definition shell_word (s : string) : bool :=
  match s with
  | EmptyString => false
  | String c _ => negb (Ascii.eqb c "-") && all_chars shell_literal s
  end.

(** ** Byte counts that numbers hold exactly *)

(** The directory size is not negative, [expected] is a byte count a
    JavaScript number holds exactly, and so is what the folder at [root]
    uses.  The sentinel's size is part of that usage, so the differences
    [stabilize expected] forms from the three are exact, and each of them
    is a length [truncate] accepts. *)
Definition safe_bytes (expected : Z) (w : world) (root : list string) : Prop :=
  0 <= w_dirsz w
  /\ 0 <= expected <= MAX_SAFE_INTEGER
  /\ w_dirsz w + Fs.usage_below (w_dirsz w) (w_fs w) root <= MAX_SAFE_INTEGER.

(** ** Folder usage, entry by entry *)

Definition size_at (dirsz : Z) (fs : gmap (list string) node) (r : list string) : Z :=
  match fs !! r with
  | Some n => Fs.node_size dirsz n
  | None => 0
  end.

Definition count_entry (dirsz : Z) (p : list string) : list string -> node -> Z -> Z :=
  fun q n acc => if Fs.under p q then acc + Fs.node_size dirsz n else acc.

(** ** Paths the operating system takes *)

(** The string does not contain the character. *)
Fixpoint lacks (c : ascii) (s : string) : bool :=
  match s with
  | EmptyString => true
  | String a s' => negb (Ascii.eqb a c) && lacks c s'
  end.

(** A path the calls of [node:fs] take and the operating system can look
    up: no null byte, at most 4095 bytes in all ([PATH_MAX] less the
    terminator) and at most 255 in each component ([NAME_MAX]). *)
Definition os_path (p : string) : bool :=
  lacks "000" p
  && (String.length p <=? 4095)%nat
  && forallb (fun s => (String.length s <=? 255)%nat) (JS.split "/" p).

(** ** Lines of [df] *)

(** A column of a line of [df]: not empty, no space, no line break. *)
Definition token (s : string) : Prop :=
  s <> "" /\ lacks " " s = true /\ lacks "010" s = true.

Fixpoint spaces (n : nat) : string :=
  match n with
  | O => EmptyString
  | S n' => String " " (spaces n')
  end.

(** A line of columns: after the first, each column comes behind a run of
    at least one space. *)
Fixpoint df_line (first : string) (rest : list (nat * string)) : string :=
  match rest with
  | [] => first
  | (gap, next) :: rest' => first +:+ spaces (S gap) +:+ df_line next rest'
  end.

(** ** Directories made on the way *)

(** The file system with a directory for every segment of [segs], each
    inside the one before, the first inside [base]. *)
Fixpoint add_dirs (fs : gmap (list string) node) (base segs : list string)
  : gmap (list string) node :=
  match segs with
  | [] => fs
  | s :: rest => add_dirs (<[base ++ [s] := Dir]> fs) (base ++ [s]) rest
  end.

(** ** States and traces *)

(** The result of a variant that hands its wrapper over without awaiting
    the initialization signal. *)
Definition without_await (x : result DiskIOFile * world) : result DiskIOFile * world :=
  match x with
  | (Ok f, w) => (Ok {| file_name := file_name f; file_ready := false |}, w)
  | (Throw e, w) => (Throw e, w)
  end.



(** The calls the walk over the parents makes. *)
Definition walk_event (e : event) : Prop :=
  match e with
  | EvReaddir _ | EvRmdir _ => True
  | _ => False
  end.

(** The chunk writes [write] issues from round [i] on, for data of [len]
    bytes at position 0. *)
Fixpoint chunk_writes (fh : FileHandle) (b len : Z) (n : nat) (i : Z) : list event :=
  match n with
  | O => []
  | S n' => EvWrite fh (i * b) (Z.min b (len - i * b)) (i * b) :: chunk_writes fh b len n' (i + 1)
  end.

(** ** Scenarios *)

(** Identifiers [crypto.randomUUID] hands out in the scenarios. *)
Definition uuids (n : nat) : string :=
  match n with
  | O => "a1b2c3d4-e5f6-4a7b-8c9d-0123456789ab"
  | _ => "00000000-1111-4222-8333-444444444444"
  end.

(** An empty folder [/data]; blocks and directories of 4096 bytes. *)
Definition world_empty : world :=
  World (<[ ["data"] := Dir ]> ∅) ∅ 4096 4096 uuids 0 [].

(** A folder [/data] that already holds a file of 10 bytes. *)
Definition world_over : world :=
  World (<[ ["data"; "big.bin"] := File (replicate 10 Byte.x01) ]> (<[ ["data"] := Dir ]> ∅))
        ∅ 4096 4096 uuids 0 [].

(** A folder [/data] with a sentinel of 100 bytes and a file [f] of 20
    bytes, open as handle 7. *)
Definition world_file : world :=
  World (<[ ["data"; "f"] := File (replicate 20 Byte.x09) ]>
           (<[ ["data"; "diskio.dat"] := File (replicate 100 Byte.x00) ]>
              (<[ ["data"] := Dir ]> ∅)))
        (<[ 7%nat := ["data"; "f"] ]> ∅) 4096 4096 uuids 0 [].

(** A buffer of 8 bytes. *)
Definition bytes8 : list Byte.byte :=
  [Byte.x01; Byte.x02; Byte.x03; Byte.x04; Byte.x05; Byte.x06; Byte.x07; Byte.x08].

(** A folder [/data] with the sentinel, a file [a/b/f.txt] open as handle
    7, and a second file [a/g.txt]. *)
Definition world_tree : world :=
  World (<[ ["data"; "a"; "g.txt"] := File [Byte.x02] ]>
           (<[ ["data"; "a"; "b"; "f.txt"] := File [Byte.x01] ]>
              (<[ ["data"; "a"; "b"] := Dir ]>
                 (<[ ["data"; "a"] := Dir ]>
                    (<[ ["data"; "diskio.dat"] := File (replicate 100 Byte.x00) ]>
                       (<[ ["data"] := Dir ]> ∅))))))
        (<[ 7%nat := ["data"; "a"; "b"; "f.txt"] ]> ∅) 4096 4096 uuids 0 [].


(** A stabilized folder [/data] of 1024 bytes on a file system with blocks
    and directories of 64 bytes: the sentinel holds 960 zero bytes. *)
Definition world_small : world :=
  World (<[ ["data"; "diskio.dat"] := File (replicate 960 Byte.x00) ]> (<[ ["data"] := Dir ]> ∅))
        ∅ 64 64 uuids 0 [].

(** What [df -k] prints for a disk mounted at [/mnt/my disk], and a command
    runner that answers with it. *)
Definition df_output : string :=
  "Filesystem     1K-blocks     Used Available Use% Mounted on"
  +:+ String "010" ("/dev/sda1      41251136 16770720  24464032   41% /mnt/my disk"
                    +:+ String "010" "").

Definition exec_df : string -> M string := fun _ => mret df_output.

(** A folder [/data] in which the path of the first identifier is taken:
    its directories exist and hold a file [a.txt]. *)
Definition world_taken : world :=
  World (<[ ["data"; "a1b2c3d4"; "e5f6"; "4a7b"; "8c9d"; "0123456789ab"; "a.txt"] := File [] ]>
           (add_dirs (<[ ["data"; "diskio.dat"] := File (replicate 100 Byte.x00) ]>
                        (<[ ["data"] := Dir ]> ∅))
              ["data"] ["a1b2c3d4"; "e5f6"; "4a7b"; "8c9d"; "0123456789ab"]))
        ∅ 4096 4096 uuids 0 [].


(** * Properties *)

(** ** The string, path and number functions on examples *)

Example split_ex1 : JS.split "/" "//diskio.dat/" = [""; ""; "diskio.dat"; ""].
Proof. reflexivity. Qed.

Example join_ex1 : Path.join ["/data"; "a"; ".."; "diskio.dat"] = "/data/diskio.dat".
Proof. reflexivity. Qed.

Example join_ex2 : Path.join ["/data/"] = "/data/".
Proof. reflexivity. Qed.

Example join_ex3 : Path.join ["../x"; "a"; "b"] = "../x/a/b".
Proof. reflexivity. Qed.

Example replace_ex1 : JS.replace "/data" "" "/data/a/b/f.txt" = "/a/b/f.txt".
Proof. reflexivity. Qed.

Example Math_round_ex1 : Math_round 2.5%float = 3%float /\ Math_round (-2.5)%float = (-2)%float.
Proof. split; vm_compute; reflexivity. Qed.

Example Math_round_ex2 : Math_round (PrimFloat.div 1%float 3%float) = 0%float.
Proof. vm_compute; reflexivity. Qed.

(** ** Strings and paths *)

Section PathFacts.

Lemma split_nonempty (c : ascii) (s : string) : JS.split c s <> [].
Proof.
  destruct s as [|a s]; simpl; [discriminate|].
  destruct (Ascii.eqb a c); [discriminate|].
  destruct (JS.split c s); discriminate.
Qed.

Lemma split_app (c : ascii) (s t : string) :
  JS.split c (s +:+ String c t) = JS.split c s ++ JS.split c t.
Proof.
  induction s as [|a s IH]; simpl.
  - rewrite Ascii.eqb_refl. reflexivity.
  - destruct (Ascii.eqb a c); [now rewrite IH|].
    rewrite IH. pose proof (split_nonempty c s) as Hne.
    destruct (JS.split c s); [congruence|reflexivity].
Qed.

Lemma split_no_slash (s : string) : no_slash s = true -> JS.split "/" s = [s].
Proof.
  induction s as [|a s IH]; simpl; [reflexivity|].
  intros [Ha Hs]%andb_prop. apply negb_true_iff in Ha. rewrite Ha, (IH Hs). reflexivity.
Qed.

Lemma split_all_no_slash (s : string) : Forall (fun x => no_slash x = true) (JS.split "/" s).
Proof.
  induction s as [|a s IH]; simpl; [repeat constructor|].
  destruct (Ascii.eqb a "/") eqn:Ha; [constructor; [reflexivity|exact IH]|].
  destruct (JS.split "/" s) as [|x xs]; [repeat constructor; simpl; now rewrite Ha|].
  inversion IH; subst. constructor; [simpl; now rewrite Ha|assumption].
Qed.

Lemma split_concat (l : list string) :
  l <> [] -> Forall (fun x => no_slash x = true) l ->
  JS.split "/" (String.concat "/" l) = l.
Proof.
  induction l as [|x l IH]; [congruence|]. intros _ Hall.
  inversion Hall as [|? ? Hx Hl]; subst.
  destruct l as [|y l].
  - simpl. now apply split_no_slash.
  - change (String.concat "/" (x :: y :: l)) with (x +:+ String "/" (String.concat "/" (y :: l))).
    rewrite split_app, (split_no_slash x Hx), IH; [reflexivity|discriminate|assumption].
Qed.

Lemma plain_walk (stack : list string) (s : string) :
  plain s = true -> Fs.walk_step stack s = s :: stack.
Proof.
  unfold plain, Fs.walk_step. intros H.
  repeat (apply andb_prop in H as [H ?]).
  repeat match goal with Hn : negb _ = true |- _ => apply negb_true_iff in Hn; rewrite Hn end.
  reflexivity.
Qed.

Lemma plain_split (s : string) : plain s = true -> JS.split "/" s = [s].
Proof.
  unfold plain. intros H. repeat (apply andb_prop in H as [H ?]). now apply split_no_slash.
Qed.

Lemma walk_plain_list (segs stack : list string) :
  Forall (fun s => plain s = true) segs ->
  fold_left Fs.walk_step segs stack = rev segs ++ stack.
Proof.
  revert stack. induction segs as [|s segs IH]; intros stack Hall; [reflexivity|].
  inversion Hall; subst. simpl. rewrite plain_walk by assumption.
  rewrite IH by assumption. now rewrite <- app_assoc.
Qed.

Lemma walk_kept_list (segs stack : list string) :
  Forall kept segs -> fold_left Fs.walk_step segs stack = rev segs ++ stack.
Proof.
  revert stack. induction segs as [|s segs IH]; intros stack Hall; [reflexivity|].
  inversion Hall as [|? ? [H1 [H2 H3]] Hrest]; subst. simpl.
  unfold Fs.walk_step at 2.
  apply String.eqb_neq in H1, H2, H3. rewrite H1, H2, H3.
  rewrite IH by assumption. now rewrite <- app_assoc.
Qed.

Lemma walk_dots (j : nat) : fold_left Fs.walk_step (replicate j "..") [] = [].
Proof. induction j; simpl; auto. Qed.

(** What [normalizeString] has kept and what the walk has reached agree
    after each segment: the same entries, below them only [..]. *)
Lemma norm_walk_step (allow : bool) (seg : string) (k : list string) (j : nat) :
  Forall kept k ->
  exists j', Path.norm_step allow (k ++ replicate j "..") seg
             = Fs.walk_step k seg ++ replicate j' ".."
             /\ Forall kept (Fs.walk_step k seg).
Proof.
  intros Hk. unfold Path.norm_step, Fs.walk_step.
  destruct (String.eqb seg "") eqn:E1; [exists j; auto|].
  destruct (String.eqb seg ".") eqn:E2; [exists j; auto|].
  destruct (String.eqb seg "..") eqn:E3.
  - destruct k as [|x k]; simpl.
    + destruct j as [|j]; simpl.
      * destruct allow; [exists 1%nat|exists 0%nat]; auto.
      * destruct allow; [exists (S (S j))|exists (S j)]; auto.
    + inversion Hk as [|? ? [_ [_ Hx]] Hk']; subst.
      apply String.eqb_neq in Hx. rewrite Hx. exists j; auto.
  - exists j. split; [reflexivity|]. constructor; [|assumption].
    apply String.eqb_neq in E1, E2, E3. now repeat split.
Qed.

Lemma norm_walk (allow : bool) (segs k : list string) (j : nat) :
  Forall kept k ->
  exists j', fold_left (Path.norm_step allow) segs (k ++ replicate j "..")
             = fold_left Fs.walk_step segs k ++ replicate j' ".."
             /\ Forall kept (fold_left Fs.walk_step segs k).
Proof.
  revert k j. induction segs as [|s segs IH]; intros k j Hk; simpl.
  - exists j; auto.
  - destruct (norm_walk_step allow s k j Hk) as (j1 & -> & Hk1).
    apply IH; assumption.
Qed.

End PathFacts.

Section JoinFacts.

Lemma norm_step_no_slash (allow : bool) (res : list string) (seg : string) :
  Forall (fun x => no_slash x = true) res -> no_slash seg = true ->
  Forall (fun x => no_slash x = true) (Path.norm_step allow res seg).
Proof.
  intros Hres Hseg. unfold Path.norm_step.
  repeat match goal with
         | |- context [if ?b then _ else _] => destruct b
         | |- context [match ?l with [] => _ | _ :: _ => _ end] => destruct l
         end; auto; try (inversion Hres; subst; auto); repeat constructor; auto.
Qed.

Lemma norm_no_slash (allow : bool) (segs res : list string) :
  Forall (fun x => no_slash x = true) res ->
  Forall (fun x => no_slash x = true) segs ->
  Forall (fun x => no_slash x = true) (fold_left (Path.norm_step allow) segs res).
Proof.
  revert res. induction segs as [|s segs IH]; intros res Hres Hsegs; simpl; [assumption|].
  inversion Hsegs; subst. apply IH; [apply norm_step_no_slash|]; assumption.
Qed.

Lemma concat_slash_empty (l : list string) :
  Forall (fun x => x <> "") l -> String.concat "/" l = "" -> l = [].
Proof.
  destruct l as [|x [|y l]]; simpl; intros Hall Hc; [reflexivity| |].
  - inversion Hall; subst; congruence.
  - inversion Hall; subst. destruct x; [congruence|discriminate].
Qed.

Lemma walk_skip_empty (segs stack : list string) :
  fold_left Fs.walk_step ("" :: segs) stack = fold_left Fs.walk_step segs stack.
Proof. reflexivity. Qed.

Lemma walk_app (l1 l2 stack : list string) :
  fold_left Fs.walk_step (l1 ++ l2) stack
  = fold_left Fs.walk_step l2 (fold_left Fs.walk_step l1 stack).
Proof. apply fold_left_app. Qed.

Lemma resolve_unfold (s : string) :
  Fs.resolve s = rev (fold_left Fs.walk_step (JS.split "/" s) []).
Proof. reflexivity. Qed.

(** [path.normalize] does not change what a path resolves to. *)
Lemma resolve_normalize (s : string) : Fs.resolve (Path.normalize s) = Fs.resolve s.
Proof.
  unfold Path.normalize.
  destruct (String.eqb s "") eqn:Es; [apply String.eqb_eq in Es; subst; reflexivity|].
  set (allow := negb (JS.startsWith_slash s)).
  unfold Path.normalizeString.
  destruct (norm_walk allow (JS.split "/" s) [] 0 (List.Forall_nil _)) as (j & Hn & Hk).
  simpl in Hn. rewrite Hn.
  set (K := fold_left Fs.walk_step (JS.split "/" s) []) in *.
  assert (HN : rev (K ++ replicate j "..") = replicate j ".." ++ rev K).
  { rewrite rev_app_distr. f_equal. clear. induction j; simpl; [reflexivity|].
    rewrite IHj. clear. induction j; simpl; [reflexivity|]. now rewrite <- IHj. }
  rewrite HN. set (N := replicate j ".." ++ rev K).
  assert (Hne : Forall (fun x => x <> "") N).
  { apply Forall_app. split.
    - clear. induction j; simpl; constructor; [discriminate|assumption].
    - apply Forall_rev. eapply Forall_impl; [exact Hk|]. intros x Hx. apply Hx. }
  assert (Hns : Forall (fun x => no_slash x = true) N).
  { subst N. rewrite <- HN, <- Hn. apply Forall_rev.
    apply norm_no_slash; [constructor|apply split_all_no_slash]. }
  assert (Hwalk : fold_left Fs.walk_step N [] = K).
  { subst N. rewrite walk_app, walk_dots, walk_kept_list by (apply Forall_rev; exact Hk).
    now rewrite rev_involutive, app_nil_r. }
  rewrite (resolve_unfold s). fold K.
  destruct (String.eqb (String.concat "/" N) "") eqn:Ep.
  - apply String.eqb_eq in Ep. apply concat_slash_empty in Ep; [|exact Hne].
    assert (K = []) as -> by (rewrite <- Hwalk, Ep; reflexivity).
    destruct (JS.startsWith_slash s); [reflexivity|].
    destruct (JS.endsWith_slash s); reflexivity.
  - assert (N <> []) by (intros HN0; rewrite HN0 in Ep; discriminate).
    assert (Hp : JS.split "/" (String.concat "/" N) = N) by (apply split_concat; assumption).
    assert (Hq : JS.split "/" (String.concat "/" N +:+ "/") = N ++ [""]).
    { change "/" with (String "/" "") at 2. rewrite split_app, Hp. reflexivity. }
    destruct (JS.startsWith_slash s), (JS.endsWith_slash s); rewrite resolve_unfold.
    + change ("/" +:+ ?x) with ("" +:+ String "/" x). rewrite split_app, Hq. simpl JS.split.
      rewrite walk_app. change (fold_left Fs.walk_step [""] []) with (@nil string).
      rewrite walk_app, Hwalk. reflexivity.
    + change ("/" +:+ ?x) with ("" +:+ String "/" x). rewrite split_app, Hp. simpl JS.split.
      rewrite walk_app. change (fold_left Fs.walk_step [""] []) with (@nil string).
      rewrite Hwalk. reflexivity.
    + rewrite Hq, walk_app, Hwalk. reflexivity.
    + rewrite Hp, Hwalk. reflexivity.
Qed.

Lemma split_concat_parts (parts : list string) :
  parts <> [] ->
  JS.split "/" (String.concat "/" parts) = flat_map (JS.split "/") parts.
Proof.
  induction parts as [|x parts IH]; [congruence|]. intros _.
  destruct parts as [|y parts].
  - simpl. now rewrite app_nil_r.
  - change (String.concat "/" (x :: y :: parts))
      with (x +:+ String "/" (String.concat "/" (y :: parts))).
    rewrite split_app, IH by discriminate. reflexivity.
Qed.

Lemma walk_filter_Boolean (l stack : list string) :
  fold_left Fs.walk_step (flat_map (JS.split "/") (List.filter JS.Boolean l)) stack
  = fold_left Fs.walk_step (flat_map (JS.split "/") l) stack.
Proof.
  revert stack. induction l as [|x l IH]; intros stack; [reflexivity|].
  simpl. unfold JS.Boolean at 1. destruct (String.eqb x "") eqn:Ex; simpl.
  - apply String.eqb_eq in Ex. subst. simpl. apply IH.
  - rewrite !walk_app. apply IH.
Qed.

(** The path [path.join] builds resolves to what walking the segments of
    its arguments, one after the other, reaches. *)
Lemma resolve_join (l : list string) :
  Fs.resolve (Path.join l) = rev (fold_left Fs.walk_step (flat_map (JS.split "/") l) []).
Proof.
  unfold Path.join. rewrite <- walk_filter_Boolean.
  destruct (List.filter JS.Boolean l) as [|p parts] eqn:E; [reflexivity|].
  rewrite resolve_normalize, resolve_unfold, split_concat_parts by discriminate.
  reflexivity.
Qed.

Lemma resolve_join_plain (folder : string) (segs : list string) :
  Forall (fun s => plain s = true) segs ->
  Fs.resolve (Path.join (folder :: segs)) = Fs.resolve folder ++ segs.
Proof.
  intros Hall. rewrite resolve_join. simpl flat_map. rewrite walk_app.
  assert (flat_map (JS.split "/") segs = segs) as ->.
  { induction Hall as [|s segs Hs _ IH]; [reflexivity|]. simpl. now rewrite plain_split, IH. }
  rewrite walk_plain_list by assumption.
  rewrite rev_app_distr, rev_involutive. reflexivity.
Qed.

Lemma resolve_join_one (p : string) : Fs.resolve (Path.join [p]) = Fs.resolve p.
Proof. rewrite resolve_join. simpl. now rewrite app_nil_r. Qed.

Lemma resolve_slash_plain (folder seg : string) :
  plain seg = true ->
  Fs.resolve (folder +:+ "/" +:+ seg) = Fs.resolve folder ++ [seg].
Proof.
  intros Hs. rewrite !resolve_unfold.
  change (folder +:+ "/" +:+ seg) with (folder +:+ String "/" seg).
  rewrite split_app, walk_app, plain_split by assumption. simpl.
  now rewrite plain_walk.
Qed.

End JoinFacts.

(** ** The file system *)

Section FsFacts.

Implicit Types (fs : gmap (list string) node) (p q r : list string).

Lemma strip_prefix_app p t : Fs.strip_prefix p (p ++ t) = Some t.
Proof. induction p as [|a p IH]; simpl; [reflexivity|]. now rewrite String.eqb_refl. Qed.

Lemma strip_prefix_Some p q t : Fs.strip_prefix p q = Some t -> q = p ++ t.
Proof.
  revert q. induction p as [|a p IH]; intros q; simpl; [congruence|].
  destruct q as [|b q]; [discriminate|].
  destruct (String.eqb a b) eqn:E; [|discriminate].
  apply String.eqb_eq in E. subst. intros H%IH. now subst.
Qed.

Lemma child_of_Some p q x : Fs.child_of p q = Some x <-> q = p ++ [x].
Proof.
  unfold Fs.child_of. split.
  - destruct (Fs.strip_prefix p q) as [[|y [|z t]]|] eqn:E; try discriminate.
    intros [= <-]. now apply strip_prefix_Some.
  - intros ->. now rewrite strip_prefix_app.
Qed.

Lemma under_true p q : Fs.under p q = true <-> exists x t, q = p ++ x :: t.
Proof.
  unfold Fs.under. split.
  - destruct (Fs.strip_prefix p q) as [[|y t]|] eqn:E; try discriminate.
    intros _. exists y, t. now apply strip_prefix_Some.
  - intros (x & t & ->). now rewrite strip_prefix_app.
Qed.

Lemma under_child p x : Fs.under p (p ++ [x]) = true.
Proof. apply under_true. now exists x, []. Qed.

Lemma elem_of_children fs p x : x ∈ Fs.children fs p <-> is_Some (fs !! (p ++ [x])).
Proof.
  unfold Fs.children. rewrite list_elem_of_omap. split.
  - intros ([q n] & Hin & Hc). apply elem_of_map_to_list in Hin.
    apply child_of_Some in Hc. simpl in Hc. subst. eauto.
  - intros [n Hn]. exists (p ++ [x], n). split; [now apply elem_of_map_to_list|].
    now apply child_of_Some.
Qed.

Lemma children_nil fs p : Fs.children fs p = [] <-> forall x, fs !! (p ++ [x]) = None.
Proof.
  split.
  - intros He x. destruct (fs !! (p ++ [x])) eqn:E; [|reflexivity].
    assert (x ∈ Fs.children fs p) as Hx by (apply elem_of_children; eauto).
    rewrite He in Hx. inversion Hx.
  - intros Hall. destruct (Fs.children fs p) as [|x l] eqn:E; [reflexivity|].
    assert (x ∈ Fs.children fs p) as Hx by (rewrite E; left).
    apply elem_of_children in Hx as [n Hn]. rewrite Hall in Hn. discriminate.
Qed.

Lemma lookup_nonroot fs r : r <> [] -> Fs.lookup fs r = fs !! r.
Proof. destruct r; [congruence|reflexivity]. Qed.

Lemma lookup_same fs fs' r : (r <> [] -> fs' !! r = fs !! r) -> Fs.lookup fs' r = Fs.lookup fs r.
Proof. destruct r; [reflexivity|]. intros H. apply H. discriminate. Qed.

Lemma lookup_File_nonroot fs r data : Fs.lookup fs r = Some (File data) -> r <> [] /\ fs !! r = Some (File data).
Proof. destruct r; [discriminate|]. intros H. split; [discriminate|exact H]. Qed.

(** *** Folder usage under updates *)

Lemma count_entry_comm dirsz p q1 q2 n1 n2 acc :
  count_entry dirsz p q1 n1 (count_entry dirsz p q2 n2 acc)
  = count_entry dirsz p q2 n2 (count_entry dirsz p q1 n1 acc).
Proof. unfold count_entry. destruct (Fs.under p q1), (Fs.under p q2); lia. Qed.

Lemma usage_below_fold dirsz fs p :
  Fs.usage_below dirsz fs p = map_fold (count_entry dirsz p) 0 fs.
Proof. reflexivity. Qed.

Lemma usage_below_delete dirsz fs p r :
  Fs.usage_below dirsz (delete r fs) p
  = Fs.usage_below dirsz fs p - (if Fs.under p r then size_at dirsz fs r else 0).
Proof.
  rewrite !usage_below_fold. unfold size_at.
  destruct (fs !! r) as [n|] eqn:E.
  - rewrite (map_fold_delete_L (count_entry dirsz p) 0 r n fs); [|intros; apply count_entry_comm|exact E].
    unfold count_entry at 2. destruct (Fs.under p r); lia.
  - rewrite delete_id by exact E. destruct (Fs.under p r); lia.
Qed.

Lemma usage_below_insert dirsz fs p r n :
  Fs.usage_below dirsz (<[r := n]> fs) p
  = Fs.usage_below dirsz fs p
    + (if Fs.under p r then Fs.node_size dirsz n - size_at dirsz fs r else 0).
Proof.
  rewrite <- (insert_delete_eq fs r n).
  rewrite (usage_below_fold _ (<[r:=n]> (delete r fs))).
  rewrite (map_fold_insert_L (count_entry dirsz p) 0 r n (delete r fs));
    [|intros; apply count_entry_comm|apply lookup_delete_eq].
  rewrite <- usage_below_fold, usage_below_delete.
  unfold count_entry. destruct (Fs.under p r); lia.
Qed.

End FsFacts.

(** ** What each call does *)

Ltac run_monad :=
  unfold mbind, M_bind, mret, M_ret, throw, issue, get_fs, put_fs, get_fds, put_fds,
    get_world, try_catch.

Section Calls.

Implicit Types (w : world) (p : string).

Lemma bind_run {A B} (m : M A) (f : A -> M B) w :
  (m ≫= f) w = match m w with
               | (Ok a, w') => f a w'
               | (Throw e, w') => (Throw e, w')
               end.
Proof. reflexivity. Qed.

Lemma bind_ok_inv {A B} (m : M A) (f : A -> M B) w b w2 :
  (m ≫= f) w = (Ok b, w2) -> exists a w1, m w = (Ok a, w1) /\ f a w1 = (Ok b, w2).
Proof.
  rewrite bind_run. destruct (m w) as [[a|e] w1]; [|discriminate]. eauto.
Qed.

Lemma fs_exists_run p w :
  fs_exists p w
  = (Ok (match Fs.lookup (w_fs w) (Fs.resolve p) with Some _ => true | None => false end),
     add_log (EvAccess p) w).
Proof.
  unfold fs_exists, access. run_monad. simpl.
  destruct (Fs.lookup (w_fs w) (Fs.resolve p)); reflexivity.
Qed.

Lemma stat_run p w :
  stat p w
  = (match Fs.lookup (w_fs w) (Fs.resolve p) with
     | Some n => Ok {| st_size := Fs.node_size (w_dirsz w) n;
                       st_isDirectory := match n with Dir => true | File _ => false end |}
     | None => Throw ENOENT
     end, add_log (EvStat p) w).
Proof.
  unfold stat. run_monad. simpl.
  destruct (Fs.lookup (w_fs w) (Fs.resolve p)) as [[data|]|]; reflexivity.
Qed.

Lemma du_sb_run p w :
  du_sb p w
  = (match Fs.usage (w_dirsz w) (w_fs w) (Fs.resolve p) with
     | Some n => Ok n
     | None => Throw ExecError
     end, add_log (EvDu p) w).
Proof.
  unfold du_sb. run_monad. simpl.
  destruct (Fs.usage (w_dirsz w) (w_fs w) (Fs.resolve p)); reflexivity.
Qed.

Lemma truncate_run p len w :
  truncate p len w
  = match Fs.lookup (w_fs w) (Fs.resolve p) with
    | Some (File data) =>
        (Ok tt, set_fs (<[Fs.resolve p := File (resize (Z.to_nat (Z.max 0 len)) Byte.x00 data)]> (w_fs w))
                  (add_log (EvTruncate p len) w))
    | Some Dir => (Throw EISDIR, add_log (EvTruncate p len) w)
    | None => (Throw ENOENT, add_log (EvTruncate p len) w)
    end.
Proof.
  unfold truncate. run_monad. simpl.
  destruct (Fs.lookup (w_fs w) (Fs.resolve p)) as [[data|]|]; reflexivity.
Qed.

Lemma writeFile_run p data w :
  writeFile p data w
  = match Fs.lookup (w_fs w) (Fs.resolve p) with
    | Some Dir => (Throw EISDIR, add_log (EvWriteFile p) w)
    | Some (File _) =>
        (Ok tt, set_fs (<[Fs.resolve p := File data]> (w_fs w)) (add_log (EvWriteFile p) w))
    | None =>
        match Fs.lookup (w_fs w) (removelast (Fs.resolve p)) with
        | Some Dir =>
            (Ok tt, set_fs (<[Fs.resolve p := File data]> (w_fs w)) (add_log (EvWriteFile p) w))
        | Some (File _) => (Throw ENOTDIR, add_log (EvWriteFile p) w)
        | None => (Throw ENOENT, add_log (EvWriteFile p) w)
        end
    end.
Proof.
  unfold writeFile. run_monad. simpl.
  destruct (Fs.lookup (w_fs w) (Fs.resolve p)) as [[?|]|]; try reflexivity.
  destruct (Fs.lookup (w_fs w) (removelast (Fs.resolve p))) as [[?|]|]; reflexivity.
Qed.

Lemma unlink_run p w :
  unlink p w
  = match Fs.lookup (w_fs w) (Fs.resolve p) with
    | Some (File _) => (Ok tt, set_fs (delete (Fs.resolve p) (w_fs w)) (add_log (EvUnlink p) w))
    | Some Dir => (Throw EISDIR, add_log (EvUnlink p) w)
    | None => (Throw (Fs.obstacle (w_fs w) [] (Fs.resolve p)), add_log (EvUnlink p) w)
    end.
Proof.
  unfold unlink. run_monad. simpl.
  destruct (Fs.lookup (w_fs w) (Fs.resolve p)) as [[?|]|]; reflexivity.
Qed.

Lemma readdir_run p w :
  readdir p w
  = (match Fs.lookup (w_fs w) (Fs.resolve p) with
     | Some Dir => Ok (Fs.children (w_fs w) (Fs.resolve p))
     | Some (File _) => Throw ENOTDIR
     | None => Throw ENOENT
     end, add_log (EvReaddir p) w).
Proof.
  unfold readdir. run_monad. simpl.
  destruct (Fs.lookup (w_fs w) (Fs.resolve p)) as [[?|]|]; reflexivity.
Qed.

Lemma rmdir_empty_run p w :
  Fs.resolve p <> [] ->
  w_fs w !! Fs.resolve p = Some Dir ->
  Fs.children (w_fs w) (Fs.resolve p) = [] ->
  rmdir p w = (Ok tt, set_fs (delete (Fs.resolve p) (w_fs w)) (add_log (EvRmdir p) w)).
Proof.
  intros Hne Hd Hc. unfold rmdir. run_monad. simpl.
  destruct (Fs.resolve p) as [|s l] eqn:E; [congruence|].
  simpl. rewrite Hd, Hc. reflexivity.
Qed.

Lemma fh_close_run fd w r :
  w_fds w !! fd = Some r ->
  fh_close fd w = (Ok tt, set_fds (delete fd (w_fds w)) (add_log (EvClose fd) w)).
Proof. intros H. unfold fh_close. run_monad. simpl. now rewrite H. Qed.

(** Open or not, the handle is not in the table afterwards. *)
Lemma fh_close_any fd w :
  fh_close fd w = (Ok tt, set_fds (delete fd (w_fds w)) (add_log (EvClose fd) w)).
Proof.
  destruct (w_fds w !! fd) as [r|] eqn:E; [exact (fh_close_run fd w r E)|].
  unfold fh_close. run_monad. simpl. rewrite E. unfold mret, M_ret.
  unfold set_fds, add_log. cbn [w_fs w_fds w_block w_dirsz w_uuid w_next w_log].
  now rewrite delete_id.
Qed.

End Calls.

Ltac mstep := rewrite ?bind_run; unfold mret, M_ret; cbv beta iota.

(** Bounds on the byte counts of a scenario, by evaluation. *)
Ltac safe_bytes_holds :=
  unfold safe_bytes, safe_integer; repeat split; vm_compute; discriminate.

Ltac safe_integers_hold :=
  repeat (apply List.Forall_cons; [unfold safe_integer; split; vm_compute; discriminate|]);
  apply List.Forall_nil.

(** ** The sentinel file *)

Section Sentinel.

Variables (path : string) (size b : Z).
Let d := DiskIO.instance path size b.
Let root := Fs.resolve path.
Let sentinel := Fs.resolve path ++ [DiskIO.RESERVED_FILE].

Lemma resolve_folder : Fs.resolve (DiskIO.path_folder d) = root.
Proof. apply resolve_join_one. Qed.

Lemma resolve_diskio : Fs.resolve (DiskIO.path_diskio d) = sentinel.
Proof.
  unfold d, DiskIO.instance, sentinel. simpl DiskIO.path_diskio.
  rewrite resolve_slash_plain by reflexivity. now rewrite resolve_join_one.
Qed.

Lemma sentinel_not_root : sentinel <> root.
Proof.
  unfold sentinel, root. intros H. apply (f_equal (@length string)) in H.
  rewrite length_app in H. simpl in H. lia.
Qed.

Lemma sentinel_nonroot : sentinel <> [].
Proof. unfold sentinel. destruct (Fs.resolve path); discriminate. Qed.

Lemma sentinel_parent : removelast sentinel = root.
Proof. unfold sentinel. apply removelast_last. Qed.

Lemma sentinel_under : Fs.under root sentinel = true.
Proof. apply under_child. Qed.

Lemma lookup_root_insert fs n :
  Fs.lookup (<[sentinel := n]> fs) root = Fs.lookup fs root.
Proof.
  unfold Fs.lookup. destruct root eqn:E; [reflexivity|].
  rewrite <- E. apply lookup_insert_ne, sentinel_not_root.
Qed.

(** Folder usage after the sentinel has been given new content. *)
Lemma usage_insert_sentinel dirsz fs n m :
  Fs.usage dirsz fs root = Some m ->
  Fs.usage dirsz (<[sentinel := n]> fs) root
  = Some (m + Fs.node_size dirsz n - size_at dirsz fs sentinel).
Proof.
  unfold Fs.usage. rewrite lookup_root_insert.
  destruct (Fs.lookup fs root) as [x|]; [|discriminate]. intros [= <-].
  rewrite usage_below_insert, sentinel_under. f_equal. lia.
Qed.

(** [stabilize] when the sentinel is there. *)
Lemma stabilize_present expected w data m :
  w_fs w !! sentinel = Some (File data) ->
  Fs.usage (w_dirsz w) (w_fs w) root = Some m ->
  exists w',
    DiskIO.stabilize d expected w = (Ok tt, w')
    /\ w_fs w' = <[sentinel := File (resize (Z.to_nat (Z.max 0 (expected - m + Z.of_nat (length data))))
                                          Byte.x00 data)]> (w_fs w)
    /\ w_fds w' = w_fds w /\ w_dirsz w' = w_dirsz w /\ w_block w' = w_block w
    /\ w_log w' = w_log w ++ [EvAccess (DiskIO.path_diskio d); EvStat (DiskIO.path_diskio d);
                              EvDu (DiskIO.path_folder d);
                              EvTruncate (DiskIO.path_diskio d) (expected - m + Z.of_nat (length data))].
Proof.
  intros Hs Hu. unfold DiskIO.stabilize, DiskIO.size_diskio, DiskIO.size_folder.
  mstep. rewrite fs_exists_run, resolve_diskio, lookup_nonroot, Hs by apply sentinel_nonroot.
  cbn [negb]. mstep.
  rewrite stat_run, resolve_diskio. cbn [w_fs add_log].
  rewrite lookup_nonroot, Hs by apply sentinel_nonroot. mstep.
  rewrite du_sb_run, resolve_folder. cbn [w_fs w_dirsz add_log].
  rewrite Hu. mstep. cbn [st_size Fs.node_size].
  rewrite truncate_run, resolve_diskio. cbn [w_fs add_log].
  rewrite lookup_nonroot, Hs by apply sentinel_nonroot.
  eexists. split; [reflexivity|]. simpl. rewrite <- !app_assoc. auto.
Qed.

(** [stabilize] when the sentinel is missing: it is created empty first. *)
Lemma stabilize_absent expected w m :
  w_fs w !! sentinel = None ->
  Fs.lookup (w_fs w) root = Some Dir ->
  Fs.usage (w_dirsz w) (w_fs w) root = Some m ->
  exists w',
    DiskIO.stabilize d expected w = (Ok tt, w')
    /\ w_fs w' = <[sentinel := File (resize (Z.to_nat (Z.max 0 (expected - m + 0))) Byte.x00 [])]> (w_fs w)
    /\ w_fds w' = w_fds w /\ w_dirsz w' = w_dirsz w /\ w_block w' = w_block w.
Proof.
  intros Hs Hr Hu. unfold DiskIO.stabilize, DiskIO.size_diskio, DiskIO.size_folder.
  mstep. rewrite fs_exists_run, resolve_diskio, lookup_nonroot, Hs by apply sentinel_nonroot.
  cbn [negb]. mstep.
  rewrite writeFile_run, resolve_diskio. cbn [w_fs add_log].
  rewrite lookup_nonroot, Hs, sentinel_parent, Hr by apply sentinel_nonroot. mstep.
  rewrite stat_run, resolve_diskio. cbn [w_fs set_fs add_log].
  rewrite lookup_nonroot, lookup_insert_eq by apply sentinel_nonroot. mstep.
  rewrite du_sb_run, resolve_folder. cbn [w_fs w_dirsz set_fs add_log].
  rewrite (usage_insert_sentinel _ _ _ m Hu). unfold size_at. rewrite Hs.
  mstep. cbn [st_size Fs.node_size length].
  rewrite truncate_run, resolve_diskio. cbn [w_fs set_fs add_log].
  rewrite lookup_nonroot, lookup_insert_eq by apply sentinel_nonroot.
  eexists. split; [reflexivity|]. simpl. rewrite insert_insert_eq.
  repeat split. do 3 f_equal. lia.
Qed.

End Sentinel.

(** ** C3: stabilization *)

(** C3, as stated, fails: with a capacity of 100 bytes and a folder that
    already uses 4106, the difference is negative, and [stabilize] returns
    without an error, the sentinel left at zero length. *)
Lemma stabilize_negative_difference_returns :
  fst (DiskIO.size_folder (DiskIO.instance "/data" 100 4096) world_over) = Ok 4106
  /\ 100 - 4106 + 0 < 0
  /\ fst (DiskIO.stabilize (DiskIO.instance "/data" 100 4096) 100 world_over) = Ok tt
  /\ w_fs (snd (DiskIO.stabilize (DiskIO.instance "/data" 100 4096) 100 world_over))
       !! ["data"; "diskio.dat"] = Some (File []).
Proof. repeat split; vm_compute; reflexivity. Qed.

(** C3, amended: [stabilize(expected)] computes
    [difference = expected - folderUsage + sentinelSize] and resizes the
    sentinel to [max 0 difference] bytes, creating it empty first when it
    is missing; nothing else in the folder changes, and a negative
    difference raises no error.  The folder path is one the unquoted
    command line of [du] takes as a single word, and the byte counts are
    safe integers. *)
Theorem stabilize_resizes_sentinel (path : string) (size b expected : Z) (w : world) :
  let d := DiskIO.instance path size b in
  let root := Fs.resolve path in
  let sentinel := root ++ [DiskIO.RESERVED_FILE] in
  let old := match w_fs w !! sentinel with Some (File data) => data | _ => [] end in
  let folder := w_dirsz w + Fs.usage_below (w_dirsz w) (w_fs w) root in
  let difference := expected - folder + Z.of_nat (length old) in
  shell_word (DiskIO.path_folder d) = true ->
  safe_bytes expected w root ->
  Fs.lookup (w_fs w) root = Some Dir ->
  w_fs w !! sentinel <> Some Dir ->
  fst (DiskIO.size_folder d w) = Ok folder
  /\ exists w',
      DiskIO.stabilize d expected w = (Ok tt, w')
      /\ w_fs w' = <[sentinel := File (resize (Z.to_nat (Z.max 0 difference)) Byte.x00 old)]> (w_fs w).
Proof.
  intros d root sentinel old folder difference _ _ Hroot Hs.
  assert (Hu : Fs.usage (w_dirsz w) (w_fs w) root = Some folder).
  { unfold Fs.usage. now rewrite Hroot. }
  split.
  { unfold DiskIO.size_folder, d. rewrite du_sb_run, resolve_folder. fold root. now rewrite Hu. }
  subst old difference. destruct (w_fs w !! sentinel) as [[data|]|] eqn:E; [| congruence |].
  - destruct (stabilize_present path size b expected w data folder E Hu) as (w' & H1 & H2 & _).
    eauto.
  - destruct (stabilize_absent path size b expected w folder E Hroot Hu) as (w' & H1 & H2 & _).
    eauto.
Qed.

Lemma stabilize_resizes_sentinel_witness :
  shell_word (DiskIO.path_folder (DiskIO.instance "/data" 100 4096)) = true
  /\ safe_bytes 100 world_over (Fs.resolve "/data")
  /\ Fs.lookup (w_fs world_over) (Fs.resolve "/data") = Some Dir
  /\ w_fs world_over !! (Fs.resolve "/data" ++ [DiskIO.RESERVED_FILE]) <> Some Dir
  /\ fst (DiskIO.stabilize (DiskIO.instance "/data" 100 4096) 100 world_over) = Ok tt.
Proof.
  assert (H0 : shell_word (DiskIO.path_folder (DiskIO.instance "/data" 100 4096)) = true)
    by reflexivity.
  assert (Hb : safe_bytes 100 world_over (Fs.resolve "/data")) by safe_bytes_holds.
  assert (H1 : Fs.lookup (w_fs world_over) (Fs.resolve "/data") = Some Dir) by reflexivity.
  assert (H2 : w_fs world_over !! (Fs.resolve "/data" ++ [DiskIO.RESERVED_FILE]) <> Some Dir)
    by (vm_compute; discriminate).
  refine (conj H0 (conj Hb (conj H1 (conj H2 _)))).
  destruct (stabilize_resizes_sentinel "/data" 100 4096 100 world_over H0 Hb H1 H2)
    as (_ & w' & Heq & _).
  rewrite Heq. reflexivity.
Defined.

(** ** C4: the reservation report *)

(** One run of [information.diskio]: two measurements, no change. *)
Lemma information_diskio_run (d : DiskIO.t) (w : world) (sentinel_data : list Byte.byte) (folder : Z) :
  Fs.lookup (w_fs w) (Fs.resolve (DiskIO.path_diskio d)) = Some (File sentinel_data) ->
  Fs.usage (w_dirsz w) (w_fs w) (Fs.resolve (DiskIO.path_folder d)) = Some folder ->
  DiskIO.information_diskio d w
  = (Ok {| rp_size := DiskIO.RESERVED_SIZE d - DiskIO.optimal d;
           rp_used := folder - Z.of_nat (length sentinel_data);
           rp_available := Z.of_nat (length sentinel_data);
           rp_capacity :=
             Math_round (PrimFloat.sub 100
               (PrimFloat.mul
                  (PrimFloat.div (Number (folder - Z.of_nat (length sentinel_data)))
                     (Number (DiskIO.RESERVED_SIZE d - DiskIO.optimal d))) 100)) |},
     add_log (EvDu (DiskIO.path_folder d)) (add_log (EvStat (DiskIO.path_diskio d)) w)).
Proof.
  intros Hs Hu.
  unfold DiskIO.information_diskio, DiskIO.size_diskio, DiskIO.size_folder.
  mstep. rewrite stat_run, Hs. mstep. rewrite du_sb_run. cbn [w_fs w_dirsz add_log].
  rewrite Hu. mstep. cbn [st_size Fs.node_size]. reflexivity.
Qed.

(** C4: every call of [information.diskio] reads the sentinel size and the
    folder usage of the moment and returns
    [size = RESERVED_SIZE - optimal], [available] the sentinel size,
    [used = folder - available] and
    [capacity = Math.round(100 - (used / size) * 100)]; the file system is
    left as it is.  With a capacity of 1048576 and a block of 4096,
    [size] is 1044480.  The folder path is one the unquoted command line
    of [du] takes as a single word, and the numbers of the report are
    safe integers. *)
Theorem reservation_report (d : DiskIO.t) (w : world) (sentinel_data : list Byte.byte) (folder : Z) :
  shell_word (DiskIO.path_folder d) = true ->
  Forall safe_integer [DiskIO.RESERVED_SIZE d; DiskIO.optimal d;
                       DiskIO.RESERVED_SIZE d - DiskIO.optimal d;
                       folder; folder - Z.of_nat (length sentinel_data)] ->
  Fs.lookup (w_fs w) (Fs.resolve (DiskIO.path_diskio d)) = Some (File sentinel_data) ->
  Fs.usage (w_dirsz w) (w_fs w) (Fs.resolve (DiskIO.path_folder d)) = Some folder ->
  let size := DiskIO.RESERVED_SIZE d - DiskIO.optimal d in
  let available := Z.of_nat (length sentinel_data) in
  let used := folder - available in
  let capacity :=
    Math_round (PrimFloat.sub 100 (PrimFloat.mul (PrimFloat.div (Number used) (Number size)) 100)) in
  exists w',
    DiskIO.information_diskio d w
    = (Ok {| rp_size := size; rp_used := used; rp_available := available; rp_capacity := capacity |}, w')
    /\ w_fs w' = w_fs w
    /\ (DiskIO.RESERVED_SIZE d = 1048576 -> DiskIO.optimal d = 4096 -> size = 1044480).
Proof.
  intros _ _ Hs Hu size available used capacity.
  rewrite (information_diskio_run d w sentinel_data folder Hs Hu).
  eexists. split; [reflexivity|]. split; [reflexivity|]. subst size. lia.
Qed.

Lemma reservation_report_witness :
  shell_word (DiskIO.path_folder (DiskIO.instance "/data" 1048576 4096)) = true
  /\ Fs.lookup (w_fs world_file) (Fs.resolve (DiskIO.path_diskio (DiskIO.instance "/data" 1048576 4096)))
  = Some (File (replicate 100 Byte.x00))
  /\ Fs.usage (w_dirsz world_file) (w_fs world_file)
       (Fs.resolve (DiskIO.path_folder (DiskIO.instance "/data" 1048576 4096))) = Some 4216
  /\ rp_size <$> (match fst (DiskIO.information_diskio (DiskIO.instance "/data" 1048576 4096) world_file) with
                  | Ok r => Some r
                  | Throw _ => None
                  end) = Some 1044480.
Proof.
  assert (H1 : Fs.lookup (w_fs world_file)
                 (Fs.resolve (DiskIO.path_diskio (DiskIO.instance "/data" 1048576 4096)))
               = Some (File (replicate 100 Byte.x00))) by (vm_compute; reflexivity).
  assert (H2 : Fs.usage (w_dirsz world_file) (w_fs world_file)
                 (Fs.resolve (DiskIO.path_folder (DiskIO.instance "/data" 1048576 4096)))
               = Some 4216) by (vm_compute; reflexivity).
  assert (H0 : shell_word (DiskIO.path_folder (DiskIO.instance "/data" 1048576 4096)) = true)
    by reflexivity.
  refine (conj H0 (conj H1 (conj H2 _))).
  assert (Hb : Forall safe_integer [1048576; 4096; 1048576 - 4096; 4216;
                                    4216 - Z.of_nat (length (replicate 100 Byte.x00))])
    by safe_integers_hold.
  destruct (reservation_report (DiskIO.instance "/data" 1048576 4096) world_file
              (replicate 100 Byte.x00) 4216 H0 Hb H1 H2)
    as (w' & Heq & _).
  rewrite Heq. reflexivity.
Defined.

(** ** C10: writing an empty buffer *)

(** C10: [write] with an empty buffer passes the admission check whatever
    the sentinel holds, issues no chunk write (the only calls are the
    [stat] and the [truncate] of [allocate]), and leaves every file,
    the sentinel included, as it was. *)
Theorem write_empty_buffer (d : DiskIO.t) (fh : FileHandle) (position : Z) (w : world)
    (sentinel_data : list Byte.byte) :
  Fs.lookup (w_fs w) (Fs.resolve (DiskIO.path_diskio d)) = Some (File sentinel_data) ->
  exists w',
    DiskIO.write d fh [] position w = (Ok tt, w')
    /\ w_fs w' = w_fs w
    /\ w_fds w' = w_fds w
    /\ w_log w' = w_log w ++ [EvStat (DiskIO.path_diskio d);
                              EvTruncate (DiskIO.path_diskio d) (Z.of_nat (length sentinel_data))].
Proof.
  intros Hs. destruct (lookup_File_nonroot _ _ _ Hs) as [Hne Hs'].
  unfold DiskIO.write, DiskIO.allocate, DiskIO.size_diskio.
  mstep. rewrite stat_run, Hs. mstep. cbn [st_size Fs.node_size length].
  change (Z.of_nat 0) with 0. rewrite Z.sub_0_r.
  assert ((0 >? Z.of_nat (length sentinel_data)) = false) as ->
    by (rewrite Z.gtb_ltb; apply Z.ltb_ge; lia).
  rewrite truncate_run. cbn [w_fs add_log]. rewrite Hs.
  assert (Hloop : forall (body : Z -> unit -> M unit) w0,
             while_index_lt (Math_ceil_div 0 (DiskIO.optimal d)) body tt w0 = (Ok tt, w0)).
  { intros body w0. unfold Math_ceil_div. destruct (DiskIO.optimal d); reflexivity. }
  rewrite Hloop. eexists. split; [reflexivity|]. cbn [w_fs w_fds w_log set_fs add_log].
  replace (Z.to_nat (Z.max 0 (Z.of_nat (length sentinel_data)))) with (length sentinel_data) by lia.
  rewrite resize_all, insert_id by exact Hs'.
  rewrite <- app_assoc. auto.
Qed.

Lemma write_empty_buffer_witness :
  Fs.lookup (w_fs world_file) (Fs.resolve (DiskIO.path_diskio (DiskIO.instance "/data" 65536 4096)))
  = Some (File (replicate 100 Byte.x00))
  /\ fst (DiskIO.write (DiskIO.instance "/data" 65536 4096) 7%nat [] 5 world_file) = Ok tt.
Proof.
  assert (H1 : Fs.lookup (w_fs world_file)
                 (Fs.resolve (DiskIO.path_diskio (DiskIO.instance "/data" 65536 4096)))
               = Some (File (replicate 100 Byte.x00))) by (vm_compute; reflexivity).
  refine (conj H1 _).
  destruct (write_empty_buffer (DiskIO.instance "/data" 65536 4096) 7%nat 5 world_file _ H1)
    as (w' & Heq & _).
  rewrite Heq. reflexivity.
Defined.

(** ** Admission, and chunks from position 0 *)

Section Chunks.

Lemma gtb_false (x y : Z) : x <= y -> (x >? y) = false.
Proof. intros H. rewrite Z.gtb_ltb. apply Z.ltb_ge. lia. Qed.

Lemma gtb_true (x y : Z) : x > y -> (x >? y) = true.
Proof. intros H. rewrite Z.gtb_ltb. apply Z.ltb_lt. lia. Qed.

(** [allocate] implements the admission rule. *)
Lemma allocate_admission (d : DiskIO.t) (size : Z) (w : world) (sentinel_data : list Byte.byte) :
  Fs.lookup (w_fs w) (Fs.resolve (DiskIO.path_diskio d)) = Some (File sentinel_data) ->
  let remaining := Z.of_nat (length sentinel_data) in
  (size > remaining ->
   DiskIO.allocate d size w
   = (Throw InsufficientSpaceError, add_log (EvStat (DiskIO.path_diskio d)) w))
  /\ (size <= remaining ->
      DiskIO.allocate d size w
      = (Ok tt, set_fs (<[Fs.resolve (DiskIO.path_diskio d) :=
                            File (resize (Z.to_nat (Z.max 0 (remaining - size))) Byte.x00
                                    sentinel_data)]> (w_fs w))
                  (add_log (EvTruncate (DiskIO.path_diskio d) (remaining - size))
                     (add_log (EvStat (DiskIO.path_diskio d)) w)))).
Proof.
  intros Hs remaining. unfold DiskIO.allocate, DiskIO.size_diskio.
  split; intros Hsize; mstep; rewrite stat_run, Hs; mstep; cbn [st_size Fs.node_size].
  - fold remaining. now rewrite gtb_true.
  - fold remaining. rewrite gtb_false by exact Hsize.
    rewrite truncate_run. cbn [w_fs add_log]. now rewrite Hs.
Qed.

Lemma ceil_div_bounds (len b : Z) :
  0 < b -> (- ((- len) / b) - 1) * b < len <= - ((- len) / b) * b.
Proof.
  intros Hb. pose proof (Z.div_mod (- len) b ltac:(lia)) as H.
  pose proof (Z.mod_pos_bound (- len) b Hb) as H'. nia.
Qed.

Lemma pwrite_extend (data old : list Byte.byte) (k c : nat) :
  (0 < c)%nat -> (k + c <= length data)%nat ->
  Fs.pwrite (take k data ++ drop k old) k (take c (drop k data))
  = take (k + c) data ++ drop (k + c) old.
Proof.
  intros Hc Hk. unfold Fs.pwrite.
  assert (Hlen : length (take c (drop k data)) = c) by (rewrite length_take, length_drop; lia).
  destruct (take c (drop k data)) as [|x chunk] eqn:E; [simpl in Hlen; lia|].
  rewrite <- E in *. rewrite Hlen.
  assert (Htk : length (take k data) = k) by (rewrite length_take; lia).
  replace (k - length (take k data ++ drop k old))%nat with 0%nat
    by (rewrite length_app, Htk; lia).
  cbn [replicate]. rewrite app_nil_r.
  rewrite take_app_length' by (symmetry; exact Htk).
  rewrite (drop_app_add' (take k data) (drop k old) k c) by (symmetry; exact Htk).
  rewrite drop_drop, app_assoc, take_take_drop. reflexivity.
Qed.

End Chunks.

Section WriteAtZero.

Variables (d : DiskIO.t) (fh : FileHandle) (data old : list Byte.byte) (r : list string).
Hypothesis block_positive : 0 < DiskIO.optimal d.

Let b := DiskIO.optimal d.
Let len := Z.of_nat (length data).
Let writes := - ((- len) / b).

(** The body of the loop of [write] for position 0. *)
Let body : Z -> unit -> M unit := fun index _ =>
  let bufferStart := 0 + index * DiskIO.optimal d in
  let bytesToWrite :=
    if DiskIO.optimal d >? Z.of_nat (length data) - bufferStart
    then Z.of_nat (length data) - bufferStart else DiskIO.optimal d in
  fh_write fh data bufferStart bytesToWrite bufferStart;; mret tt.

(** How far the file has been written when round [i] starts. *)
Let reached (i : Z) : nat := Z.to_nat (Z.min (i * b) len).

Lemma write_round (i : Z) (w : world) :
  0 <= i -> i * b < len ->
  w_fds w !! fh = Some r ->
  w_fs w !! r = Some (File (take (reached i) data ++ drop (reached i) old)) ->
  body i tt w
  = (Ok tt, set_fs (<[r := File (take (reached (i + 1)) data ++ drop (reached (i + 1)) old)]> (w_fs w))
              (add_log (EvWrite fh (i * b) (Z.min b (len - i * b)) (i * b)) w)).
Proof.
  intros Hi Hlt Hfd Hfile. unfold body. cbv zeta. rewrite Z.add_0_l. fold b len.
  assert (Hbytes : (if b >? len - i * b then len - i * b else b) = Z.min b (len - i * b)).
  { destruct (Z.gtb_spec b (len - i * b)); lia. }
  rewrite Hbytes. unfold fh_write, fh_file. run_monad. cbn [add_log w_fds w_fs].
  fold len.
  assert (Hb : 0 < b) by exact block_positive.
  assert ((len =? 0) = false) as -> by (apply Z.eqb_neq; nia).
  assert ((i * b <? 0) = false) as -> by (apply Z.ltb_ge; nia).
  rewrite (gtb_false (i * b) len) by lia.
  rewrite (gtb_false (Z.min b (len - i * b)) (len - i * b)) by lia.
  assert ((Z.min b (len - i * b) <? 0) = false) as -> by (apply Z.ltb_ge; lia).
  cbv beta. cbn [add_log w_fds w_fs]. rewrite Hfd, Hfile. cbn [set_fs add_log w_fs].
  do 4 f_equal.
  assert (Hr : reached i = Z.to_nat (i * b)) by (unfold reached; f_equal; lia).
  rewrite Hr, pwrite_extend; [|lia|unfold len in *; lia].
  assert (Hr' : reached (i + 1) = (Z.to_nat (i * b) + Z.to_nat (Z.min b (len - i * b)))%nat)
    by (unfold reached; lia).
  now rewrite Hr'.
Qed.

Lemma write_rounds (n : nat) : forall (i : Z) (w : world),
  Z.of_nat n = writes - i -> 0 <= i ->
  w_fds w !! fh = Some r ->
  w_fs w !! r = Some (File (take (reached i) data ++ drop (reached i) old)) ->
  exists w',
    rounds n i body tt w = (Ok tt, w')
    /\ w_fs w' = <[r := File (data ++ drop (length data) old)]> (w_fs w)
    /\ w_fds w' = w_fds w
    /\ w_log w' = w_log w ++ chunk_writes fh b len n i.
Proof.
  pose proof (ceil_div_bounds len b block_positive) as Hceil. fold writes in Hceil.
  induction n as [|n IH]; intros i w Hn Hi Hfd Hfile.
  - exists w. split; [reflexivity|]. split; [|split; [reflexivity|now rewrite app_nil_r]].
    symmetry. apply insert_id. rewrite Hfile.
    assert (reached i = length data) as -> by (unfold reached, len in *; nia).
    now rewrite firstn_all.
  - assert (Hlt : i * b < len) by nia.
    cbn [rounds]. mstep. rewrite (write_round i w Hi Hlt Hfd Hfile).
    destruct (IH (i + 1) (set_fs (<[r := File (take (reached (i + 1)) data ++ drop (reached (i + 1)) old)]> (w_fs w))
                            (add_log (EvWrite fh (i * b) (Z.min b (len - i * b)) (i * b)) w)))
      as (w' & Hrun & Hfs & Hfds & Hlog).
    + lia.
    + lia.
    + exact Hfd.
    + cbn [w_fs set_fs]. apply lookup_insert_eq.
    + exists w'. split; [exact Hrun|]. cbn [w_fs w_fds w_log set_fs add_log] in *.
      split; [now rewrite Hfs, insert_insert_eq|]. split; [exact Hfds|].
      rewrite Hlog, <- app_assoc. reflexivity.
Qed.

(** At position 0 [write] does what C2 and C5 say: it is admitted when the
    data fit the sentinel, cuts the sentinel by their length, issues
    [ceil(len / optimal)] chunk writes of [optimal] bytes, the last one
    clipped, and leaves the data at offsets [0 .. len - 1] of the file. *)
Lemma write_at_position_0 (w : world) (sentinel_data : list Byte.byte) :
  Fs.lookup (w_fs w) (Fs.resolve (DiskIO.path_diskio d)) = Some (File sentinel_data) ->
  len <= Z.of_nat (length sentinel_data) ->
  w_fds w !! fh = Some r ->
  w_fs w !! r = Some (File old) ->
  r <> Fs.resolve (DiskIO.path_diskio d) ->
  exists w',
    DiskIO.write d fh data 0 w = (Ok tt, w')
    /\ w_fs w' !! r = Some (File (data ++ drop (length data) old))
    /\ w_fs w' !! Fs.resolve (DiskIO.path_diskio d)
       = Some (File (take (length sentinel_data - length data) sentinel_data))
    /\ w_fds w' = w_fds w
    /\ w_log w' = w_log w
                  ++ [EvStat (DiskIO.path_diskio d);
                      EvTruncate (DiskIO.path_diskio d) (Z.of_nat (length sentinel_data) - len)]
                  ++ chunk_writes fh b len (Z.to_nat writes) 0
    /\ length (chunk_writes fh b len (Z.to_nat writes) 0) = Z.to_nat writes.
Proof.
  intros Hs Hfit Hfd Hfile Hne.
  destruct (lookup_File_nonroot _ _ _ Hs) as [Hsne Hs'].
  destruct (allocate_admission d len w sentinel_data Hs) as [_ Halloc].
  specialize (Halloc Hfit).
  change (DiskIO.write d fh data 0 w)
    with ((DiskIO.allocate d len;; while_index_lt (Math_ceil_div len b) body tt) w).
  mstep. rewrite Halloc. unfold Math_ceil_div.
  assert ((b =? 0) = false) as -> by (apply Z.eqb_neq; unfold b; lia).
  cbn [while_index_lt]. fold writes.
  pose proof (ceil_div_bounds len b block_positive) as Hceil. fold writes in Hceil.
  assert (Hw0 : 0 <= writes) by (unfold len in *; nia).
  destruct (write_rounds (Z.to_nat writes) 0
              (set_fs (<[Fs.resolve (DiskIO.path_diskio d) :=
                           File (resize (Z.to_nat (Z.max 0 (Z.of_nat (length sentinel_data) - len)))
                                   Byte.x00 sentinel_data)]> (w_fs w))
                 (add_log (EvTruncate (DiskIO.path_diskio d) (Z.of_nat (length sentinel_data) - len))
                    (add_log (EvStat (DiskIO.path_diskio d)) w))))
    as (w' & Hrun & Hfs & Hfds & Hlog).
  - lia.
  - lia.
  - exact Hfd.
  - cbn [w_fs set_fs]. rewrite lookup_insert_ne by (now apply not_eq_sym).
    now replace (reached 0) with 0%nat by (unfold reached; lia).
  - exists w'. split; [exact Hrun|]. cbn [w_fs w_log set_fs add_log] in *.
    split; [rewrite Hfs; apply lookup_insert_eq|].
    split.
    { rewrite Hfs, lookup_insert_ne, lookup_insert_eq by exact Hne.
      rewrite resize_le by (unfold len in *; lia). do 3 f_equal. unfold len in *. lia. }
    split; [exact Hfds|].
    split; [rewrite Hlog, <- !app_assoc; reflexivity|].
    clear. generalize 0. induction (Z.to_nat writes); intros z; simpl; auto.
Qed.

End WriteAtZero.

Section ReadWholeFile.

Variables (d : DiskIO.t) (fh : FileHandle) (content : list Byte.byte) (r : list string).
Hypothesis block_positive : 0 < DiskIO.optimal d.

Let b := DiskIO.optimal d.
Let size := Z.of_nat (length content).
Let reads := - ((- size) / b).

(** The body of the loop of [read] for the range [0, size) of a file of
    [size] bytes. *)
Let body : Z -> list Byte.byte -> M (list Byte.byte) := fun index buffer =>
  let bufferStart := 0 + index * DiskIO.optimal d in
  let bytesToRead :=
    if bufferStart + DiskIO.optimal d >? Z.of_nat (length content)
    then Z.of_nat (length content) - bufferStart else DiskIO.optimal d in
  fh_read fh buffer bufferStart bytesToRead bufferStart.

Let reached (i : Z) : nat := Z.to_nat (Z.min (i * b) size).

(** The buffer when round [i] starts. *)
Let filled (i : Z) : list Byte.byte :=
  take (reached i) content ++ replicate (length content - reached i) Byte.x00.

Lemma read_round (i : Z) (w : world) :
  0 <= i -> i * b < size ->
  w_fds w !! fh = Some r ->
  w_fs w !! r = Some (File content) ->
  body i (filled i) w
  = (Ok (filled (i + 1)), add_log (EvRead fh (i * b) (Z.min b (size - i * b)) (i * b)) w).
Proof.
  intros Hi Hlt Hfd Hfile. unfold body. cbv zeta. rewrite Z.add_0_l. fold b size.
  assert (Hb : 0 < b) by exact block_positive.
  assert (Hbytes : (if i * b + b >? size then size - i * b else b) = Z.min b (size - i * b)).
  { destruct (Z.gtb_spec (i * b + b) size); lia. }
  rewrite Hbytes.
  assert (Hr : reached i = Z.to_nat (i * b)) by (unfold reached; f_equal; lia).
  assert (Hr' : reached (i + 1) = (Z.to_nat (i * b) + Z.to_nat (Z.min b (size - i * b)))%nat)
    by (unfold reached; lia).
  assert (Hk : (Z.to_nat (i * b) + Z.to_nat (Z.min b (size - i * b)) <= length content)%nat)
    by (unfold size in *; lia).
  assert (Hlen : Z.of_nat (length (filled i)) = size).
  { unfold filled. rewrite length_app, length_take, length_replicate. unfold size. lia. }
  unfold fh_read, fh_file. run_monad. rewrite Hlen.
  assert ((i * b <? 0) = false) as -> by (apply Z.ltb_ge; nia).
  assert ((Z.min b (size - i * b) =? 0) = false) as -> by (apply Z.eqb_neq; lia).
  assert ((size =? 0) = false) as -> by (apply Z.eqb_neq; nia).
  assert ((Z.min b (size - i * b) <? 0) = false) as -> by (apply Z.ltb_ge; lia).
  rewrite (gtb_false (i * b + Z.min b (size - i * b)) size) by lia.
  cbv beta. cbn [add_log w_fds w_fs]. rewrite Hfd, Hfile.
  do 2 f_equal. unfold Fs.pread, filled. rewrite Hr, Hr'.
  set (k := Z.to_nat (i * b)) in *. set (c := Z.to_nat (Z.min b (size - i * b))) in *.
  assert (Htk : length (take k content) = k) by (rewrite length_take; lia).
  assert (Htc : length (take c (drop k content)) = c)
    by (rewrite length_take, length_drop; lia).
  rewrite Htc.
  rewrite <- Htk at 1. rewrite take_app_length.
  replace (k + c)%nat with (length (take k content) + c)%nat at 1 by lia.
  rewrite drop_app_add', drop_replicate by reflexivity.
  rewrite app_assoc, take_take_drop. do 2 f_equal. lia.
Qed.

Lemma read_rounds (n : nat) : forall (i : Z) (w : world),
  Z.of_nat n = reads - i -> 0 <= i ->
  w_fds w !! fh = Some r ->
  w_fs w !! r = Some (File content) ->
  exists w',
    rounds n i body (filled i) w = (Ok content, w')
    /\ w_fs w' = w_fs w /\ w_fds w' = w_fds w.
Proof.
  pose proof (ceil_div_bounds size b block_positive) as Hceil. fold reads in Hceil.
  induction n as [|n IH]; intros i w Hn Hi Hfd Hfile.
  - exists w. split; [|split; reflexivity]. cbn [rounds]. unfold mret, M_ret. do 2 f_equal.
    unfold filled.
    assert (reached i = length content) as -> by (unfold reached, size in *; nia).
    now rewrite firstn_all, Nat.sub_diag, app_nil_r.
  - assert (Hlt : i * b < size) by nia.
    cbn [rounds]. mstep. rewrite (read_round i w Hi Hlt Hfd Hfile).
    destruct (IH (i + 1) (add_log (EvRead fh (i * b) (Z.min b (size - i * b)) (i * b)) w))
      as (w' & Hrun & Hfs & Hfds); [lia|lia|exact Hfd|exact Hfile|].
    exists w'. split; [exact Hrun|]. split; [exact Hfs|exact Hfds].
Qed.

(** Reading the whole of a file from position 0 returns its content. *)
Lemma read_whole_file (w : world) :
  w_fds w !! fh = Some r ->
  w_fs w !! r = Some (File content) ->
  exists w', DiskIO.read d fh 0 size w = (Ok content, w') /\ w_fs w' = w_fs w.
Proof.
  intros Hfd Hfile.
  pose proof (ceil_div_bounds size b block_positive) as Hceil. fold reads in Hceil.
  assert (Hr0 : 0 <= reads) by (unfold size in *; nia).
  destruct (read_rounds (Z.to_nat reads) 0 (add_log (EvFstat fh) w))
    as (w' & Hrun & Hfs & _); [lia|lia|exact Hfd|exact Hfile|].
  exists w'. split; [|exact Hfs].
  unfold DiskIO.read, fh_stat, fh_file, Buffer_alloc. cbv zeta. run_monad.
  cbv beta. cbn [add_log w_fds w_fs]. rewrite Hfd, Hfile. cbn [st_size]. fold size b.
  assert ((size - 0 <? 0) = false) as -> by (apply Z.ltb_ge; unfold size; lia).
  unfold Math_ceil_div.
  assert ((b =? 0) = false) as -> by (apply Z.eqb_neq; unfold b; lia).
  cbn [while_index_lt]. rewrite Z.sub_0_r. fold reads.
  replace (replicate (Z.to_nat size) Byte.x00) with (filled 0).
  - exact Hrun.
  - unfold filled. replace (reached 0) with 0%nat by (unfold reached, size; lia).
    rewrite take_0. cbn [app]. f_equal. unfold size. lia.
Qed.

End ReadWholeFile.

(** X6: written at offset 0 into a file of the same length, a buffer is
    read back unchanged by [read] of the range [0, len), for every block
    size: smaller than the buffer, larger, or not dividing its length. *)
Lemma write_then_read_same_size (d : DiskIO.t) (fh : FileHandle) (data old sentinel_data : list Byte.byte)
    (r : list string) (w : world) :
  0 < DiskIO.optimal d ->
  length old = length data ->
  Fs.lookup (w_fs w) (Fs.resolve (DiskIO.path_diskio d)) = Some (File sentinel_data) ->
  (length data <= length sentinel_data)%nat ->
  w_fds w !! fh = Some r ->
  w_fs w !! r = Some (File old) ->
  r <> Fs.resolve (DiskIO.path_diskio d) ->
  exists w1 w2,
    DiskIO.write d fh data 0 w = (Ok tt, w1)
    /\ DiskIO.read d fh 0 (Z.of_nat (length data)) w1 = (Ok data, w2).
Proof.
  intros Hb Hlen Hs Hfit Hfd Hfile Hne.
  destruct (write_at_position_0 d fh data old r Hb w sentinel_data Hs ltac:(lia) Hfd Hfile Hne)
    as (w1 & Hw & Hfile1 & _ & Hfd1 & _).
  rewrite <- Hlen, drop_all, app_nil_r in Hfile1. rewrite <- Hfd1 in Hfd.
  destruct (read_whole_file d fh data r Hb w1 Hfd Hfile1) as (w2 & Hr & _).
  exists w1, w2. split; [exact Hw|exact Hr].
Qed.

(** ** C2, C5, C6: chunked writes and reads at the failing inputs *)

(** C2 at 8 bytes for position 9, with 100 bytes left: the write is
    admitted and the sentinel cut to 92 bytes; the chunk write that follows
    is called with buffer offset 9 and length -1, which Node refuses, so
    [write] throws although [8 <= 100], and the budget stays charged. *)
Lemma write_admitted_then_refused :
  fst (DiskIO.size_diskio (DiskIO.instance "/data" 65536 4096) world_file) = Ok 100
  /\ fst (DiskIO.write (DiskIO.instance "/data" 65536 4096) 7%nat bytes8 9 world_file)
     = Throw ERR_OUT_OF_RANGE
  /\ w_log (snd (DiskIO.write (DiskIO.instance "/data" 65536 4096) 7%nat bytes8 9 world_file))
     = [EvStat "/data/diskio.dat"; EvTruncate "/data/diskio.dat" 92; EvWrite 7 9 (-1) 9]
  /\ fst (DiskIO.size_diskio (DiskIO.instance "/data" 65536 4096)
            (snd (DiskIO.write (DiskIO.instance "/data" 65536 4096) 7%nat bytes8 9 world_file)))
     = Ok 92.
Proof. repeat split; vm_compute; reflexivity. Qed.

(** C5 at 8 bytes for position 1: one chunk write, of 7 bytes taken from
    buffer offset 1; the file gets bytes 2 to 8 of the data at offsets 1
    to 7, its offset 8 is not written, and the first byte of the data is
    written nowhere. *)
Lemma write_at_position_1 :
  fst (DiskIO.write (DiskIO.instance "/data" 65536 4096) 7%nat bytes8 1 world_file) = Ok tt
  /\ w_log (snd (DiskIO.write (DiskIO.instance "/data" 65536 4096) 7%nat bytes8 1 world_file))
     = [EvStat "/data/diskio.dat"; EvTruncate "/data/diskio.dat" 92; EvWrite 7 1 7 1]
  /\ w_fs (snd (DiskIO.write (DiskIO.instance "/data" 65536 4096) 7%nat bytes8 1 world_file))
       !! ["data"; "f"]
     = Some (File ([Byte.x09; Byte.x02; Byte.x03; Byte.x04; Byte.x05; Byte.x06; Byte.x07; Byte.x08]
                   ++ replicate 12 Byte.x09)).
Proof. repeat split; vm_compute; reflexivity. Qed.

(** C6 at a buffer of 3 bytes and a file of 20: the write at offset 0
    succeeds; the read of [0, 3) asks [fh.read] for 20 bytes (the chunk is
    clipped to the size of the file, not to the buffer), which Node
    refuses for a buffer of 3 bytes, so [read] throws. *)
Lemma write_then_read_throws :
  fst (DiskIO.write (DiskIO.instance "/data" 65536 4096) 7%nat [Byte.x01; Byte.x02; Byte.x03] 0
         world_file) = Ok tt
  /\ fst (DiskIO.read (DiskIO.instance "/data" 65536 4096) 7%nat 0 3
            (snd (DiskIO.write (DiskIO.instance "/data" 65536 4096) 7%nat
                    [Byte.x01; Byte.x02; Byte.x03] 0 world_file)))
     = Throw ERR_OUT_OF_RANGE
  /\ w_log (snd (DiskIO.read (DiskIO.instance "/data" 65536 4096) 7%nat 0 3
                   (snd (DiskIO.write (DiskIO.instance "/data" 65536 4096) 7%nat
                           [Byte.x01; Byte.x02; Byte.x03] 0 world_file))))
     = [EvStat "/data/diskio.dat"; EvTruncate "/data/diskio.dat" 97; EvWrite 7 0 3 0;
        EvFstat 7; EvRead 7 0 20 0].
Proof. repeat split; vm_compute; reflexivity. Qed.

(** ** C9: blocking and non-blocking variants *)

(** C9, as stated, fails: for the same name [get] returns a wrapper whose
    initialization has been awaited and [getSync] one whose initialization
    has not. *)
Lemma getSync_differs_from_get :
  fst (DiskIO.get (DiskIO.instance "/data" 65536 4096) "a.txt" world_empty)
  = Ok {| file_name := ["a.txt"]; file_ready := true |}
  /\ fst (DiskIO.getSync (DiskIO.instance "/data" 65536 4096) "a.txt" world_empty)
     = Ok {| file_name := ["a.txt"]; file_ready := false |}.
Proof. split; reflexivity. Qed.

Lemma bind_without_await {A} (m : M A) (f g : A -> M DiskIOFile) (w : world) :
  (forall a w', g a w' = without_await (f a w')) ->
  (m ≫= g) w = without_await ((m ≫= f) w).
Proof.
  intros H. rewrite !bind_run. destruct (m w) as [[a|e] w']; [apply H|reflexivity].
Qed.

Lemma getSync_without_await (d : DiskIO.t) (name : string) (w : world) :
  DiskIO.getSync d name w = without_await (DiskIO.get d name w).
Proof.
  unfold DiskIO.getSync, DiskIO.get.
  destruct (String.eqb _ _); reflexivity.
Qed.

(** C9, amended: [stabilizeSync] is [stabilize]; [getSync] and
    [createSync] make the same checks and the same changes as [get] and
    [create] and return a wrapper of the same name, but hand it over
    without awaiting its initialization, which [get] and [create] await. *)
Theorem sync_variants (d : DiskIO.t) (w : world) :
  (forall expected, DiskIO.stabilizeSync d expected w = DiskIO.stabilize d expected w)
  /\ (forall name, DiskIO.getSync d name w = without_await (DiskIO.get d name w))
  /\ (forall fuel name,
        DiskIO.createSync fuel d name w = without_await (DiskIO.create fuel d name w)).
Proof.
  split; [reflexivity|]. split; [intros; apply getSync_without_await|].
  intros fuel name. revert w. induction fuel as [|fuel IH]; intros w; simpl;
    (destruct (String.length name =? 0)%nat; [reflexivity|]);
    apply bind_without_await; intros uuid w1;
    apply bind_without_await; intros _ w2;
    apply bind_without_await; intros taken w3;
    (destruct taken; [first [reflexivity | apply IH]|]);
    apply bind_without_await; intros _ w4;
    apply bind_without_await; intros _ w5;
    apply getSync_without_await.
Qed.

(** ** C1: the report after calls *)

Section AfterCalls.

Variables (path : string) (size b : Z).
Let d := DiskIO.instance path size b.







End AfterCalls.




(** ** C7: deleting a file and its empty parents *)

Section Cascade.

Variables (path : string) (size b : Z).
Variable name : list string.
Hypothesis name_plain : Forall (fun s => plain s = true) name.

Let d := DiskIO.instance path size b.
Let root := Fs.resolve path.
Let sentinel := Fs.resolve path ++ [DiskIO.RESERVED_FILE].

(** The directory reached after the first [k] segments of the name. *)
Let D (k : nat) : list string := root ++ take k name.

Lemma plain_Boolean s : plain s = true -> JS.Boolean s = true.
Proof. unfold plain, JS.Boolean. intros H. repeat (apply andb_prop in H as [H ?]). exact H. Qed.

Lemma plain_at k x : name !! k = Some x -> plain x = true.
Proof. intros H. exact (Forall_lookup_1 (fun s => plain s = true) _ _ _ name_plain H). Qed.

Lemma resolve_parent k :
  Fs.resolve (Path.join (DiskIO.path_folder d :: take k name)) = D k.
Proof.
  rewrite resolve_join_plain by (apply Forall_take; exact name_plain).
  unfold d. now rewrite resolve_folder.
Qed.

Lemma D_inj j k : (j <= length name)%nat -> (k <= length name)%nat -> D j = D k -> j = k.
Proof.
  intros Hj Hk H. apply app_inv_head in H. apply (f_equal (@length string)) in H.
  rewrite !length_take in H. lia.
Qed.

Lemma D_S k x : name !! k = Some x -> D (S k) = D k ++ [x].
Proof. intros H. unfold D. rewrite (take_S_r _ _ _ H). now rewrite app_assoc. Qed.

Lemma D_nonroot k : (1 <= k <= length name)%nat -> D k <> root /\ D k <> [].
Proof.
  intros Hk. assert (length (D k) = (length root + k)%nat) as Hl.
  { unfold D. rewrite length_app, length_take. lia. }
  split; intros H; rewrite H in Hl; simpl in Hl; lia.
Qed.

Lemma lookup_root_delete (fs : gmap (list string) node) q :
  q <> root -> Fs.lookup (delete q fs) root = Fs.lookup fs root.
Proof.
  intros H. unfold Fs.lookup. destruct root eqn:E; [reflexivity|].
  apply lookup_delete_ne. exact H.
Qed.

Variables (s : nat) (other : string).
Hypothesis other_not_chain : name !! s <> Some other.

(** The walk from level [k] down: the directories of the levels above
    [s] are empty when they are reached and get removed; the directory of
    level [s] holds [other] and stops the walk. *)
Lemma walk_levels (t : nat) : forall (k : nat) (w : world) (x : string),
  k = (s + t)%nat ->
  name !! k = Some x ->
  (forall j, (1 <= j <= k)%nat -> w_fs w !! D j = Some Dir) ->
  Fs.lookup (w_fs w) root = Some Dir ->
  w_fs w !! (D s ++ [other]) <> None ->
  (forall j y, (s < j <= k)%nat -> w_fs w !! (D j ++ [y]) <> None -> (j < k)%nat /\ name !! j = Some y) ->
  exists w',
    DiskIO.delete_walk d (rev (take (S k) name)) w = (Ok tt, w')
    /\ (forall j, (s < j <= k)%nat -> w_fs w' !! D j = None)
    /\ (forall q, (forall j, (s < j <= k)%nat -> q <> D j) -> w_fs w' !! q = w_fs w !! q)
    /\ w_fds w' = w_fds w /\ w_dirsz w' = w_dirsz w
    /\ exists evs, w_log w' = w_log w ++ evs /\ Forall walk_event evs.
Proof.
  induction t as [|t IH]; intros k w x Hk Hx Hdirs Hroot Hother Honly.
  - (* level s: the directory is not empty *)
    rewrite Nat.add_0_r in Hk. subst k.
    rewrite (take_S_r _ _ _ Hx), rev_unit. cbn [DiskIO.delete_walk].
    rewrite plain_Boolean by exact (plain_at _ _ Hx).
    rewrite rev_involutive. mstep. rewrite readdir_run, resolve_parent.
    assert (Hl : Fs.lookup (w_fs w) (D s) = Some Dir).
    { destruct s as [|s']; [unfold D; rewrite take_0, app_nil_r; exact Hroot|].
      assert (S s' <= length name)%nat by (apply lookup_lt_Some in Hx; lia).
      rewrite lookup_nonroot by (apply D_nonroot; lia). apply Hdirs. lia. }
    rewrite Hl. mstep.
    destruct (Fs.children (w_fs w) (D s)) as [|c cs] eqn:Ec.
    { exfalso. apply Hother. now apply children_nil. }
    cbn [length Nat.eqb]. eexists. split; [reflexivity|].
    cbn [w_fs w_fds w_dirsz w_log add_log].
    split; [intros j Hj; lia|]. split; [reflexivity|]. split; [reflexivity|]. split; [reflexivity|].
    eexists. split; [reflexivity|]. repeat constructor.
  - (* a level above s: the directory is empty and goes *)
    assert (Hklen : (k < length name)%nat) by (apply lookup_lt_Some in Hx; exact Hx).
    destruct k as [|k']; [lia|].
    rewrite (take_S_r _ _ _ Hx), rev_unit. cbn [DiskIO.delete_walk].
    rewrite plain_Boolean by exact (plain_at _ _ Hx).
    rewrite rev_involutive. mstep. rewrite readdir_run, resolve_parent.
    destruct (D_nonroot (S k') ltac:(lia)) as [Hnr Hne].
    assert (Hd : w_fs w !! D (S k') = Some Dir) by (apply Hdirs; lia).
    rewrite lookup_nonroot, Hd by exact Hne. mstep.
    assert (Hc : Fs.children (w_fs w) (D (S k')) = []).
    { apply children_nil. intros y. destruct (w_fs w !! (D (S k') ++ [y])) eqn:E; [|reflexivity].
      destruct (Honly (S k') y) as [Hlt _]; [lia|congruence|lia]. }
    rewrite Hc. cbn [length Nat.eqb]. mstep.
    rewrite rmdir_empty_run; rewrite ?resolve_parent; cbn [w_fs add_log]; try assumption.
    mstep.
    destruct (lookup_lt_is_Some_2 name k' ltac:(lia)) as [x' Hx'].
    destruct (IH k' (set_fs (delete (D (S k')) (w_fs w))
                       (add_log (EvRmdir (Path.join (DiskIO.path_folder d :: take (S k') name)))
                          (add_log (EvReaddir (Path.join (DiskIO.path_folder d :: take (S k') name))) w)))
                x') as (w' & Hrun & Hgone & Hframe & Hfds & Hdz & evs & Hlog & Hevs).
    + lia.
    + exact Hx'.
    + intros j Hj. cbn [w_fs set_fs]. rewrite lookup_delete_ne; [apply Hdirs; lia|].
      intros Heq. apply D_inj in Heq; lia.
    + cbn [w_fs set_fs]. rewrite lookup_root_delete by exact Hnr. exact Hroot.
    + cbn [w_fs set_fs]. rewrite lookup_delete_ne; [exact Hother|].
      intros Heq. assert (S k' = S s) as Hks.
      { apply (f_equal (@length string)) in Heq. unfold D in Heq.
        rewrite !length_app, !length_take in Heq. cbn [length] in Heq. lia. }
      injection Hks as ->. destruct (lookup_lt_is_Some_2 name s ltac:(lia)) as [z Hz].
      rewrite (D_S _ _ Hz) in Heq. apply app_inv_head in Heq. congruence.
    + intros j y Hj Hy. cbn [w_fs set_fs] in Hy.
      destruct (decide (D (S k') = D j ++ [y])) as [Heq|Hneq].
      { rewrite <- Heq, lookup_delete_eq in Hy. congruence. }
      rewrite lookup_delete_ne in Hy by exact Hneq.
      destruct (Honly j y) as [Hlt Hnj]; [lia|exact Hy|].
      split; [|exact Hnj]. destruct (decide (j = k')) as [->|]; [|lia].
      exfalso. apply Hneq. now apply D_S.
    + exists w'. split; [exact Hrun|]. cbn [w_fs w_fds w_dirsz w_log set_fs add_log] in *.
      split.
      { intros j Hj. destruct (decide (j = S k')) as [->|].
        - rewrite Hframe; [apply lookup_delete_eq|].
          intros i Hi Heq. apply D_inj in Heq; lia.
        - apply Hgone. lia. }
      split.
      { intros q Hq. rewrite Hframe by (intros i Hi; apply Hq; lia).
        apply lookup_delete_ne. intros Heq. apply (Hq (S k')); [lia|now symmetry]. }
      split; [exact Hfds|]. split; [exact Hdz|].
      eexists. split; [rewrite Hlog, <- !app_assoc; reflexivity|].
      repeat constructor. exact Hevs.
Qed.

End Cascade.




(** ** Folders given in normal form *)

Section NormalForm.

Lemma plain_segment s : plain s = true -> segment s.
Proof.
  unfold plain. intros H. repeat (apply andb_prop in H as [H ?]).
  split; [|assumption]. apply negb_true_iff in H. now apply String.eqb_neq.
Qed.

Lemma plain_kept s : plain s = true -> kept s.
Proof.
  unfold plain. intros H. repeat (apply andb_prop in H as [H ?]).
  repeat match goal with Hn : negb _ = true |- _ => apply negb_true_iff, String.eqb_neq in Hn end.
  now repeat split.
Qed.

Lemma cleaned_segments name : Forall segment (List.filter JS.Boolean (JS.split "/" name)).
Proof.
  pose proof (split_all_no_slash name) as H.
  induction H as [|x l Hx _ IH]; simpl; [constructor|].
  unfold JS.Boolean at 1. destruct (String.eqb x "") eqn:E; simpl; [exact IH|].
  constructor; [|exact IH]. split; [now apply String.eqb_neq|exact Hx].
Qed.

Lemma filter_Boolean_segments l : Forall segment l -> List.filter JS.Boolean l = l.
Proof.
  induction 1 as [|x l [Hx _] _ IH]; simpl; [reflexivity|].
  assert (JS.Boolean x = true) as ->
    by (unfold JS.Boolean; apply String.eqb_neq in Hx; now rewrite Hx).
  now rewrite IH.
Qed.

Lemma string_app_assoc (a b c : string) : (a +:+ b) +:+ c = a +:+ (b +:+ c).
Proof.
  induction a as [|x a IH]; [reflexivity|].
  change (String x ((a +:+ b) +:+ c) = String x (a +:+ b +:+ c)). now rewrite IH.
Qed.

Lemma last_char_segment s :
  segment s -> exists c, JS.last_char s = Some c /\ Ascii.eqb c "/" = false.
Proof.
  intros [Hne Hns]. induction s as [|c s IH]; [congruence|].
  cbn [no_slash] in Hns. apply andb_prop in Hns as [Hc Hs]. apply negb_true_iff in Hc.
  destruct s as [|c' s']; [exists c; auto|].
  destruct IH as (c0 & H0 & H1); [discriminate|exact Hs|]. exists c0. auto.
Qed.

Lemma last_char_app pre s : s <> "" -> JS.last_char (pre +:+ s) = JS.last_char s.
Proof.
  intros Hne. induction pre as [|a pre IH]; [reflexivity|].
  change (String a pre +:+ s) with (String a (pre +:+ s)).
  destruct (pre +:+ s) as [|c t] eqn:E.
  - destruct pre; [change ("" +:+ s) with s in E; congruence|discriminate].
  - rewrite <- IH. reflexivity.
Qed.

Lemma endsWith_segment pre s : segment s -> JS.endsWith_slash (pre +:+ s) = false.
Proof.
  intros Hs. unfold JS.endsWith_slash. rewrite last_char_app by apply Hs.
  destruct (last_char_segment s Hs) as (c & -> & ->). reflexivity.
Qed.

Lemma endsWith_concat pre l :
  l <> [] -> Forall segment l -> JS.endsWith_slash (pre +:+ String.concat "/" l) = false.
Proof.
  intros Hne Hall. revert pre. induction Hall as [|x l Hx Hl IH]; intros pre; [congruence|].
  destruct l as [|y l]; [now apply endsWith_segment|].
  change (String.concat "/" (x :: y :: l)) with (x +:+ "/" +:+ String.concat "/" (y :: l)).
  rewrite <- !string_app_assoc. apply IH. discriminate.
Qed.

Lemma norm_step_false_walk k seg :
  Forall kept k -> Path.norm_step false k seg = Fs.walk_step k seg /\ Forall kept (Fs.walk_step k seg).
Proof.
  intros Hk. unfold Path.norm_step, Fs.walk_step.
  destruct (String.eqb seg "") eqn:E1; [auto|].
  destruct (String.eqb seg ".") eqn:E2; [auto|].
  destruct (String.eqb seg "..") eqn:E3.
  - destruct k as [|x k]; [auto|]. inversion Hk as [|? ? [_ [_ Hx]] Hk']; subst.
    apply String.eqb_neq in Hx. rewrite Hx. auto.
  - split; [reflexivity|]. constructor; [|exact Hk].
    apply String.eqb_neq in E1, E2, E3. now repeat split.
Qed.

Lemma norm_false_walk segs k :
  Forall kept k ->
  fold_left (Path.norm_step false) segs k = fold_left Fs.walk_step segs k
  /\ Forall kept (fold_left Fs.walk_step segs k).
Proof.
  revert k. induction segs as [|s segs IH]; intros k Hk; simpl; [auto|].
  destruct (norm_step_false_walk k s Hk) as [-> Hk']. now apply IH.
Qed.

(** An absolute path without a trailing slash is normalized to the
    normal form of what it resolves to. *)
Lemma normalize_canonical s :
  JS.startsWith_slash s = true -> JS.endsWith_slash s = false ->
  Path.normalize s = canonical (Fs.resolve s).
Proof.
  intros Habs Htr. unfold Path.normalize, Path.normalizeString.
  destruct s as [|c s']; [discriminate|]. cbn [String.eqb]. rewrite Habs, Htr. cbn [negb].
  destruct (norm_false_walk (JS.split "/" (String c s')) [] (List.Forall_nil _)) as [-> Hk].
  rewrite resolve_unfold.
  set (N := rev (fold_left Fs.walk_step (JS.split "/" (String c s')) [])).
  assert (Hne : Forall (fun x => x <> "") N).
  { apply Forall_rev. eapply Forall_impl; [exact Hk|]. intros x Hx. apply Hx. }
  destruct (String.eqb (String.concat "/" N) "") eqn:Ep.
  - apply String.eqb_eq in Ep. apply concat_slash_empty in Ep; [|exact Hne]. now rewrite Ep.
  - destruct N; [discriminate|reflexivity].
Qed.

Lemma canonical_inj l1 l2 :
  Forall segment l1 -> Forall segment l2 -> canonical l1 = canonical l2 -> l1 = l2.
Proof.
  intros H1 H2 Heq.
  assert (Hs : forall l, Forall segment l -> l <> [] -> JS.split "/" (canonical l) = "" :: l).
  { intros l Hl Hne. unfold canonical. destruct l as [|x l]; [congruence|].
    change ("/" +:+ ?t) with ("" +:+ String "/" t). rewrite split_app, split_concat; [reflexivity|discriminate|].
    eapply Forall_impl; [exact Hl|]. intros y Hy. apply Hy. }
  destruct l1 as [|x1 l1], l2 as [|x2 l2]; [reflexivity| | |].
  - exfalso. apply (f_equal (JS.split "/")) in Heq. rewrite (Hs (x2 :: l2)) in Heq by (auto; discriminate).
    simpl in Heq. inversion H2 as [|? ? [Hx _] _]; subst. congruence.
  - exfalso. apply (f_equal (JS.split "/")) in Heq. rewrite (Hs (x1 :: l1)) in Heq by (auto; discriminate).
    simpl in Heq. inversion H1 as [|? ? [Hx _] _]; subst. congruence.
  - apply (f_equal (JS.split "/")) in Heq.
    rewrite (Hs (x1 :: l1)), (Hs (x2 :: l2)) in Heq by (auto; discriminate). congruence.
Qed.

Lemma resolve_canonical segs :
  Forall (fun x => plain x = true) segs -> Fs.resolve (canonical segs) = segs.
Proof.
  intros Hall. destruct segs as [|y l]; [reflexivity|].
  rewrite resolve_unfold. unfold canonical.
  change ("/" +:+ ?t) with ("" +:+ String "/" t). rewrite split_app, split_concat.
  - cbn [JS.split app]. rewrite walk_skip_empty, walk_plain_list by exact Hall.
    now rewrite app_nil_r, rev_involutive.
  - discriminate.
  - eapply Forall_impl; [exact Hall|]. intros z Hz. now apply plain_segment.
Qed.

End NormalForm.

(** ** C8: the reserved name *)

Section ReservedName.

Variables (folder : list string) (size b : Z).
Hypothesis folder_plain : Forall (fun x => plain x = true) folder.
Hypothesis folder_nonroot : folder <> [].

Let d := DiskIO.instance (canonical folder) size b.

Lemma canonical_starts l : JS.startsWith_slash (canonical l) = true.
Proof. destruct l; reflexivity. Qed.

Lemma canonical_ends l : l <> [] -> Forall segment l -> JS.endsWith_slash (canonical l) = false.
Proof.
  intros Hne Hl. destruct l as [|x l']; [congruence|].
  unfold canonical. apply endsWith_concat; [discriminate|exact Hl].
Qed.

Lemma folder_segments : Forall segment folder.
Proof. eapply Forall_impl; [exact folder_plain|]. intros x Hx. now apply plain_segment. Qed.

Lemma folder_path : DiskIO.path_folder d = canonical folder.
Proof.
  unfold d, DiskIO.instance. cbn [DiskIO.path_folder]. unfold Path.join.
  assert (Hc : JS.Boolean (canonical folder) = true) by (destruct folder; reflexivity).
  cbn [List.filter]. rewrite Hc. cbn [String.concat].
  rewrite normalize_canonical, resolve_canonical;
    auto using canonical_starts, canonical_ends, folder_segments, folder_nonroot.
Qed.

Lemma concat_snoc (l : list string) (x : string) :
  l <> [] -> String.concat "/" (l ++ [x]) = String.concat "/" l +:+ "/" +:+ x.
Proof.
  induction l as [|y l IH]; [congruence|]. intros _. destruct l as [|z l]; [reflexivity|].
  change (String.concat "/" ((y :: z :: l) ++ [x]))
    with (y +:+ "/" +:+ String.concat "/" ((z :: l) ++ [x])).
  rewrite IH by discriminate.
  change (String.concat "/" (y :: z :: l)) with (y +:+ "/" +:+ String.concat "/" (z :: l)).
  now rewrite !string_app_assoc.
Qed.

Lemma canonical_snoc (l : list string) (x : string) :
  l <> [] -> canonical (l ++ [x]) = canonical l +:+ "/" +:+ x.
Proof.
  intros Hne. destruct l as [|y l']; [congruence|].
  change (canonical ((y :: l') ++ [x])) with ("/" +:+ String.concat "/" ((y :: l') ++ [x])).
  rewrite concat_snoc by discriminate. unfold canonical. now rewrite string_app_assoc.
Qed.

Lemma diskio_path : DiskIO.path_diskio d = canonical (folder ++ [DiskIO.RESERVED_FILE]).
Proof.
  change (DiskIO.path_diskio d) with (DiskIO.path_folder d +:+ "/" +:+ DiskIO.RESERVED_FILE).
  rewrite folder_path. symmetry. apply canonical_snoc, folder_nonroot.
Qed.

(** The path [get] compares is in normal form. *)
Lemma resolved_canonical (cleaned : list string) :
  Forall segment cleaned ->
  Path.join (DiskIO.path_folder d :: cleaned)
  = canonical (Fs.resolve (Path.join (DiskIO.path_folder d :: cleaned))).
Proof.
  intros Hc. rewrite folder_path. unfold Path.join.
  assert (Hb : JS.Boolean (canonical folder) = true) by (destruct folder; reflexivity).
  cbn [List.filter]. rewrite Hb, (filter_Boolean_segments _ Hc).
  rewrite resolve_normalize. apply normalize_canonical.
  - destruct folder as [|x l]; [congruence|]. destruct cleaned; reflexivity.
  - destruct cleaned as [|c cs] eqn:E.
    + cbn [String.concat]. apply canonical_ends; [exact folder_nonroot|apply folder_segments].
    + rewrite <- E in *.
      assert (String.concat "/" (canonical folder :: cleaned)
              = (canonical folder +:+ "/") +:+ String.concat "/" cleaned) as ->
        by (rewrite E, string_app_assoc; reflexivity).
      apply endsWith_concat; [congruence|exact Hc].
Qed.

(** For a folder given in normal form, the comparison of [get] holds
    exactly when the name leads to the sentinel file. *)
Lemma get_guard_exact (name : string) :
  let cleaned := List.filter JS.Boolean (JS.split "/" name) in
  let resolved := Path.join (DiskIO.path_folder d :: cleaned) in
  resolved = DiskIO.path_diskio d <-> Fs.resolve resolved = folder ++ [DiskIO.RESERVED_FILE].
Proof.
  intros cleaned resolved.
  assert (Hp : Forall (fun x => plain x = true) (folder ++ [DiskIO.RESERVED_FILE])).
  { apply Forall_app. split; [exact folder_plain|]. repeat constructor. }
  split.
  - intros ->. rewrite diskio_path. now apply resolve_canonical.
  - intros H. unfold resolved. rewrite resolved_canonical by apply cleaned_segments.
    fold cleaned. fold resolved. rewrite H. symmetry. apply diskio_path.
Qed.

End ReservedName.

(** X21: the guard of [get].  It drops the empty segments of the name, joins
    the rest to the folder and throws the reserved-name error exactly when
    the joined path is the stored path of the sentinel; otherwise it returns
    the wrapper of the cleaned name; nothing is touched in either case.
    When the folder was given as an absolute path in normal form, the
    joined path is the stored one exactly when the name leads to the
    sentinel file, and the names [diskio.dat], [/diskio.dat] and
    [//diskio.dat/] are refused. *)
Theorem get_reserved_name (d : DiskIO.t) (name : string) (w : world) :
  let cleaned := List.filter JS.Boolean (JS.split "/" name) in
  let resolved := Path.join (DiskIO.path_folder d :: cleaned) in
  Forall (fun s => s <> "") cleaned
  /\ (DiskIO.get d name w = (Throw ReservedNameError, w) <-> resolved = DiskIO.path_diskio d)
  /\ (DiskIO.get d name w = (Ok {| file_name := cleaned; file_ready := true |}, w)
      <-> resolved <> DiskIO.path_diskio d)
  /\ (forall folder size b,
        folder <> [] -> Forall (fun x => plain x = true) folder ->
        d = DiskIO.instance (canonical folder) size b ->
        (DiskIO.get d name w = (Throw ReservedNameError, w)
         <-> Fs.resolve resolved = folder ++ [DiskIO.RESERVED_FILE])
        /\ Forall (fun n => DiskIO.get d n w = (Throw ReservedNameError, w))
             ["diskio.dat"; "/diskio.dat"; "//diskio.dat/"]).
Proof.
  intros cleaned resolved.
  assert (Hthrow : forall n,
             DiskIO.get d n w = (Throw ReservedNameError, w)
             <-> Path.join (DiskIO.path_folder d :: List.filter JS.Boolean (JS.split "/" n))
                 = DiskIO.path_diskio d).
  { intros n. unfold DiskIO.get.
    destruct (String.eqb _ (DiskIO.path_diskio d)) eqn:E.
    - apply String.eqb_eq in E. split; auto.
    - apply String.eqb_neq in E. split; [discriminate|congruence]. }
  split; [|split; [|split]].
  - eapply Forall_impl; [apply cleaned_segments|]. intros x Hx. apply Hx.
  - apply Hthrow.
  - unfold DiskIO.get. fold cleaned. fold resolved.
    destruct (String.eqb resolved (DiskIO.path_diskio d)) eqn:E.
    + apply String.eqb_eq in E. split; [discriminate|congruence].
    + apply String.eqb_neq in E. split; auto.
  - intros folder size b Hne Hplain ->. split.
    + rewrite Hthrow. apply get_guard_exact; assumption.
    + assert (Hn : forall n, List.filter JS.Boolean (JS.split "/" n) = ["diskio.dat"] ->
                 DiskIO.get (DiskIO.instance (canonical folder) size b) n w
                 = (Throw ReservedNameError, w)).
      { intros n Hn. apply Hthrow. apply (get_guard_exact folder size b Hplain Hne n).
        rewrite Hn, resolve_join_plain by (repeat constructor).
        rewrite folder_path, resolve_canonical by assumption. reflexivity. }
      repeat constructor; apply Hn; reflexivity.
Qed.

(** C8 fails for a folder written with a trailing slash.  The constructor
    accepts [/data/] and stores the sentinel path as [/data//diskio.dat];
    [get] joins the folder and [diskio.dat] to [/data/diskio.dat] and
    compares the two strings.  Both name the sentinel file, which exists
    once the instance is ready, yet the strings differ: [get] raises no
    error and returns a wrapper for the sentinel. *)
Lemma get_trailing_slash_folder :
  let d := DiskIO.instance "/data/" 65536 4096 in
  let w := snd (DiskIO.ready d world_empty) in
  fst (DiskIO.constructor "/data/" 65536 world_empty) = Ok d
  /\ fst (DiskIO.ready d world_empty) = Ok d
  /\ DiskIO.path_diskio d = "/data//diskio.dat"
  /\ Path.join [DiskIO.path_folder d; "diskio.dat"] = "/data/diskio.dat"
  /\ Fs.resolve "/data/diskio.dat" = Fs.resolve (DiskIO.path_diskio d)
  /\ fst (stat "/data/diskio.dat" w) = Ok {| st_size := 61440; st_isDirectory := false |}
  /\ DiskIO.get d "diskio.dat" w = (Ok {| file_name := ["diskio.dat"]; file_ready := true |}, w)
  /\ DiskIO.get d "diskio.dat" w <> (Throw ReservedNameError, w).
Proof.
  intros d w.
  assert (Hget : DiskIO.get d "diskio.dat" w
                 = (Ok {| file_name := ["diskio.dat"]; file_ready := true |}, w))
    by reflexivity.
  split; [vm_compute; reflexivity|].
  split; [vm_compute; reflexivity|].
  split; [vm_compute; reflexivity|].
  split; [vm_compute; reflexivity|].
  split; [vm_compute; reflexivity|].
  split; [vm_compute; reflexivity|].
  split; [exact Hget|rewrite Hget; discriminate].
Qed.

(** * Further properties of the class *)

(** ** [exists] and the constructor *)

(** X1: [exists] (src/common/fs-extends.ts) never throws: whatever the
    path, what [access] raises is turned into [false], and nothing in the
    file system changes.  For an absolute path in normal form it answers
    [true] exactly when the path leads to an entry. *)
Theorem exists_never_throws (p : string) (w : world) :
  exists found : bool,
    fs_exists p w = (Ok found, add_log (EvAccess p) w)
    /\ w_fs (snd (fs_exists p w)) = w_fs w
    /\ (forall segs, Forall (fun x => plain x = true) segs -> p = canonical segs ->
          (found = true <-> is_Some (Fs.lookup (w_fs w) segs))).
Proof.
  rewrite fs_exists_run. eexists. split; [reflexivity|]. split; [reflexivity|].
  intros segs Hplain ->. rewrite resolve_canonical by exact Hplain.
  destruct (Fs.lookup (w_fs w) segs) as [n|].
  - split; [eauto|reflexivity].
  - split; [discriminate|]. intros [n Hn]. discriminate.
Qed.



(** ** The budget: [allocate] and [write] *)

(** X3: [allocate(size)] succeeds exactly when [size] is at most the
    sentinel's size.  When it succeeds the sentinel loses exactly [size]
    bytes from its end and nothing else changes; when it refuses, the file
    system is as before. *)
Theorem allocate_admits_iff_fits (d : DiskIO.t) (size : Z) (w : world)
    (sentinel_data : list Byte.byte) :
  Fs.lookup (w_fs w) (Fs.resolve (DiskIO.path_diskio d)) = Some (File sentinel_data) ->
  0 <= size ->
  (fst (DiskIO.allocate d size w) = Ok tt <-> size <= Z.of_nat (length sentinel_data))
  /\ (size <= Z.of_nat (length sentinel_data) ->
      w_fs (snd (DiskIO.allocate d size w))
      = <[Fs.resolve (DiskIO.path_diskio d) :=
            File (take (length sentinel_data - Z.to_nat size) sentinel_data)]> (w_fs w))
  /\ (size > Z.of_nat (length sentinel_data) ->
      fst (DiskIO.allocate d size w) = Throw InsufficientSpaceError
      /\ w_fs (snd (DiskIO.allocate d size w)) = w_fs w).
Proof.
  intros Hs Hsize. destruct (allocate_admission d size w sentinel_data Hs) as [Hno Hyes].
  split; [|split].
  - split.
    + intros Hok. destruct (Z_le_gt_dec size (Z.of_nat (length sentinel_data))) as [|Hgt]; [assumption|].
      rewrite (Hno Hgt) in Hok. discriminate.
    + intros Hle. now rewrite (Hyes Hle).
  - intros Hle. rewrite (Hyes Hle). cbn [snd w_fs set_fs]. do 2 f_equal.
    rewrite resize_le by lia. f_equal. lia.
  - intros Hgt. rewrite (Hno Hgt). split; reflexivity.
Qed.

Lemma allocate_admits_iff_fits_witness :
  Fs.lookup (w_fs world_file) (Fs.resolve (DiskIO.path_diskio (DiskIO.instance "/data" 65536 4096)))
  = Some (File (replicate 100 Byte.x00))
  /\ 0 <= 30
  /\ (fst (DiskIO.allocate (DiskIO.instance "/data" 65536 4096) 30 world_file) = Ok tt
      <-> 30 <= Z.of_nat (length (replicate 100 Byte.x00))).
Proof.
  assert (H1 : Fs.lookup (w_fs world_file)
                 (Fs.resolve (DiskIO.path_diskio (DiskIO.instance "/data" 65536 4096)))
               = Some (File (replicate 100 Byte.x00))) by (vm_compute; reflexivity).
  assert (H2 : 0 <= 30) by lia.
  refine (conj H1 (conj H2 _)).
  exact (proj1 (allocate_admits_iff_fits (DiskIO.instance "/data" 65536 4096) 30 world_file _ H1 H2)).
Defined.

(** X4: a write that does not fit is refused before anything happens: for
    every handle and position, data longer than the sentinel make [write]
    throw the size error after the one [stat] of the sentinel; no chunk is
    written and the world is otherwise as before. *)
Theorem write_refused_changes_nothing (d : DiskIO.t) (fh : FileHandle) (data : list Byte.byte)
    (position : Z) (w : world) (sentinel_data : list Byte.byte) :
  Fs.lookup (w_fs w) (Fs.resolve (DiskIO.path_diskio d)) = Some (File sentinel_data) ->
  (length sentinel_data < length data)%nat ->
  DiskIO.write d fh data position w
  = (Throw InsufficientSpaceError, add_log (EvStat (DiskIO.path_diskio d)) w).
Proof.
  intros Hs Hlen. unfold DiskIO.write. cbv zeta. mstep.
  destruct (allocate_admission d (Z.of_nat (length data)) w sentinel_data Hs) as [Hno _].
  rewrite Hno by lia. reflexivity.
Qed.

Lemma write_refused_changes_nothing_witness :
  Fs.lookup (w_fs world_file) (Fs.resolve (DiskIO.path_diskio (DiskIO.instance "/data" 65536 4096)))
  = Some (File (replicate 100 Byte.x00))
  /\ (length (replicate 100 Byte.x00) < length (replicate 101 Byte.x01))%nat
  /\ fst (DiskIO.write (DiskIO.instance "/data" 65536 4096) 7%nat (replicate 101 Byte.x01) 0 world_file)
     = Throw InsufficientSpaceError.
Proof.
  assert (H1 : Fs.lookup (w_fs world_file)
                 (Fs.resolve (DiskIO.path_diskio (DiskIO.instance "/data" 65536 4096)))
               = Some (File (replicate 100 Byte.x00))) by (vm_compute; reflexivity).
  assert (H2 : (length (replicate 100 Byte.x00) < length (replicate 101 Byte.x01))%nat)
    by (vm_compute; lia).
  refine (conj H1 (conj H2 _)).
  rewrite (write_refused_changes_nothing (DiskIO.instance "/data" 65536 4096) 7%nat
             (replicate 101 Byte.x01) 0 world_file _ H1 H2).
  reflexivity.
Defined.

(** X5: at position 0 a write that fits does all of what it promises: it
    succeeds, the sentinel loses exactly [len(data)] bytes, the calls are
    the [stat] and [truncate] of the admission followed by
    [ceil(len / optimal)] chunk writes of [optimal] bytes (the last one
    clipped to what is left), and the file holds the data at offsets
    [0 .. len - 1] with its bytes from [len] on untouched. *)
Theorem write_from_start (d : DiskIO.t) (fh : FileHandle) (data old sentinel_data : list Byte.byte)
    (r : list string) (w : world) :
  0 < DiskIO.optimal d ->
  Fs.lookup (w_fs w) (Fs.resolve (DiskIO.path_diskio d)) = Some (File sentinel_data) ->
  (length data <= length sentinel_data)%nat ->
  w_fds w !! fh = Some r ->
  w_fs w !! r = Some (File old) ->
  r <> Fs.resolve (DiskIO.path_diskio d) ->
  let b := DiskIO.optimal d in
  let len := Z.of_nat (length data) in
  let chunks := Z.to_nat (- ((- len) / b)) in
  exists w',
    DiskIO.write d fh data 0 w = (Ok tt, w')
    /\ w_fs w' !! r = Some (File (data ++ drop (length data) old))
    /\ w_fs w' !! Fs.resolve (DiskIO.path_diskio d)
       = Some (File (take (length sentinel_data - length data) sentinel_data))
    /\ w_fds w' = w_fds w
    /\ w_log w' = w_log w
                  ++ [EvStat (DiskIO.path_diskio d);
                      EvTruncate (DiskIO.path_diskio d) (Z.of_nat (length sentinel_data) - len)]
                  ++ chunk_writes fh b len chunks 0
    /\ length (chunk_writes fh b len chunks 0) = chunks.
Proof.
  intros Hb Hs Hfit Hfd Hfile Hne b len chunks.
  exact (write_at_position_0 d fh data old r Hb w sentinel_data Hs ltac:(lia) Hfd Hfile Hne).
Qed.

Lemma write_from_start_witness :
  exists w',
    DiskIO.write (DiskIO.instance "/data" 65536 4) 7%nat bytes8 0 world_file = (Ok tt, w')
    /\ w_fs w' !! ["data"; "f"] = Some (File (bytes8 ++ replicate 12 Byte.x09))
    /\ w_log w' = [EvStat "/data/diskio.dat"; EvTruncate "/data/diskio.dat" 92;
                   EvWrite 7 0 4 0; EvWrite 7 4 4 4].
Proof.
  destruct (write_from_start (DiskIO.instance "/data" 65536 4) 7%nat bytes8
              (replicate 20 Byte.x09) (replicate 100 Byte.x00) ["data"; "f"] world_file)
    as (w' & Hrun & Hfile & _ & _ & Hlog & _).
  - reflexivity.
  - vm_compute. reflexivity.
  - vm_compute. lia.
  - reflexivity.
  - reflexivity.
  - vm_compute. discriminate.
  - exists w'. split; [exact Hrun|]. split; [exact Hfile|exact Hlog].
Defined.

(** The round trip on 20 bytes with a block of 3. *)
Lemma write_then_read_same_size_witness :
  exists w1 w2,
    DiskIO.write (DiskIO.instance "/data" 65536 3) 7%nat (replicate 20 Byte.x05) 0 world_file
    = (Ok tt, w1)
    /\ DiskIO.read (DiskIO.instance "/data" 65536 3) 7%nat 0 20 w1 = (Ok (replicate 20 Byte.x05), w2).
Proof.
  apply (write_then_read_same_size (DiskIO.instance "/data" 65536 3) 7%nat (replicate 20 Byte.x05)
           (replicate 20 Byte.x09) (replicate 100 Byte.x00) ["data"; "f"] world_file).
  - reflexivity.
  - reflexivity.
  - vm_compute. reflexivity.
  - vm_compute. lia.
  - reflexivity.
  - reflexivity.
  - vm_compute. discriminate.
Defined.

(** ** What [read] and [write] leave alone *)

Section Frames.

Context {S : Type}.
Variable body : Z -> S -> M S.
Variable I : world -> Prop.
Hypothesis body_keeps : forall i s w, I w -> I (snd (body i s w)).

Lemma rounds_keep (n : nat) : forall i s w, I w -> I (snd (rounds n i body s w)).
Proof.
  induction n as [|n IH]; intros i s w Hw; [exact Hw|].
  cbn [rounds]. rewrite bind_run. specialize (body_keeps i s w Hw).
  destruct (body i s w) as [[s'|e] w']; [apply IH|]; exact body_keeps.
Qed.

Lemma while_keeps (bound : number) (s : S) (w : world) :
  I w -> I (snd (while_index_lt bound body s w)).
Proof.
  intros Hw. destruct bound as [n| | |]; cbn [while_index_lt]; try exact Hw.
  - now apply rounds_keep.
  - rewrite bind_run. specialize (body_keeps 0 s w Hw).
    destruct (body 0 s w) as [[s'|e] w']; exact body_keeps.
Qed.

End Frames.

Lemma fh_read_keeps (fd : FileHandle) (buffer : list Byte.byte) (offset len position : Z) (w : world) :
  w_fs (snd (fh_read fd buffer offset len position w)) = w_fs w
  /\ w_fds (snd (fh_read fd buffer offset len position w)) = w_fds w.
Proof.
  unfold fh_read, fh_file. run_monad. cbv beta. cbn [add_log w_fs w_fds].
  repeat match goal with
         | |- context [if ?c then _ else _] => destruct c
         end; try (split; reflexivity).
  cbn [add_log w_fds w_fs].
  destruct (w_fds w !! fd) as [r|]; [|split; reflexivity].
  destruct (w_fs w !! r) as [[data|]|]; split; reflexivity.
Qed.

(** X7: [read] only reads.  Whatever the handle and the range, and whether
    it returns or throws, the file system and the open handles are the
    same after the call as before it. *)
Theorem read_changes_nothing (d : DiskIO.t) (fh : FileHandle) (start end_ : Z) (w : world) :
  w_fs (snd (DiskIO.read d fh start end_ w)) = w_fs w
  /\ w_fds (snd (DiskIO.read d fh start end_ w)) = w_fds w.
Proof.
  unfold DiskIO.read. cbv zeta. rewrite bind_run.
  assert (Hstat : w_fs (snd (fh_stat fh w)) = w_fs w /\ w_fds (snd (fh_stat fh w)) = w_fds w).
  { unfold fh_stat, fh_file. run_monad. cbv beta. cbn [add_log w_fs w_fds].
    destruct (w_fds w !! fh) as [r|]; [|split; reflexivity].
    destruct (w_fs w !! r) as [[data|]|]; split; reflexivity. }
  destruct (fh_stat fh w) as [[status|e] w1]; cbn [snd] in *; [|exact Hstat].
  rewrite bind_run. unfold Buffer_alloc.
  destruct (end_ - start <? 0); [exact Hstat|]. unfold mret at 1, M_ret at 1.
  apply (while_keeps _ (fun w' => w_fs w' = w_fs w /\ w_fds w' = w_fds w)); [|exact Hstat].
  intros i s w' [Hfs Hfds].
  destruct (fh_read_keeps fh s (start + i * DiskIO.optimal d)
              (if start + i * DiskIO.optimal d + DiskIO.optimal d >? st_size status
               then st_size status - (start + i * DiskIO.optimal d) else DiskIO.optimal d)
              (start + i * DiskIO.optimal d) w') as [H1 H2].
  split; congruence.
Qed.

(** X8: a range that is empty or runs backwards never reaches the file.
    With [end = start] the result is the empty buffer; with [end < start]
    the allocation of the buffer is refused.  In both cases the only call
    made is the [stat] of the handle. *)
Theorem read_degenerate_range (d : DiskIO.t) (fh : FileHandle) (start end_ : Z) (w : world)
    (r : list string) (content : list Byte.byte) :
  w_fds w !! fh = Some r ->
  w_fs w !! r = Some (File content) ->
  end_ <= start ->
  DiskIO.read d fh start end_ w
  = (if end_ =? start then Ok [] else Throw ERR_OUT_OF_RANGE, add_log (EvFstat fh) w).
Proof.
  intros Hfd Hfile Hle. unfold DiskIO.read, fh_stat, fh_file, Buffer_alloc. cbv zeta.
  run_monad. cbv beta. cbn [add_log w_fds w_fs]. rewrite Hfd, Hfile.
  destruct (Z.eqb_spec end_ start) as [->|Hne].
  - rewrite Z.sub_diag. cbn [Z.ltb Z.compare Z.to_nat replicate]. unfold Math_ceil_div.
    destruct (DiskIO.optimal d); reflexivity.
  - assert ((end_ - start <? 0) = true) as -> by (apply Z.ltb_lt; lia). reflexivity.
Qed.

Lemma read_degenerate_range_witness :
  DiskIO.read (DiskIO.instance "/data" 65536 4096) 7%nat 5 5 world_file
  = (Ok [], add_log (EvFstat 7%nat) world_file)
  /\ DiskIO.read (DiskIO.instance "/data" 65536 4096) 7%nat 5 2 world_file
     = (Throw ERR_OUT_OF_RANGE, add_log (EvFstat 7%nat) world_file).
Proof.
  split.
  - apply (read_degenerate_range (DiskIO.instance "/data" 65536 4096) 7%nat 5 5 world_file
             ["data"; "f"] (replicate 20 Byte.x09)); [reflexivity|reflexivity|lia].
  - apply (read_degenerate_range (DiskIO.instance "/data" 65536 4096) 7%nat 5 2 world_file
             ["data"; "f"] (replicate 20 Byte.x09)); [reflexivity|reflexivity|lia].
Defined.

Lemma allocate_keeps (d : DiskIO.t) (size : Z) (w : world) (q : list string) :
  q <> Fs.resolve (DiskIO.path_diskio d) ->
  w_fs (snd (DiskIO.allocate d size w)) !! q = w_fs w !! q
  /\ w_fds (snd (DiskIO.allocate d size w)) = w_fds w.
Proof.
  intros Hq. unfold DiskIO.allocate, DiskIO.size_diskio. mstep. rewrite stat_run.
  destruct (Fs.lookup (w_fs w) (Fs.resolve (DiskIO.path_diskio d))) as [n|] eqn:E;
    [|split; reflexivity].
  mstep. cbn [st_size].
  destruct (size >? Fs.node_size (w_dirsz w) n); [split; reflexivity|].
  rewrite truncate_run. cbn [w_fs add_log]. rewrite E.
  destruct n as [data|]; [|split; reflexivity].
  cbn [snd w_fs w_fds set_fs add_log]. split; [|reflexivity].
  apply lookup_insert_ne. now apply not_eq_sym.
Qed.

Lemma fh_write_keeps (fd : FileHandle) (buffer : list Byte.byte) (offset len position : Z)
    (w : world) (q : list string) :
  w_fds w !! fd <> Some q ->
  w_fs (snd (fh_write fd buffer offset len position w)) !! q = w_fs w !! q
  /\ w_fds (snd (fh_write fd buffer offset len position w)) = w_fds w.
Proof.
  intros Hq. unfold fh_write, fh_file. run_monad. cbv beta zeta. cbn [add_log w_fs w_fds].
  repeat match goal with
         | |- context [if ?c then _ else _] => destruct c
         end; try (split; reflexivity).
  cbn [add_log w_fds w_fs].
  destruct (w_fds w !! fd) as [r|] eqn:Er; [|split; reflexivity].
  destruct (w_fs w !! r) as [[data|]|]; try (split; reflexivity).
  cbn [snd w_fs w_fds set_fs add_log]. split; [|reflexivity].
  apply lookup_insert_ne. congruence.
Qed.

(** An entry that is neither the sentinel nor the file behind the handle
    comes through every round of [write]. *)
Lemma write_frame (d : DiskIO.t) (fh : FileHandle) (data : list Byte.byte)
    (position : Z) (w : world) (q : list string) :
  q <> Fs.resolve (DiskIO.path_diskio d) ->
  w_fds w !! fh <> Some q ->
  w_fs (snd (DiskIO.write d fh data position w)) !! q = w_fs w !! q
  /\ w_fds (snd (DiskIO.write d fh data position w)) = w_fds w.
Proof.
  intros Hs Hq. unfold DiskIO.write. cbv zeta. rewrite bind_run.
  destruct (allocate_keeps d (Z.of_nat (length data)) w q Hs) as [Ha1 Ha2].
  destruct (DiskIO.allocate d (Z.of_nat (length data)) w) as [[[]|e] w1]; cbn [snd] in *;
    [|split; assumption].
  apply (while_keeps _ (fun w' => w_fs w' !! q = w_fs w !! q /\ w_fds w' = w_fds w));
    [|split; assumption].
  intros i s w' [Hfs Hfds]. rewrite bind_run.
  assert (Hq' : w_fds w' !! fh <> Some q) by (rewrite Hfds; exact Hq).
  destruct (fh_write_keeps fh data (position + i * DiskIO.optimal d)
              (if DiskIO.optimal d >? Z.of_nat (length data) - (position + i * DiskIO.optimal d)
               then Z.of_nat (length data) - (position + i * DiskIO.optimal d)
               else DiskIO.optimal d)
              (position + i * DiskIO.optimal d) w' q Hq') as [H1 H2].
  destruct (fh_write _ _ _ _ _ w') as [[z|e] w2]; unfold mret, M_ret; cbn [snd] in *;
    split; congruence.
Qed.

(** X9: [write] touches two files at most.  Whatever the data and the
    position, and whether it returns or throws, every entry other than the
    sentinel and the file behind the handle is the same after the call, and
    no handle is opened or closed. *)
Theorem write_touches_two_files (d : DiskIO.t) (fh : FileHandle) (data : list Byte.byte)
    (position : Z) (w : world) (q : list string) :
  q <> Fs.resolve (DiskIO.path_diskio d) ->
  w_fds w !! fh <> Some q ->
  w_fs (snd (DiskIO.write d fh data position w)) !! q = w_fs w !! q
  /\ w_fds (snd (DiskIO.write d fh data position w)) = w_fds w.
Proof. apply write_frame. Qed.

Lemma write_touches_two_files_witness :
  ["data"] <> Fs.resolve (DiskIO.path_diskio (DiskIO.instance "/data" 65536 4096))
  /\ w_fds world_file !! 7%nat <> Some ["data"]
  /\ w_fs (snd (DiskIO.write (DiskIO.instance "/data" 65536 4096) 7%nat bytes8 1 world_file))
       !! ["data"] = Some Dir.
Proof.
  assert (H1 : ["data"] <> Fs.resolve (DiskIO.path_diskio (DiskIO.instance "/data" 65536 4096)))
    by (vm_compute; discriminate).
  assert (H2 : w_fds world_file !! 7%nat <> Some ["data"]) by (vm_compute; discriminate).
  refine (conj H1 (conj H2 _)).
  rewrite (proj1 (write_touches_two_files (DiskIO.instance "/data" 65536 4096) 7%nat bytes8 1
                    world_file ["data"] H1 H2)).
  reflexivity.
Defined.

(** ** Stabilization *)

Section Stabilized.

Variables (path : string) (size b expected : Z) (w : world).

Let d := DiskIO.instance path size b.
Let root := Fs.resolve path.
Let sentinel := Fs.resolve path ++ [DiskIO.RESERVED_FILE].
Let old := match w_fs w !! sentinel with Some (File data) => data | _ => [] end.
Let folder := w_dirsz w + Fs.usage_below (w_dirsz w) (w_fs w) root.
Let fresh := resize (Z.to_nat (Z.max 0 (expected - folder + Z.of_nat (length old)))) Byte.x00 old.

Hypothesis folder_there : Fs.lookup (w_fs w) root = Some Dir.
Hypothesis sentinel_no_dir : w_fs w !! sentinel <> Some Dir.

Lemma stabilize_run :
  exists w',
    DiskIO.stabilize d expected w = (Ok tt, w')
    /\ w_fs w' = <[sentinel := File fresh]> (w_fs w)
    /\ w_fds w' = w_fds w /\ w_dirsz w' = w_dirsz w /\ w_block w' = w_block w.
Proof.
  assert (Hu : Fs.usage (w_dirsz w) (w_fs w) root = Some folder).
  { unfold Fs.usage. now rewrite folder_there. }
  unfold fresh, old. destruct (w_fs w !! sentinel) as [[data|]|] eqn:E; [|congruence|].
  - destruct (stabilize_present path size b expected w data folder E Hu)
      as (w' & H1 & H2 & H3 & H4 & H5 & _).
    exists w'. auto.
  - destruct (stabilize_absent path size b expected w folder E folder_there Hu)
      as (w' & H1 & H2 & H3 & H4 & H5).
    exists w'. auto.
Qed.

Lemma usage_after_stabilize (w' : world) :
  w_fs w' = <[sentinel := File fresh]> (w_fs w) -> w_dirsz w' = w_dirsz w ->
  Fs.usage (w_dirsz w') (w_fs w') root
  = Some (folder - Z.of_nat (length old) + Z.max 0 (expected - folder + Z.of_nat (length old))).
Proof.
  intros Hfs Hdz. rewrite Hfs, Hdz.
  assert (Hu : Fs.usage (w_dirsz w) (w_fs w) root = Some folder).
  { unfold Fs.usage. now rewrite folder_there. }
  rewrite (usage_insert_sentinel path _ _ _ folder Hu).
  f_equal. cbn [Fs.node_size]. unfold fresh. rewrite length_resize.
  assert (Hold : size_at (w_dirsz w) (w_fs w) sentinel = Z.of_nat (length old)).
  { unfold size_at, old. destruct (w_fs w !! sentinel) as [[data|]|]; [reflexivity|congruence|reflexivity]. }
  fold sentinel. rewrite Hold. lia.
Qed.

End Stabilized.

(** X10: [stabilize] makes the folder weigh exactly what is expected.  When
    everything in the folder but the sentinel takes no more than
    [expected] bytes, then after [stabilize(expected)] the usage [du]
    reports for the folder is [expected], and the sentinel holds the
    difference between [expected] and the rest.  The folder path is one
    the unquoted command line of [du] takes as a single word, and the
    byte counts are safe integers. *)
Theorem stabilize_fills_to_expected (path : string) (size b expected : Z) (w : world) :
  let d := DiskIO.instance path size b in
  let root := Fs.resolve path in
  let sentinel := root ++ [DiskIO.RESERVED_FILE] in
  let old := match w_fs w !! sentinel with Some (File data) => data | _ => [] end in
  let rest := w_dirsz w + Fs.usage_below (w_dirsz w) (w_fs w) root - Z.of_nat (length old) in
  shell_word (DiskIO.path_folder d) = true ->
  safe_bytes expected w root ->
  Fs.lookup (w_fs w) root = Some Dir ->
  w_fs w !! sentinel <> Some Dir ->
  rest <= expected ->
  exists w',
    DiskIO.stabilize d expected w = (Ok tt, w')
    /\ fst (DiskIO.size_folder d w') = Ok expected
    /\ fst (DiskIO.size_diskio d w') = Ok (expected - rest).
Proof.
  intros d root sentinel old rest _ _ Hroot Hs Hrest.
  destruct (stabilize_run path size b expected w Hroot Hs) as (w' & Hrun & Hfs & _ & Hdz & _).
  exists w'. split; [exact Hrun|].
  pose proof (usage_after_stabilize path expected w Hroot Hs w' Hfs Hdz) as Hu.
  split.
  - unfold DiskIO.size_folder, d. rewrite du_sb_run, resolve_folder, Hu. cbn [fst].
    f_equal. fold root sentinel old. unfold rest in Hrest. lia.
  - unfold DiskIO.size_diskio, d. mstep. rewrite stat_run, resolve_diskio.
    rewrite lookup_nonroot by apply sentinel_nonroot.
    rewrite Hfs, lookup_insert_eq. mstep. cbn [fst st_size Fs.node_size].
    rewrite length_resize. f_equal. fold root sentinel old. unfold rest in *. lia.
Qed.

Lemma stabilize_fills_to_expected_witness :
  exists w',
    DiskIO.stabilize (DiskIO.instance "/data" 65536 4096) 65536 world_file = (Ok tt, w')
    /\ fst (DiskIO.size_folder (DiskIO.instance "/data" 65536 4096) w') = Ok 65536
    /\ fst (DiskIO.size_diskio (DiskIO.instance "/data" 65536 4096) w') = Ok 61420.
Proof.
  destruct (stabilize_fills_to_expected "/data" 65536 4096 65536 world_file)
    as (w' & Hrun & Hfolder & Hdiskio).
  - reflexivity.
  - safe_bytes_holds.
  - reflexivity.
  - vm_compute. discriminate.
  - vm_compute. discriminate.
  - exists w'. split; [exact Hrun|]. split; [exact Hfolder|].
    rewrite Hdiskio. vm_compute. reflexivity.
Defined.

(** X11: [stabilize] is idempotent: a second [stabilize] with the same
    expectation, right after the first, returns as well and leaves every
    file, the sentinel included, exactly as the first one left it.  The
    folder path is one the unquoted command line of [du] takes as a
    single word, and the byte counts are safe integers. *)
Theorem stabilize_idempotent (path : string) (size b expected : Z) (w : world) :
  let d := DiskIO.instance path size b in
  let root := Fs.resolve path in
  let sentinel := root ++ [DiskIO.RESERVED_FILE] in
  shell_word (DiskIO.path_folder d) = true ->
  safe_bytes expected w root ->
  Fs.lookup (w_fs w) root = Some Dir ->
  w_fs w !! sentinel <> Some Dir ->
  exists w1 w2,
    DiskIO.stabilize d expected w = (Ok tt, w1)
    /\ DiskIO.stabilize d expected w1 = (Ok tt, w2)
    /\ w_fs w2 = w_fs w1.
Proof.
  intros d root sentinel _ _ Hroot Hs. subst d root sentinel.
  destruct (stabilize_run path size b expected w Hroot Hs) as (w1 & Hrun1 & Hfs1 & _ & Hdz1 & _).
  pose proof (usage_after_stabilize path expected w Hroot Hs w1 Hfs1 Hdz1) as Hu1.
  set (old := match w_fs w !! (Fs.resolve path ++ [DiskIO.RESERVED_FILE]) with
              | Some (File data) => data
              | _ => []
              end) in *.
  set (folder := w_dirsz w + Fs.usage_below (w_dirsz w) (w_fs w) (Fs.resolve path)) in *.
  assert (Hroot1 : Fs.lookup (w_fs w1) (Fs.resolve path) = Some Dir).
  { rewrite Hfs1, lookup_root_insert. exact Hroot. }
  assert (E1 : w_fs w1 !! (Fs.resolve path ++ [DiskIO.RESERVED_FILE])
               = Some (File (resize (Z.to_nat (Z.max 0 (expected - folder + Z.of_nat (length old))))
                               Byte.x00 old))).
  { rewrite Hfs1. apply lookup_insert_eq. }
  assert (Hs1 : w_fs w1 !! (Fs.resolve path ++ [DiskIO.RESERVED_FILE]) <> Some Dir)
    by (rewrite E1; discriminate).
  destruct (stabilize_run path size b expected w1 Hroot1 Hs1) as (w2 & Hrun2 & Hfs2 & _ & _).
  exists w1, w2. split; [exact Hrun1|]. split; [exact Hrun2|].
  rewrite Hfs2. apply insert_id. rewrite E1. do 2 f_equal.
  unfold Fs.usage in Hu1. rewrite Hroot1 in Hu1. injection Hu1 as Hu1.
  cbn [Fs.node_size] in Hu1. rewrite Hu1, length_resize.
  rewrite resize_resize by lia. f_equal. lia.
Qed.

Lemma stabilize_idempotent_witness :
  exists w1 w2,
    DiskIO.stabilize (DiskIO.instance "/data" 65536 4096) 65536 world_empty = (Ok tt, w1)
    /\ DiskIO.stabilize (DiskIO.instance "/data" 65536 4096) 65536 w1 = (Ok tt, w2)
    /\ w_fs w2 = w_fs w1.
Proof.
  apply (stabilize_idempotent "/data" 65536 4096 65536 world_empty).
  - reflexivity.
  - safe_bytes_holds.
  - reflexivity.
  - vm_compute. discriminate.
Defined.

(** ** Reading a range that starts at 0 *)

Section ReadFromStart.

Variables (d : DiskIO.t) (fh : FileHandle) (content : list Byte.byte) (r : list string) (end_ : Z).
Hypothesis block_positive : 0 < DiskIO.optimal d.
Hypothesis range_positive : 0 < end_.
Hypothesis range_inside : end_ <= Z.of_nat (length content).

Let b := DiskIO.optimal d.
Let size := Z.of_nat (length content).
Let reads := - ((- end_) / b).

(** The body of the loop of [read] for the range [0, end_). *)
Let body : Z -> list Byte.byte -> M (list Byte.byte) := fun index buffer =>
  let bufferStart := 0 + index * DiskIO.optimal d in
  let bytesToRead :=
    if bufferStart + DiskIO.optimal d >? Z.of_nat (length content)
    then Z.of_nat (length content) - bufferStart else DiskIO.optimal d in
  fh_read fh buffer bufferStart bytesToRead bufferStart.

Let reached (i : Z) : nat := Z.to_nat (Z.min (i * b) size).

Let filled (i : Z) : list Byte.byte :=
  take (reached i) content ++ replicate (Z.to_nat end_ - reached i) Byte.x00.

(** The last round asks for no more than the buffer can take. *)
Let fits : bool := Z.min (reads * b) size <=? end_.

Lemma ranged_bounds : (reads - 1) * b < end_ <= reads * b.
Proof. apply ceil_div_bounds, block_positive. Qed.

Lemma ranged_round (i : Z) (w : world) :
  0 <= i -> i < reads ->
  w_fds w !! fh = Some r ->
  w_fs w !! r = Some (File content) ->
  body i (filled i) w
  = (if (i + 1 <? reads) || fits then Ok (filled (i + 1)) else Throw ERR_OUT_OF_RANGE,
     add_log (EvRead fh (i * b) (Z.min b (size - i * b)) (i * b)) w).
Proof.
  intros Hi Hlt Hfd Hfile. pose proof ranged_bounds as Hceil.
  assert (Hb : 0 < b) by exact block_positive.
  assert (Hib : i * b < end_) by nia.
  unfold body. cbv zeta. rewrite Z.add_0_l. fold b size.
  assert (Hbytes : (if i * b + b >? size then size - i * b else b) = Z.min b (size - i * b)).
  { destruct (Z.gtb_spec (i * b + b) size); lia. }
  rewrite Hbytes.
  assert (Hr : reached i = Z.to_nat (i * b)) by (unfold reached, size in *; f_equal; lia).
  assert (Hlen : Z.of_nat (length (filled i)) = end_).
  { unfold filled. rewrite length_app, length_take, length_replicate, Hr. unfold size in *. lia. }
  unfold fh_read, fh_file. run_monad. rewrite Hlen.
  assert ((i * b <? 0) = false) as -> by (apply Z.ltb_ge; nia).
  assert ((Z.min b (size - i * b) =? 0) = false) as -> by (apply Z.eqb_neq; unfold size in *; lia).
  assert ((end_ =? 0) = false) as -> by (apply Z.eqb_neq; lia).
  assert ((Z.min b (size - i * b) <? 0) = false) as -> by (apply Z.ltb_ge; unfold size in *; lia).
  destruct ((i + 1 <? reads) || fits) eqn:Eok.
  - assert (Hfit : i * b + Z.min b (size - i * b) <= end_).
    { apply orb_true_iff in Eok as [Hnl|Hf].
      - apply Z.ltb_lt in Hnl. nia.
      - unfold fits in Hf. apply Z.leb_le in Hf. assert (i + 1 = reads \/ i + 1 < reads) as [<-|] by lia; nia. }
    rewrite (gtb_false _ _ Hfit).
    cbv beta. cbn [add_log w_fds w_fs]. rewrite Hfd, Hfile.
    do 2 f_equal. unfold Fs.pread, filled.
    assert (Hr' : reached (i + 1) = (Z.to_nat (i * b) + Z.to_nat (Z.min b (size - i * b)))%nat)
      by (unfold reached, size in *; lia).
    rewrite Hr, Hr'.
    set (k := Z.to_nat (i * b)) in *. set (c := Z.to_nat (Z.min b (size - i * b))) in *.
    assert (Hkc : (k + c <= length content)%nat) by (unfold k, c, size in *; lia).
    assert (Htk : length (take k content) = k) by (rewrite length_take; lia).
    assert (Htc : length (take c (drop k content)) = c)
      by (rewrite length_take, length_drop; lia).
    rewrite Htc.
    rewrite <- Htk at 1. rewrite take_app_length.
    replace (k + c)%nat with (length (take k content) + c)%nat at 1 by lia.
    rewrite drop_app_add', drop_replicate by reflexivity.
    rewrite app_assoc, take_take_drop. do 2 f_equal. lia.
  - apply orb_false_iff in Eok as [Hnl Hf]. apply Z.ltb_ge in Hnl.
    unfold fits in Hf. apply Z.leb_gt in Hf.
    assert (i + 1 = reads) as Hlast by lia. rewrite <- Hlast in Hf.
    rewrite gtb_true by lia. reflexivity.
Qed.

Lemma ranged_rounds (n : nat) : forall (i : Z) (w : world),
  Z.of_nat (S n) = reads - i -> 0 <= i ->
  w_fds w !! fh = Some r ->
  w_fs w !! r = Some (File content) ->
  fst (rounds (S n) i body (filled i) w)
  = if fits then Ok (take (Z.to_nat end_) content) else Throw ERR_OUT_OF_RANGE.
Proof.
  pose proof ranged_bounds as Hceil.
  induction n as [|n IH]; intros i w Hn Hi Hfd Hfile.
  - cbn [rounds]. rewrite bind_run, (ranged_round i w Hi ltac:(lia) Hfd Hfile).
    assert ((i + 1 <? reads) = false) as -> by (apply Z.ltb_ge; lia). cbn [orb].
    destruct fits eqn:Ef; [|reflexivity]. unfold mret, M_ret. cbn [fst]. f_equal.
    unfold filled. unfold fits in Ef. apply Z.leb_le in Ef.
    assert (reached (i + 1) = Z.to_nat end_) as -> by (unfold reached, size in *; nia).
    now rewrite Nat.sub_diag, app_nil_r.
  - change (rounds (S (S n)) i body (filled i) w)
      with ((s' ← body i (filled i); rounds (S n) (i + 1) body s') w).
    rewrite bind_run, (ranged_round i w Hi ltac:(lia) Hfd Hfile).
    assert ((i + 1 <? reads) = true) as -> by (apply Z.ltb_lt; lia). cbn [orb].
    apply IH; [lia|lia|exact Hfd|exact Hfile].
Qed.

Lemma fits_iff : fits = (size =? end_) || (end_ mod b =? 0).
Proof.
  pose proof ranged_bounds as Hceil. assert (Hb : 0 < b) by exact block_positive.
  unfold fits. apply eq_true_iff_eq. rewrite orb_true_iff, Z.leb_le, !Z.eqb_eq.
  split.
  - intros Hmin. destruct (Z.eq_dec size end_) as [|Hne]; [now left|right].
    assert (He : end_ = reads * b) by (unfold size in *; lia).
    rewrite He. apply Z.mod_mul. lia.
  - intros [Heq|Hmod]; [lia|].
    apply Z.mod_divide in Hmod as [q Hq]; [|lia].
    assert (q = reads) by nia. lia.
Qed.

Lemma read_ranged (w : world) :
  w_fds w !! fh = Some r ->
  w_fs w !! r = Some (File content) ->
  fst (DiskIO.read d fh 0 end_ w)
  = if (size =? end_) || (end_ mod b =? 0)
    then Ok (take (Z.to_nat end_) content) else Throw ERR_OUT_OF_RANGE.
Proof.
  intros Hfd Hfile. rewrite <- fits_iff.
  pose proof ranged_bounds as Hceil. assert (Hb : 0 < b) by exact block_positive.
  assert (Hr0 : 1 <= reads) by nia.
  unfold DiskIO.read, fh_stat, fh_file, Buffer_alloc. cbv zeta. run_monad.
  cbv beta. cbn [add_log w_fds w_fs]. rewrite Hfd, Hfile. cbn [st_size]. fold size b.
  assert ((end_ - 0 <? 0) = false) as -> by (apply Z.ltb_ge; lia).
  unfold Math_ceil_div.
  assert ((b =? 0) = false) as -> by (apply Z.eqb_neq; lia).
  cbn [while_index_lt]. rewrite Z.sub_0_r. fold reads.
  replace (replicate (Z.to_nat end_) Byte.x00) with (filled 0).
  - destruct (Z.to_nat reads) as [|n] eqn:En; [lia|].
    apply ranged_rounds; [lia|lia|exact Hfd|exact Hfile].
  - unfold filled. replace (reached 0) with 0%nat by (unfold reached, size; lia).
    rewrite take_0. cbn [app]. f_equal. lia.
Qed.

End ReadFromStart.

(** X12: when [read] of a range [0, end) inside the file works.  For a
    non-empty range that the file covers, [read] returns the first [end]
    bytes of the file exactly when the range ends where the file ends or
    [end] is a multiple of the block size; in every other case the last
    chunk asks for more bytes than the buffer holds and [read] throws. *)
Theorem read_from_start (d : DiskIO.t) (fh : FileHandle) (content : list Byte.byte)
    (r : list string) (end_ : Z) (w : world) :
  0 < DiskIO.optimal d ->
  0 < end_ ->
  end_ <= Z.of_nat (length content) ->
  w_fds w !! fh = Some r ->
  w_fs w !! r = Some (File content) ->
  fst (DiskIO.read d fh 0 end_ w)
  = if (Z.of_nat (length content) =? end_) || (end_ mod DiskIO.optimal d =? 0)
    then Ok (take (Z.to_nat end_) content) else Throw ERR_OUT_OF_RANGE.
Proof. intros Hb Hpos Hin Hfd Hfile. now apply (read_ranged d fh content r end_). Qed.

Lemma read_from_start_witness :
  fst (DiskIO.read (DiskIO.instance "/data" 65536 4) 7%nat 0 8 world_file) = Ok (replicate 8 Byte.x09)
  /\ fst (DiskIO.read (DiskIO.instance "/data" 65536 4) 7%nat 0 10 world_file) = Throw ERR_OUT_OF_RANGE.
Proof.
  split.
  - rewrite (read_from_start (DiskIO.instance "/data" 65536 4) 7%nat (replicate 20 Byte.x09)
               ["data"; "f"] 8 world_file); [reflexivity|reflexivity|lia|vm_compute; discriminate
               |reflexivity|reflexivity].
  - rewrite (read_from_start (DiskIO.instance "/data" 65536 4) 7%nat (replicate 20 Byte.x09)
               ["data"; "f"] 10 world_file); [reflexivity|reflexivity|lia|vm_compute; discriminate
               |reflexivity|reflexivity].
Defined.

(** ** Creating a file *)

Section CreatePaths.

Lemma join_canonical (l segs : list string) :
  l <> [] -> Forall (fun x => plain x = true) l -> Forall (fun x => plain x = true) segs ->
  Path.join (canonical l :: segs) = canonical (l ++ segs).
Proof.
  intros Hne Hl Hsegs.
  assert (Hseg : Forall segment segs).
  { eapply Forall_impl; [exact Hsegs|]. intros x Hx. now apply plain_segment. }
  pose proof (resolved_canonical l 0 0 Hl Hne segs Hseg) as H.
  rewrite (folder_path l 0 0 Hl Hne) in H. rewrite H.
  now rewrite resolve_join_plain, resolve_canonical.
Qed.

Lemma concat_app (l1 l2 : list string) :
  l1 <> [] -> l2 <> [] ->
  String.concat "/" (l1 ++ l2) = String.concat "/" l1 +:+ "/" +:+ String.concat "/" l2.
Proof.
  intros H1 H2. induction l1 as [|x l1 IH]; [congruence|].
  destruct l1 as [|y l1].
  - destruct l2; [congruence|reflexivity].
  - change (String.concat "/" ((x :: y :: l1) ++ l2))
      with (x +:+ "/" +:+ String.concat "/" ((y :: l1) ++ l2)).
    rewrite IH by discriminate.
    change (String.concat "/" (x :: y :: l1)) with (x +:+ "/" +:+ String.concat "/" (y :: l1)).
    now rewrite !string_app_assoc.
Qed.

Lemma canonical_app (l1 l2 : list string) :
  l1 <> [] -> l2 <> [] -> canonical (l1 ++ l2) = canonical l1 +:+ canonical l2.
Proof.
  intros H1 H2. destruct l1 as [|x l1]; [congruence|]. destruct l2 as [|y l2]; [congruence|].
  change (canonical ((x :: l1) ++ y :: l2)) with ("/" +:+ String.concat "/" ((x :: l1) ++ y :: l2)).
  rewrite concat_app by discriminate. unfold canonical. now rewrite !string_app_assoc.
Qed.

Lemma prefix_app (p t : string) : String.prefix p (p +:+ t) = true.
Proof.
  induction p as [|c p IH]; [destruct t; reflexivity|].
  change (String c p +:+ t) with (String c (p +:+ t)). cbn [String.prefix].
  destruct (ascii_dec c c); [exact IH|congruence].
Qed.

Lemma substring_all (t : string) : String.substring 0 (String.length t) t = t.
Proof. induction t as [|c t IH]; [reflexivity|]. cbn [String.length String.substring]. now rewrite IH. Qed.

Lemma length_app_string (p t : string) :
  String.length (p +:+ t) = (String.length p + String.length t)%nat.
Proof.
  induction p as [|c p IH]; [reflexivity|].
  change (String c p +:+ t) with (String c (p +:+ t)). cbn [String.length]. now rewrite IH.
Qed.

Lemma substring_app (p t : string) :
  String.substring (String.length p) (String.length t) (p +:+ t) = t.
Proof.
  induction p as [|c p IH]; [apply substring_all|].
  change (String c p +:+ t) with (String c (p +:+ t)). cbn [String.length String.substring]. exact IH.
Qed.

(** [s.replace(p, '')] removes [p] where [s] starts with it. *)
Lemma replace_prefix (p t : string) : JS.replace p "" (p +:+ t) = t.
Proof.
  assert (Hun : forall s, JS.replace p "" s
                          = if String.prefix p s
                            then "" +:+ String.substring (String.length p)
                                         (String.length s - String.length p) s
                            else match s with
                                 | EmptyString => EmptyString
                                 | String c s' => String c (JS.replace p "" s')
                                 end)
    by (intros s; destruct s; reflexivity).
  rewrite Hun, prefix_app, length_app_string.
  replace (String.length p + String.length t - String.length p)%nat with (String.length t) by lia.
  apply substring_app.
Qed.

End CreatePaths.

Section MakeDirs.

Implicit Types (fs : gmap (list string) node) (base segs pre q root : list string).

Lemma mkdir_from_existing fs pre : forall base segs,
  (forall k, (1 <= k <= length pre)%nat -> fs !! (base ++ take k pre) = Some Dir) ->
  mkdir_from fs base (pre ++ segs) = mkdir_from fs (base ++ pre) segs.
Proof.
  induction pre as [|x pre IH]; intros base segs Hdirs.
  - now rewrite app_nil_r.
  - cbn [app mkdir_from]. rewrite lookup_nonroot by (destruct base; discriminate).
    pose proof (Hdirs 1%nat ltac:(cbn [length]; lia)) as H1.
    change (take 1 (x :: pre)) with [x] in H1. rewrite H1.
    rewrite IH.
    + now rewrite <- app_assoc.
    + intros k Hk. rewrite <- app_assoc. apply (Hdirs (S k)). cbn [length]. lia.
Qed.

Lemma mkdir_from_fresh rest : forall fs base s,
  (forall t, fs !! (base ++ s :: t) = None) ->
  mkdir_from fs base (s :: rest) = (None, add_dirs fs base (s :: rest)).
Proof.
  induction rest as [|s2 rest IH]; intros fs' base s Hfresh.
  - cbn [mkdir_from add_dirs]. rewrite lookup_nonroot by (destruct base; discriminate).
    now rewrite (Hfresh []).
  - change (mkdir_from fs' base (s :: s2 :: rest))
      with (match Fs.lookup fs' (base ++ [s]) with
            | Some Dir => mkdir_from fs' (base ++ [s]) (s2 :: rest)
            | Some (File _) => (Some ENOTDIR, fs')
            | None => mkdir_from (<[base ++ [s] := Dir]> fs') (base ++ [s]) (s2 :: rest)
            end).
    rewrite lookup_nonroot by (destruct base; discriminate).
    rewrite (Hfresh []). rewrite IH; [reflexivity|].
    intros t. rewrite lookup_insert_ne.
    + rewrite <- app_assoc. apply Hfresh.
    + intros Heq. apply (f_equal (@length string)) in Heq.
      rewrite !length_app in Heq. cbn [length] in Heq. lia.
Qed.

Lemma mkdir_from_fresh_hd segs fs base :
  segs <> [] ->
  (forall t, fs !! (base ++ hd "" segs :: t) = None) ->
  mkdir_from fs base segs = (None, add_dirs fs base segs).
Proof. destruct segs as [|s rest]; [congruence|]. intros _. apply mkdir_from_fresh. Qed.

Lemma under_app root q : q <> [] -> Fs.under root (root ++ q) = true.
Proof. destruct q as [|x t]; [congruence|]. intros _. apply under_true. now exists x, t. Qed.

Lemma lookup_add_dirs_old segs : forall fs base q,
  (forall k, (1 <= k <= length segs)%nat -> q <> base ++ take k segs) ->
  add_dirs fs base segs !! q = fs !! q.
Proof.
  induction segs as [|s segs IH]; intros fs base q Hq; [reflexivity|].
  cbn [add_dirs]. rewrite IH.
  - apply lookup_insert_ne. apply not_eq_sym. apply (Hq 1%nat). cbn [length]. lia.
  - intros k Hk. rewrite <- app_assoc. apply (Hq (S k)). cbn [length]. lia.
Qed.

Lemma lookup_add_dirs_new segs : forall fs base k,
  (1 <= k <= length segs)%nat -> add_dirs fs base segs !! (base ++ take k segs) = Some Dir.
Proof.
  induction segs as [|s segs IH]; intros fs base k Hk; [cbn [length] in Hk; lia|].
  cbn [add_dirs]. destruct k as [|[|k]]; [lia| |].
  - change (take 1 (s :: segs)) with [s]. rewrite lookup_add_dirs_old; [apply lookup_insert_eq|].
    intros j Hj Heq. apply (f_equal (@length string)) in Heq.
    rewrite !length_app, !length_take in Heq. cbn [length] in Heq. lia.
  - cbn [length] in Hk. change (take (S (S k)) (s :: segs)) with ([s] ++ take (S k) segs).
    rewrite (app_assoc base [s]). apply IH. lia.
Qed.

Lemma usage_add_dirs dirsz root segs : forall fs pre,
  segs <> [] ->
  (forall t, fs !! (root ++ pre ++ hd "" segs :: t) = None) ->
  Fs.usage_below dirsz (add_dirs fs (root ++ pre) segs) root
  = Fs.usage_below dirsz fs root + Z.of_nat (length segs) * dirsz.
Proof.
  induction segs as [|s segs IH]; intros fs pre Hne Hfresh; [congruence|].
  cbn [add_dirs hd] in *.
  assert (Hu : Fs.usage_below dirsz (<[(root ++ pre) ++ [s] := Dir]> fs) root
               = Fs.usage_below dirsz fs root + dirsz).
  { rewrite usage_below_insert.
    assert (Fs.under root ((root ++ pre) ++ [s]) = true) as ->.
    { apply under_true. rewrite <- app_assoc. destruct pre as [|x pre]; [now exists s, []|].
      exists x, (pre ++ [s]). reflexivity. }
    unfold size_at. rewrite <- app_assoc. rewrite (Hfresh []). cbn [Fs.node_size]. lia. }
  destruct segs as [|s2 segs].
  - cbn [add_dirs length]. rewrite Hu. lia.
  - rewrite <- (app_assoc root pre [s]). rewrite IH.
    + rewrite (app_assoc root pre [s]), Hu. cbn [length]. lia.
    + discriminate.
    + intros t. cbn [hd]. rewrite lookup_insert_ne.
      * rewrite <- (app_assoc pre [s]). apply (Hfresh (s2 :: t)).
      * intros Heq. apply (f_equal (@length string)) in Heq.
        rewrite !length_app in Heq. cbn [length] in Heq. lia.
Qed.

End MakeDirs.

Section CreateRun.

Lemma randomUUID_run (w : world) :
  randomUUID w = (Ok (w_uuid w (w_next w)), set_next (S (w_next w)) (add_log EvRandomUUID w)).
Proof. reflexivity. Qed.

Lemma mkdir_recursive_run (p : string) (w : world) :
  mkdir_recursive p w
  = match mkdir_from (w_fs w) [] (Fs.resolve p) with
    | (None, fs') => (Ok tt, set_fs fs' (add_log (EvMkdir p) w))
    | (Some e, fs') => (Throw e, set_fs fs' (add_log (EvMkdir p) w))
    end.
Proof.
  unfold mkdir_recursive. run_monad. cbv beta. cbn [add_log w_fs].
  destruct (mkdir_from (w_fs w) [] (Fs.resolve p)) as [[e|] fs']; reflexivity.
Qed.

Lemma create_unfold (fuel : nat) (d : DiskIO.t) (name : string) :
  DiskIO.create fuel d name
  = if (String.length name =? 0)%nat then throw (Error "The name is empty")
    else
      uuid ← randomUUID;
      let path := Path.join (DiskIO.path_folder d :: JS.split "-" uuid) in
      mkdir_recursive path;;
      let filePath := Path.join [path; name] in
      taken ← fs_exists filePath;
      if (taken : bool) then
        match fuel with
        | O => throw OutOfFuel
        | Datatypes.S fuel' => DiskIO.create fuel' d name
        end
      else
        writeFile filePath [];;
        DiskIO.stabilize d (DiskIO.RESERVED_SIZE d);;
        DiskIO.get d (JS.replace (DiskIO.path_folder d) "" filePath).
Proof. destruct fuel; reflexivity. Qed.

Lemma split_canonical (l : list string) :
  l <> [] -> Forall segment l -> JS.split "/" (canonical l) = "" :: l.
Proof.
  intros Hne Hl. unfold canonical. destruct l as [|x l]; [congruence|].
  change ("/" +:+ ?t) with ("" +:+ String "/" t).
  rewrite split_app, split_concat; [reflexivity|discriminate|].
  eapply Forall_impl; [exact Hl|]. intros y Hy. apply Hy.
Qed.

Lemma plain_nonempty (s : string) : plain s = true -> (String.length s =? 0)%nat = false.
Proof. destruct s; [discriminate|reflexivity]. Qed.

Variables (folder : list string) (size b : Z).
Hypothesis folder_plain : Forall (fun x => plain x = true) folder.
Hypothesis folder_nonroot : folder <> [].

Variables (name : string) (uparts : list string) (w : world) (sentinel_data : list Byte.byte).
Hypothesis name_plain : plain name = true.
Hypothesis uuid_parts : JS.split "-" (w_uuid w (w_next w)) = uparts.
Hypothesis uuid_plain : Forall (fun x => plain x = true) uparts.
Hypothesis ancestors : forall k, (1 <= k <= length folder)%nat -> w_fs w !! take k folder = Some Dir.
Hypothesis sentinel_there : w_fs w !! (folder ++ [DiskIO.RESERVED_FILE]) = Some (File sentinel_data).
Hypothesis uuid_fresh : forall t, w_fs w !! (folder ++ hd "" uparts :: t) = None.

Lemma uuid_nonempty : uparts <> [].
Proof. rewrite <- uuid_parts. apply split_nonempty. Qed.

Lemma uuid_length : (1 <= length uparts)%nat.
Proof.
  pose proof uuid_nonempty as Hne. destruct (length uparts) eqn:El; [|lia].
  apply length_zero_iff_nil in El. congruence.
Qed.

Lemma fresh_below (t : list string) : t <> [] -> w_fs w !! (folder ++ uparts ++ t) = None.
Proof.
  intros _. pose proof uuid_nonempty as Hne. destruct uparts as [|u us]; [congruence|].
  apply (uuid_fresh (us ++ t)).
Qed.

Lemma fresh_dirs (k : nat) : (1 <= k <= length uparts)%nat -> w_fs w !! (folder ++ take k uparts) = None.
Proof.
  intros Hk. destruct uparts as [|u us]; [cbn [length] in Hk; lia|].
  destruct k as [|k]; [lia|]. apply (uuid_fresh (take k us)).
Qed.

Lemma create_run (fuel : nat) :
  let d := DiskIO.instance (canonical folder) size b in
  let usage := w_dirsz w + Fs.usage_below (w_dirsz w) (w_fs w) folder in
  let dirs := Z.of_nat (length uparts) * w_dirsz w in
  let left := Z.to_nat (Z.max 0 (size - (usage + dirs) + Z.of_nat (length sentinel_data))) in
  exists w',
    DiskIO.create fuel d name w = (Ok {| file_name := uparts ++ [name]; file_ready := true |}, w')
    /\ w_fs w' = <[folder ++ [DiskIO.RESERVED_FILE] := File (resize left Byte.x00 sentinel_data)]>
                   (<[folder ++ uparts ++ [name] := File []]> (add_dirs (w_fs w) folder uparts))
    /\ w_fds w' = w_fds w
    /\ w_dirsz w' = w_dirsz w.
Proof.
  intros d usage dirs left.
  pose proof uuid_nonempty as Hune.
  assert (Hrest : Forall (fun x => plain x = true) (uparts ++ [name])).
  { apply Forall_app. split; [exact uuid_plain|]. repeat constructor. exact name_plain. }
  assert (Hfu : Forall (fun x => plain x = true) (folder ++ uparts)).
  { apply Forall_app. split; assumption. }
  assert (Hfune : folder ++ uparts <> []) by (destruct folder; [congruence|discriminate]).
  assert (Hpf : DiskIO.path_folder d = canonical folder) by (apply folder_path; assumption).
  assert (Hpd : DiskIO.path_diskio d = canonical (folder ++ [DiskIO.RESERVED_FILE]))
    by (apply diskio_path; assumption).
  assert (Hpath : Path.join (DiskIO.path_folder d :: uparts) = canonical (folder ++ uparts)).
  { rewrite Hpf. now apply join_canonical. }
  assert (Hfile : Path.join [canonical (folder ++ uparts); name]
                  = canonical (folder ++ uparts ++ [name])).
  { rewrite join_canonical; [now rewrite <- app_assoc|assumption|assumption|].
    repeat constructor. exact name_plain. }
  assert (Hrf : Fs.resolve (canonical folder) = folder) by now apply resolve_canonical.
  rewrite create_unfold, (plain_nonempty _ name_plain).
  mstep. rewrite randomUUID_run, uuid_parts. mstep. rewrite Hpath.
  rewrite mkdir_recursive_run, resolve_canonical by exact Hfu.
  cbn [w_fs set_next add_log].
  rewrite mkdir_from_existing by exact ancestors. cbn [app].
  rewrite (mkdir_from_fresh_hd uparts (w_fs w) folder Hune uuid_fresh). mstep. rewrite Hfile.
  assert (Hfres : Fs.resolve (canonical (folder ++ uparts ++ [name])) = folder ++ uparts ++ [name]).
  { apply resolve_canonical. apply Forall_app. split; assumption. }
  assert (Hfne : folder ++ uparts ++ [name] <> []) by (destruct folder; [congruence|discriminate]).
  assert (Hfnew : add_dirs (w_fs w) folder uparts !! (folder ++ uparts ++ [name]) = None).
  { rewrite lookup_add_dirs_old; [apply fresh_below; discriminate|].
    intros k Hk Heq. apply app_inv_head in Heq. apply (f_equal (@length string)) in Heq.
    rewrite length_app, length_take in Heq. cbn [length] in Heq. lia. }
  rewrite fs_exists_run, Hfres. cbn [w_fs set_fs].
  rewrite lookup_nonroot, Hfnew by exact Hfne. mstep.
  rewrite writeFile_run, Hfres. cbn [w_fs set_fs add_log].
  rewrite lookup_nonroot, Hfnew by exact Hfne.
  assert (Hparent : removelast (folder ++ uparts ++ [name]) = folder ++ uparts).
  { rewrite app_assoc. apply removelast_last. }
  rewrite Hparent, lookup_nonroot by exact Hfune.
  assert (Hlast : add_dirs (w_fs w) folder uparts !! (folder ++ uparts) = Some Dir).
  { pose proof (lookup_add_dirs_new uparts (w_fs w) folder (length uparts)) as H.
    rewrite take_ge in H by lia. apply H. pose proof uuid_length. lia. }
  rewrite Hlast. mstep.
  set (fs4 := <[folder ++ uparts ++ [name] := File []]> (add_dirs (w_fs w) folder uparts)).
  set (w4 := set_fs fs4 _).
  assert (Hsne : folder ++ [DiskIO.RESERVED_FILE] <> folder ++ uparts ++ [name]).
  { intros Heq. rewrite Heq in sentinel_there. rewrite fresh_below in sentinel_there by discriminate.
    discriminate. }
  assert (Hs4 : w_fs w4 !! (Fs.resolve (canonical folder) ++ [DiskIO.RESERVED_FILE])
                = Some (File sentinel_data)).
  { rewrite Hrf. unfold w4, fs4. cbn [w_fs set_fs].
    rewrite lookup_insert_ne by (now apply not_eq_sym).
    rewrite lookup_add_dirs_old; [exact sentinel_there|].
    intros k Hk Heq. rewrite Heq in sentinel_there. rewrite fresh_dirs in sentinel_there by exact Hk.
    discriminate. }
  assert (Hroot : Fs.lookup (w_fs w) folder = Some Dir).
  { rewrite lookup_nonroot by exact folder_nonroot.
    rewrite <- (take_ge folder (length folder)) by lia. apply ancestors.
    destruct folder; [congruence|cbn [length]; lia]. }
  assert (Hu4 : Fs.usage (w_dirsz w4) (w_fs w4) (Fs.resolve (canonical folder)) = Some (usage + dirs)).
  { rewrite Hrf. unfold Fs.usage, w4, fs4. cbn [w_fs w_dirsz set_fs set_next add_log].
    rewrite lookup_nonroot by exact folder_nonroot.
    rewrite lookup_insert_ne.
    2:{ intros Heq. apply (f_equal (@length string)) in Heq. rewrite !length_app in Heq.
        cbn [length] in Heq. lia. }
    rewrite lookup_add_dirs_old.
    2:{ intros k Hk Heq. apply (f_equal (@length string)) in Heq.
        rewrite length_app, length_take in Heq. lia. }
    rewrite lookup_nonroot in Hroot by exact folder_nonroot. rewrite Hroot.
    cbn [Fs.node_size]. f_equal.
    rewrite usage_below_insert.
    assert (Fs.under folder (folder ++ uparts ++ [name]) = true) as ->.
    { apply under_app. intros H. apply app_eq_nil in H as [_ H]. discriminate. }
    unfold size_at. rewrite Hfnew. cbn [Fs.node_size length].
    pose proof (usage_add_dirs (w_dirsz w) folder uparts (w_fs w) [] Hune uuid_fresh) as Hdirs.
    rewrite app_nil_r in Hdirs. rewrite Hdirs. unfold usage, dirs. lia. }
  change (DiskIO.RESERVED_SIZE d) with size.
  destruct (stabilize_present (canonical folder) size b size w4 sentinel_data (usage + dirs) Hs4 Hu4)
    as (w5 & Hst & Hfs5 & Hfds5 & Hdz5 & _ & _).
  fold d in Hst. rewrite Hst. mstep.
  rewrite Hpf.
  assert (Hrep : JS.replace (canonical folder) "" (canonical (folder ++ uparts ++ [name]))
                 = canonical (uparts ++ [name])).
  { rewrite canonical_app by (auto; intros H; apply app_eq_nil in H as [_ H]; discriminate).
    apply replace_prefix. }
  rewrite Hrep. unfold DiskIO.get. cbv zeta.
  assert (Hseg : Forall segment (uparts ++ [name])).
  { eapply Forall_impl; [exact Hrest|]. intros x Hx. now apply plain_segment. }
  rewrite split_canonical by (auto; intros H; apply app_eq_nil in H as [_ H]; discriminate).
  cbn [List.filter JS.Boolean String.eqb negb]. rewrite (filter_Boolean_segments _ Hseg).
  rewrite Hpf, join_canonical, Hpd by assumption.
  assert (Hneq : String.eqb (canonical (folder ++ uparts ++ [name]))
                   (canonical (folder ++ [DiskIO.RESERVED_FILE])) = false).
  { apply String.eqb_neq. intros Heq. apply canonical_inj in Heq.
    - apply app_inv_head in Heq. apply (f_equal (@length string)) in Heq.
      rewrite length_app in Heq. cbn [length] in Heq. pose proof uuid_length. lia.
    - eapply Forall_impl; [|intros x Hx; apply plain_segment, Hx].
      apply Forall_app. split; assumption.
    - eapply Forall_impl; [|intros x Hx; apply plain_segment, Hx].
      apply Forall_app. split; [assumption|repeat constructor]. }
  rewrite Hneq. unfold await_ready, new_DiskIOFile, mret, M_ret. cbn [file_name].
  exists w5. split; [reflexivity|].
  split.
  { rewrite Hfs5, Hrf. unfold w4. cbn [w_fs set_fs]. reflexivity. }
  rewrite Hfds5, Hdz5. split; reflexivity.
Qed.

End CreateRun.

(** X13: what [create] makes.  On an instance whose folder was given in
    normal form, with the sentinel in place, a name that is one plain
    segment and an identifier whose first part is not yet taken in the
    folder: [create] returns at the first attempt the wrapper of the name
    made of the parts of the identifier followed by the file name; each part
    is now a directory inside the one before, the file exists inside the
    last one and is empty, the entries that were there are untouched (the
    sentinel apart), and the sentinel has been resized to the capacity less
    what the rest of the folder takes, the new directories included, so an
    empty file costs the budget one directory entry for each part.  The
    folder path is one the unquoted command line of [du] takes as a
    single word, the path of the file is one the operating system can
    look up, and the byte counts, the new directories counted in, are
    safe integers. *)
Theorem create_makes_file (folder : list string) (size b : Z) (fuel : nat) (name : string)
    (uparts : list string) (w : world) (sentinel_data : list Byte.byte) :
  let d := DiskIO.instance (canonical folder) size b in
  let sentinel := folder ++ [DiskIO.RESERVED_FILE] in
  let usage := w_dirsz w + Fs.usage_below (w_dirsz w) (w_fs w) folder in
  let dirs := Z.of_nat (length uparts) * w_dirsz w in
  shell_word (DiskIO.path_folder d) = true ->
  os_path (canonical (folder ++ uparts ++ [name])) = true ->
  safe_bytes size w folder ->
  usage + dirs <= MAX_SAFE_INTEGER ->
  folder <> [] ->
  Forall (fun x => plain x = true) folder ->
  (forall k, (1 <= k <= length folder)%nat -> w_fs w !! take k folder = Some Dir) ->
  w_fs w !! sentinel = Some (File sentinel_data) ->
  plain name = true ->
  JS.split "-" (w_uuid w (w_next w)) = uparts ->
  Forall (fun x => plain x = true) uparts ->
  (forall t, w_fs w !! (folder ++ hd "" uparts :: t) = None) ->
  exists w',
    DiskIO.create fuel d name w = (Ok {| file_name := uparts ++ [name]; file_ready := true |}, w')
    /\ (forall k, (1 <= k <= length uparts)%nat -> w_fs w' !! (folder ++ take k uparts) = Some Dir)
    /\ w_fs w' !! (folder ++ uparts ++ [name]) = Some (File [])
    /\ (exists left, w_fs w' !! sentinel = Some (File left)
                     /\ Z.of_nat (length left)
                        = Z.max 0 (size - (usage - Z.of_nat (length sentinel_data) + dirs)))
    /\ (forall q, q <> sentinel -> w_fs w !! q <> None -> w_fs w' !! q = w_fs w !! q).
Proof.
  intros d sentinel usage dirs _ _ _ _ Hne Hplain Hanc Hs Hname Hparts Huplain Hfresh.
  destruct (create_run folder size b Hplain Hne name uparts w sentinel_data Hname Hparts Huplain
              Hanc Hs Hfresh fuel) as (w' & Hrun & Hfs & _).
  pose proof (uuid_length uparts w Hparts) as Hlen.
  assert (Hsf : sentinel <> folder ++ uparts ++ [name]).
  { intros Heq. rewrite Heq in Hs.
    rewrite (fresh_below folder uparts w Hparts Huplain Hfresh [name]) in Hs by discriminate. discriminate. }
  assert (Hsd : forall k, (1 <= k <= length uparts)%nat -> sentinel <> folder ++ take k uparts).
  { intros k Hk Heq. rewrite Heq in Hs.
    rewrite (fresh_dirs folder uparts w Hparts Huplain Hfresh k Hk) in Hs. discriminate. }
  exists w'. split; [exact Hrun|]. rewrite Hfs. fold sentinel.
  split.
  { intros k Hk. rewrite lookup_insert_ne by (now apply Hsd).
    rewrite lookup_insert_ne; [now apply lookup_add_dirs_new|].
    intros Heq. apply app_inv_head in Heq. apply (f_equal (@length string)) in Heq.
    rewrite length_app, length_take in Heq. cbn [length] in Heq. lia. }
  split.
  { rewrite lookup_insert_ne by exact Hsf. apply lookup_insert_eq. }
  split.
  { eexists. split; [apply lookup_insert_eq|]. rewrite length_resize. fold usage dirs. lia. }
  intros q Hq Hthere. rewrite lookup_insert_ne by (now apply not_eq_sym).
  rewrite lookup_insert_ne.
  - apply lookup_add_dirs_old. intros k Hk Heq. apply Hthere. rewrite Heq.
    apply (fresh_dirs folder uparts w Hparts Huplain Hfresh k Hk).
  - intros Heq. apply Hthere. rewrite <- Heq.
    apply (fresh_below folder uparts w Hparts Huplain Hfresh [name]). discriminate.
Qed.

Lemma create_makes_file_witness :
  exists w',
    DiskIO.create 0 (DiskIO.instance "/data" 65536 4096) "a.txt" world_file
    = (Ok {| file_name := ["a1b2c3d4"; "e5f6"; "4a7b"; "8c9d"; "0123456789ab"; "a.txt"];
             file_ready := true |}, w')
    /\ w_fs w' !! ["data"; "a1b2c3d4"; "e5f6"; "4a7b"; "8c9d"; "0123456789ab"; "a.txt"]
       = Some (File []).
Proof.
  destruct (create_makes_file ["data"] 65536 4096 0 "a.txt"
              ["a1b2c3d4"; "e5f6"; "4a7b"; "8c9d"; "0123456789ab"] world_file
              (replicate 100 Byte.x00))
    as (w' & Hrun & _ & Hfile & _).
  - reflexivity.
  - reflexivity.
  - safe_bytes_holds.
  - vm_compute. discriminate.
  - discriminate.
  - repeat constructor.
  - intros k Hk. cbn [length] in Hk. assert (k = 1%nat) as -> by lia. reflexivity.
  - reflexivity.
  - reflexivity.
  - reflexivity.
  - repeat constructor.
  - intros t. unfold world_file. cbn [w_fs hd app].
    rewrite !lookup_insert_ne by (intros [=]; congruence). apply lookup_empty.
  - exists w'. split; [exact Hrun|exact Hfile].
Defined.

(** ** Creating a file and deleting it again *)

Lemma lookup_add_dirs_cases (segs : list string) :
  forall (fs : gmap (list string) node) (base q : list string),
    (exists i, (1 <= i <= length segs)%nat /\ q = base ++ take i segs)
    \/ add_dirs fs base segs !! q = fs !! q.
Proof.
  induction segs as [|s segs IH]; intros fs base q; [now right|].
  cbn [add_dirs]. destruct (decide (q = base ++ [s])) as [->|Hne].
  - left. exists 1%nat. cbn [length]. split; [lia|reflexivity].
  - destruct (IH (<[base ++ [s] := Dir]> fs) (base ++ [s]) q) as [(i & Hi & ->)|Heq].
    + left. exists (S i). cbn [length]. split; [lia|]. now rewrite <- app_assoc.
    + right. rewrite Heq. apply lookup_insert_ne. now apply not_eq_sym.
Qed.

Section CreateDelete.

Variables (folder : list string) (size b : Z).
Hypothesis folder_plain : Forall (fun x => plain x = true) folder.
Hypothesis folder_nonroot : folder <> [].

Variables (name : string) (uparts : list string) (w : world) (n : nat).
Hypothesis name_plain : plain name = true.
Hypothesis uuid_parts : JS.split "-" (w_uuid w (w_next w)) = uparts.
Hypothesis uuid_plain : Forall (fun x => plain x = true) uparts.
Hypothesis ancestors : forall k, (1 <= k <= length folder)%nat -> w_fs w !! take k folder = Some Dir.
Hypothesis sentinel_zeros :
  w_fs w !! (folder ++ [DiskIO.RESERVED_FILE]) = Some (File (replicate n Byte.x00)).
Hypothesis uuid_fresh : forall t, w_fs w !! (folder ++ hd "" uparts :: t) = None.
Hypothesis folder_stabilised :
  w_dirsz w + Fs.usage_below (w_dirsz w) (w_fs w) folder
  = Z.max size (w_dirsz w + Fs.usage_below (w_dirsz w) (w_fs w) folder - Z.of_nat n).

(** The handles open when [delete] is called, and the one it is given. *)
Variables (fds : gmap nat (list string)) (fh : FileHandle).

Lemma create_delete_run (fuel : nat) :
  let d := DiskIO.instance (canonical folder) size b in
  exists w1 w2,
    DiskIO.create fuel d name w = (Ok {| file_name := uparts ++ [name]; file_ready := true |}, w1)
    /\ DiskIO.delete d fh (uparts ++ [name]) (set_fds fds w1) = (Ok tt, w2)
    /\ w_fs w2 = w_fs w
    /\ w_fds w2 = delete fh fds.
Proof.
  intros d.
  set (sentinel := folder ++ [DiskIO.RESERVED_FILE]).
  set (file := folder ++ uparts ++ [name]).
  set (path := canonical folder).
  assert (Hrf : Fs.resolve path = folder) by now apply resolve_canonical.
  pose proof (uuid_length uparts w uuid_parts) as Hlen.
  assert (Hname : Forall (fun x => plain x = true) (uparts ++ [name])).
  { apply Forall_app. split; [exact uuid_plain|]. repeat constructor. exact name_plain. }
  assert (Hfresh_dir : forall k, (1 <= k <= length uparts)%nat -> w_fs w !! (folder ++ take k uparts) = None)
    by (intros k Hk; now apply (fresh_dirs folder uparts w uuid_parts uuid_plain uuid_fresh)).
  assert (Hfresh_file : w_fs w !! file = None)
    by (apply (fresh_below folder uparts w uuid_parts uuid_plain uuid_fresh [name]); discriminate).
  assert (Hroot : Fs.lookup (w_fs w) folder = Some Dir).
  { rewrite lookup_nonroot by exact folder_nonroot.
    rewrite <- (take_ge folder (length folder)) by lia. apply ancestors.
    destruct (length folder) eqn:El; [apply length_zero_iff_nil in El; congruence|lia]. }
  assert (Htake : forall k, (k <= length uparts)%nat -> take k (uparts ++ [name]) = take k uparts)
    by (intros k Hk; now apply take_app_le).
  assert (Hsf : sentinel <> file).
  { intros Heq. unfold sentinel in Heq. rewrite Heq in sentinel_zeros. congruence. }
  assert (Hsd : forall k, (1 <= k <= length uparts)%nat -> sentinel <> folder ++ take k uparts).
  { intros k Hk Heq. unfold sentinel in Heq. rewrite Heq, (Hfresh_dir k Hk) in sentinel_zeros.
    discriminate. }
  assert (Hfd : forall k, (k <= length uparts)%nat -> file <> folder ++ take k uparts).
  { intros k Hk Heq. apply app_inv_head in Heq. apply (f_equal (@length string)) in Heq.
    rewrite length_app, length_take in Heq. cbn [length] in Heq. lia. }
  destruct (create_run folder size b folder_plain folder_nonroot name uparts w (replicate n Byte.x00)
              name_plain uuid_parts uuid_plain ancestors sentinel_zeros uuid_fresh fuel)
    as (w1 & Hcreate & Hfs1 & Hfds1 & Hdz1).
  cbv zeta in Hfs1. fold sentinel file in Hfs1.
  set (usage := w_dirsz w + Fs.usage_below (w_dirsz w) (w_fs w) folder) in *.
  set (left := resize _ Byte.x00 (replicate n Byte.x00)) in Hfs1.
  exists w1. fold d in Hcreate.
  (* the handle is closed and the file unlinked *)
  unfold DiskIO.delete. mstep.
  rewrite fh_close_any. mstep.
  assert (Hrfd : Fs.resolve (DiskIO.path_folder d) = folder).
  { unfold d. rewrite resolve_folder. exact Hrf. }
  rewrite unlink_run, resolve_join_one, resolve_join_plain, Hrfd by exact Hname.
  cbn [w_fs set_fds add_log]. fold file.
  assert (Hfile1 : w_fs w1 !! file = Some (File [])).
  { rewrite Hfs1, lookup_insert_ne by exact Hsf. apply lookup_insert_eq. }
  assert (Hfne : file <> []) by (unfold file; destruct folder; [congruence|discriminate]).
  rewrite lookup_nonroot, Hfile1 by exact Hfne. mstep.
  set (w2 := set_fs (delete file (w_fs w1)) _).
  assert (Hw2 : forall q, w_fs w2 !! q
                          = if decide (q = file) then None
                            else if decide (q = sentinel) then Some (File left)
                            else add_dirs (w_fs w) folder uparts !! q).
  { intros q. unfold w2. cbn [w_fs set_fs]. destruct (decide (q = file)) as [->|Hq].
    - apply lookup_delete_eq.
    - rewrite lookup_delete_ne by (now apply not_eq_sym). rewrite Hfs1.
      destruct (decide (q = sentinel)) as [->|Hq'].
      + apply lookup_insert_eq.
      + rewrite !lookup_insert_ne by (now apply not_eq_sym). reflexivity. }
  (* the walk removes every directory of the identifier *)
  assert (Hnth : (uparts ++ [name]) !! length uparts = Some name) by now apply list_lookup_middle.
  assert (Hfirst : (uparts ++ [name]) !! 0%nat <> Some DiskIO.RESERVED_FILE).
  { intros Heq. destruct uparts as [|u us] eqn:Eu; [cbn [length] in Hlen; lia|].
    cbn in Heq. injection Heq as ->. pose proof (uuid_fresh []) as Hf. cbn [hd] in Hf.
    unfold sentinel in *. congruence. }
  destruct (walk_levels path size b (uparts ++ [name]) Hname 0 DiskIO.RESERVED_FILE Hfirst
              (length uparts) (length uparts) w2 name)
    as (w3 & Hwalk & Hgone & Hframe & Hfds3 & Hdz3 & _).
  { lia. }
  { exact Hnth. }
  { intros j Hj. rewrite Hrf, Htake, Hw2 by lia.
    destruct (decide _) as [Heq|_]; [symmetry in Heq; apply Hfd in Heq; [contradiction|lia]|].
    destruct (decide _) as [Heq|_]; [symmetry in Heq; apply Hsd in Heq; [contradiction|lia]|].
    now apply lookup_add_dirs_new. }
  { rewrite Hrf, lookup_nonroot, Hw2 by exact folder_nonroot.
    destruct (decide _) as [Heq|_].
    { apply (f_equal (@length string)) in Heq. unfold file in Heq. rewrite !length_app in Heq. lia. }
    destruct (decide _) as [Heq|_].
    { apply (f_equal (@length string)) in Heq. unfold sentinel in Heq. rewrite !length_app in Heq.
      cbn [length] in Heq. lia. }
    rewrite lookup_add_dirs_old.
    - rewrite lookup_nonroot in Hroot by exact folder_nonroot. exact Hroot.
    - intros k Hk Heq. apply (f_equal (@length string)) in Heq.
      rewrite length_app, length_take in Heq. lia. }
  { rewrite Hrf, take_0, app_nil_r. fold sentinel. rewrite Hw2.
    destruct (decide _) as [Heq|_]; [congruence|].
    destruct (decide _) as [_|Hn]; [discriminate|congruence]. }
  { intros j y Hj Hy. rewrite Hrf, Htake, Hw2 in Hy by lia.
    destruct (decide _) as [Heq|Hnf]; [congruence|].
    destruct (decide _) as [Heq|Hns].
    { exfalso. apply (f_equal (@length string)) in Heq. unfold sentinel in Heq.
      rewrite !length_app, length_take in Heq. cbn [length] in Heq. lia. }
    destruct (lookup_add_dirs_cases uparts (w_fs w) folder ((folder ++ take j uparts) ++ [y]))
      as [(i & Hi & Heq)|Heq].
    - rewrite <- app_assoc in Heq. apply app_inv_head in Heq.
      assert (i = S j) as ->.
      { apply (f_equal (@length string)) in Heq. rewrite length_app, !length_take in Heq.
        cbn [length] in Heq. lia. }
      split; [lia|].
      destruct (lookup_lt_is_Some_2 uparts j ltac:(lia)) as [z Hz].
      rewrite (take_S_r _ _ _ Hz) in Heq. apply app_inv_head in Heq. injection Heq as ->.
      now apply lookup_app_l_Some.
    - exfalso. apply Hy. rewrite Heq.
      destruct uparts as [|u us] eqn:Eu; [cbn [length] in Hlen; lia|].
      destruct j as [|j]; [lia|]. cbn [take]. rewrite <- app_assoc. apply (uuid_fresh (take j us ++ [y])). }
  rewrite take_ge in Hwalk by (rewrite length_app; cbn [length]; lia).
  change (DiskIO.instance path size b) with d in Hwalk. rewrite Hwalk. mstep.
  (* what is left is the folder as it was, the sentinel apart *)
  assert (Hfs3 : w_fs w3 = <[sentinel := File left]> (w_fs w)).
  { apply map_eq. intros q.
    destruct (decide (q = sentinel)) as [->|Hqs].
    { rewrite lookup_insert_eq, Hframe, Hw2.
      - destruct (decide _) as [Heq|_]; [congruence|]. destruct (decide _); congruence.
      - intros j Hj. rewrite Hrf, Htake by lia. apply Hsd. lia. }
    rewrite lookup_insert_ne by (now apply not_eq_sym).
    destruct (decide (q = file)) as [->|Hqf].
    { rewrite Hfresh_file, Hframe, Hw2.
      - destruct (decide _); congruence.
      - intros j Hj. rewrite Hrf, Htake by lia. apply Hfd. lia. }
    destruct (lookup_add_dirs_cases uparts (w_fs w) folder q) as [(i & Hi & ->)|Heq].
    - rewrite (Hfresh_dir i Hi). rewrite <- (Htake i), <- Hrf by lia. apply Hgone. lia.
    - rewrite Hframe, Hw2.
      + destruct (decide _); [congruence|]. destruct (decide _); congruence.
      + intros j Hj Hq. rewrite Hrf, Htake in Hq by lia. subst q.
        rewrite lookup_add_dirs_new, Hfresh_dir in Heq by lia. discriminate. }
  assert (Hs3 : w_fs w3 !! (Fs.resolve path ++ [DiskIO.RESERVED_FILE]) = Some (File left)).
  { rewrite Hrf, Hfs3. apply lookup_insert_eq. }
  assert (Hdz : w_dirsz w3 = w_dirsz w) by (rewrite Hdz3; exact Hdz1).
  assert (Hu3 : Fs.usage (w_dirsz w3) (w_fs w3) (Fs.resolve path)
                = Some (usage + Z.of_nat (length left) - Z.of_nat n)).
  { rewrite Hdz, Hfs3. unfold sentinel. rewrite <- Hrf.
    rewrite (usage_insert_sentinel path _ _ _ usage).
    - rewrite Hrf. unfold size_at. rewrite sentinel_zeros. cbn [Fs.node_size].
      now rewrite length_replicate.
    - rewrite Hrf. unfold Fs.usage. rewrite Hroot. reflexivity. }
  destruct (stabilize_present path size b size w3 left _ Hs3 Hu3) as (w4 & Hst & Hfs4 & Hfds4 & _).
  change (DiskIO.stabilize d (DiskIO.RESERVED_SIZE d) w3)
    with (DiskIO.stabilize (DiskIO.instance path size b) size w3).
  rewrite Hst. exists w4. split; [exact Hcreate|]. split; [reflexivity|].
  split.
  - rewrite Hfs4, Hrf, Hfs3. fold sentinel. rewrite insert_insert_eq. apply insert_id.
    unfold sentinel. rewrite sentinel_zeros. do 2 f_equal.
    unfold left. rewrite !resize_replicate, !length_replicate. f_equal.
    unfold usage in *. lia.
  - rewrite Hfds4, Hfds3. unfold w2. cbn [w_fds set_fs set_fds add_log]. reflexivity.
Qed.

End CreateDelete.

(** X14: creating a file and deleting it again leaves the folder as it
    was.  On a stabilized folder whose sentinel holds zero bytes (as
    [truncate] fills it), [create] followed by [delete] of the name it
    returned succeeds and restores the file system entry for entry: the
    file and the directories of its identifier are gone and the sentinel
    is back at its former size and content.  This holds whatever handles
    [fds] are open when [delete] is called and whichever of them it is
    given; that one is not open afterwards.  The folder path is one the
    unquoted command line of [du] takes as a single word, the path of the
    file is one the operating system can look up, and the byte counts,
    the new directories counted in, are safe integers. *)
Theorem create_then_delete_restores (folder : list string) (size b : Z) (fuel : nat)
    (name : string) (uparts : list string) (w : world) (n : nat)
    (fds : gmap nat (list string)) (fh : FileHandle) :
  let d := DiskIO.instance (canonical folder) size b in
  let usage := w_dirsz w + Fs.usage_below (w_dirsz w) (w_fs w) folder in
  let dirs := Z.of_nat (length uparts) * w_dirsz w in
  shell_word (DiskIO.path_folder d) = true ->
  os_path (canonical (folder ++ uparts ++ [name])) = true ->
  safe_bytes size w folder ->
  usage + dirs <= MAX_SAFE_INTEGER ->
  folder <> [] ->
  Forall (fun x => plain x = true) folder ->
  (forall k, (1 <= k <= length folder)%nat -> w_fs w !! take k folder = Some Dir) ->
  w_fs w !! (folder ++ [DiskIO.RESERVED_FILE]) = Some (File (replicate n Byte.x00)) ->
  usage = Z.max size (usage - Z.of_nat n) ->
  plain name = true ->
  JS.split "-" (w_uuid w (w_next w)) = uparts ->
  Forall (fun x => plain x = true) uparts ->
  (forall t, w_fs w !! (folder ++ hd "" uparts :: t) = None) ->
  exists f w1 w2,
    DiskIO.create fuel d name w = (Ok f, w1)
    /\ DiskIO.delete d fh (file_name f) (set_fds fds w1) = (Ok tt, w2)
    /\ w_fs w2 = w_fs w
    /\ w_fds w2 = delete fh fds.
Proof.
  intros d usage dirs _ _ _ _ Hne Hplain Hanc Hs Hstab Hname Hparts Huplain Hfresh.
  destruct (create_delete_run folder size b Hplain Hne name uparts w n Hname Hparts Huplain Hanc Hs
              Hfresh Hstab fds fh fuel) as (w1 & w2 & Hc & Hd & Hfs & Hfds).
  exists {| file_name := uparts ++ [name]; file_ready := true |}, w1, w2.
  cbn [file_name]. auto.
Qed.

Lemma create_then_delete_restores_witness :
  exists f w1 w2,
    DiskIO.create 0 (DiskIO.instance "/data" 1024 64) "a.txt" world_small = (Ok f, w1)
    /\ DiskIO.delete (DiskIO.instance "/data" 1024 64) 7%nat (file_name f)
         (set_fds (<[ 7%nat := ["data"; "a1b2c3d4"; "e5f6"; "4a7b"; "8c9d"; "0123456789ab"; "a.txt"] ]> ∅)
            w1)
       = (Ok tt, w2)
    /\ w_fs w2 = w_fs world_small.
Proof.
  destruct (create_then_delete_restores ["data"] 1024 64 0 "a.txt"
              ["a1b2c3d4"; "e5f6"; "4a7b"; "8c9d"; "0123456789ab"] world_small 960
              (<[ 7%nat := ["data"; "a1b2c3d4"; "e5f6"; "4a7b"; "8c9d"; "0123456789ab"; "a.txt"] ]> ∅)
              7%nat)
    as (f & w1 & w2 & Hc & Hd & Hfs & _).
  - reflexivity.
  - reflexivity.
  - safe_bytes_holds.
  - vm_compute. discriminate.
  - discriminate.
  - repeat constructor.
  - intros k Hk. cbn [length] in Hk. assert (k = 1%nat) as -> by lia. reflexivity.
  - vm_compute. reflexivity.
  - vm_compute. reflexivity.
  - reflexivity.
  - reflexivity.
  - repeat constructor.
  - intros t. unfold world_small. cbn [w_fs hd app].
    rewrite !lookup_insert_ne by (intros [=]; congruence). apply lookup_empty.
  - exists f, w1, w2. split; [exact Hc|]. split; [exact Hd|exact Hfs].
Defined.

(** ** The report of [df] *)

Section DfLine.

Lemma split_lacks (c : ascii) (s : string) : lacks c s = true -> JS.split c s = [s].
Proof.
  induction s as [|a s IH]; [reflexivity|]. cbn [lacks JS.split].
  intros [Ha Hs]%andb_prop. apply negb_true_iff in Ha. rewrite Ha, (IH Hs). reflexivity.
Qed.

Lemma split_concat_lacks (c : ascii) (l : list string) :
  l <> [] -> Forall (fun x => lacks c x = true) l ->
  JS.split c (String.concat (String c "") l) = l.
Proof.
  induction l as [|x l IH]; [congruence|]. intros _ Hall.
  inversion Hall as [|? ? Hx Hl]; subst.
  destruct l as [|y l].
  - cbn [String.concat]. now apply split_lacks.
  - change (String.concat (String c "") (x :: y :: l))
      with (x +:+ String c (String.concat (String c "") (y :: l))).
    rewrite split_app, (split_lacks c x Hx), IH; [reflexivity|discriminate|assumption].
Qed.

Lemma lacks_app (c : ascii) (s t : string) :
  lacks c (s +:+ t) = lacks c s && lacks c t.
Proof.
  induction s as [|a s IH]; [reflexivity|].
  change (String a s +:+ t) with (String a (s +:+ t)). cbn [lacks]. rewrite IH. now rewrite andb_assoc.
Qed.

Lemma lacks_spaces (n : nat) : lacks "010" (spaces n) = true.
Proof. induction n; [reflexivity|exact IHn]. Qed.

Lemma lacks_df_line (rest : list (nat * string)) : forall first,
  token first -> Forall (fun gt => token gt.2) rest -> lacks "010" (df_line first rest) = true.
Proof.
  induction rest as [|[g t] rest IH]; intros first Hf Hall; [apply Hf|].
  inversion Hall as [|? ? Ht Hrest]; subst. cbn [df_line].
  rewrite !lacks_app, lacks_spaces, IH by assumption.
  destruct Hf as (_ & _ & ->). reflexivity.
Qed.

Lemma collapse_token (t s : string) (in_run : bool) :
  t <> "" -> lacks " " t = true ->
  JS.collapse_spaces in_run (t +:+ s) = t +:+ JS.collapse_spaces false s.
Proof.
  intros Hne Hl. revert in_run. induction t as [|a t IH]; intros in_run; [congruence|].
  change (String a t +:+ s) with (String a (t +:+ s)). cbn [JS.collapse_spaces lacks] in *.
  apply andb_prop in Hl as [Ha Ht]. apply negb_true_iff in Ha. rewrite Ha.
  destruct t as [|a' t']; [reflexivity|].
  rewrite IH by (auto; discriminate). reflexivity.
Qed.

Lemma collapse_token_end (t : string) (in_run : bool) :
  lacks " " t = true -> JS.collapse_spaces in_run t = t.
Proof.
  revert in_run. induction t as [|a t IH]; intros in_run Hl; [reflexivity|].
  cbn [JS.collapse_spaces lacks] in *.
  apply andb_prop in Hl as [Ha Ht]. apply negb_true_iff in Ha. rewrite Ha. now rewrite IH.
Qed.

Lemma collapse_gap (g : nat) (s : string) :
  JS.collapse_spaces true (spaces g +:+ s) = JS.collapse_spaces true s.
Proof. induction g as [|g IH]; [reflexivity|exact IH]. Qed.

(** The runs of spaces of a line collapse to the separators of its
    columns. *)
Lemma collapse_df_line (rest : list (nat * string)) : forall first in_run,
  token first -> Forall (fun gt => token gt.2) rest ->
  JS.collapse_spaces in_run (df_line first rest) = String.concat " " (first :: map snd rest).
Proof.
  induction rest as [|[g t] rest IH]; intros first in_run Hf Hall.
  - cbn [df_line map String.concat]. apply collapse_token_end, Hf.
  - inversion Hall as [|? ? Ht Hrest]; subst. cbn [df_line map snd].
    rewrite collapse_token by apply Hf.
    change (spaces (S g) +:+ df_line t rest) with (String " " (spaces g +:+ df_line t rest)).
    cbn [JS.collapse_spaces Ascii.eqb Bool.eqb]. rewrite collapse_gap, (IH t true Ht Hrest).
    reflexivity.
Qed.

End DfLine.

(** X15: what [information.disk] reads.  When the output of [df] has a
    header line and then a line of columns separated by runs of spaces,
    the result holds the first six columns of that line in order:
    [filesystem], [size], [used], [available] (through [Number]),
    [capacity] and [mount]; the width of the runs of spaces and whatever
    follows the line do not matter.  A seventh column is dropped, so a
    mount point with a space in it is cut at the space, and a column the
    line does not have is [undefined]. *)
Theorem information_disk_columns (exec : string -> M string) (Number_of : option string -> float)
    (d : DiskIO.t) (w w' : world) (header first tail : string) (rest : list (nat * string)) :
  exec ("df -k " +:+ DiskIO.path_folder d) w
  = (Ok (header +:+ String "010" (df_line first rest +:+ tail)), w') ->
  lacks "010" header = true ->
  token first ->
  Forall (fun gt => token gt.2) rest ->
  tail = "" \/ (exists t, tail = String "010" t) ->
  let columns := first :: map snd rest in
  DiskIO.information_disk exec Number_of d w
  = (Ok {| di_filesystem := nth_error columns 0;
           di_size := Number_of (nth_error columns 1);
           di_used := Number_of (nth_error columns 2);
           di_available := Number_of (nth_error columns 3);
           di_capacity := nth_error columns 4;
           di_mount := nth_error columns 5 |}, w').
Proof.
  intros Hexec Hheader Hfirst Hrest Htail columns.
  unfold DiskIO.information_disk. rewrite bind_run, Hexec.
  assert (Hline : nth_error (JS.split "010" (header +:+ String "010" (df_line first rest +:+ tail))) 1
                  = Some (df_line first rest)).
  { rewrite split_app, (split_lacks _ _ Hheader). cbn [app nth_error].
    destruct Htail as [->|[t ->]].
    - assert (df_line first rest +:+ "" = df_line first rest) as ->.
      { generalize (df_line first rest). intros s. induction s as [|a s IH]; [reflexivity|].
        change (String a s +:+ "") with (String a (s +:+ "")). now rewrite IH. }
      now rewrite (split_lacks _ _ (lacks_df_line rest first Hfirst Hrest)).
    - rewrite split_app, (split_lacks _ _ (lacks_df_line rest first Hfirst Hrest)). reflexivity. }
  rewrite Hline. cbv zeta. unfold JS.replace_space_runs.
  rewrite (collapse_df_line rest first false Hfirst Hrest).
  change (String.concat " " (first :: map snd rest)) with (String.concat (String " " "") columns).
  rewrite split_concat_lacks; [reflexivity|discriminate|].
  unfold columns. constructor; [apply Hfirst|].
  apply Forall_map. eapply Forall_impl; [exact Hrest|]. intros [g t] Ht. apply Ht.
Qed.

Lemma information_disk_columns_witness :
  fst (DiskIO.information_disk exec_df (fun _ => 0%float) (DiskIO.instance "/data" 65536 4096)
         world_empty)
  = Ok {| di_filesystem := Some "/dev/sda1"; di_size := 0%float; di_used := 0%float;
          di_available := 0%float; di_capacity := Some "41%"; di_mount := Some "/mnt/my" |}.
Proof.
  rewrite (information_disk_columns exec_df (fun _ => 0%float) (DiskIO.instance "/data" 65536 4096)
             world_empty world_empty "Filesystem     1K-blocks     Used Available Use% Mounted on"
             "/dev/sda1" (String "010" "")
             [(5%nat, "41251136"); (0%nat, "16770720"); (1%nat, "24464032"); (2%nat, "41%");
              (0%nat, "/mnt/my"); (0%nat, "disk")]).
  - reflexivity.
  - reflexivity.
  - reflexivity.
  - repeat split; discriminate.
  - repeat constructor; discriminate.
  - right. now exists "".
Defined.

(** X16: [information.disk] on an output of one line.  When what [df]
    prints has no line break, there is no second line to read, and the call
    throws (a [TypeError] on reading [replace] of [undefined]) instead of
    returning a report. *)
Theorem information_disk_one_line (exec : string -> M string) (Number_of : option string -> float)
    (d : DiskIO.t) (w w' : world) (stdout : string) :
  exec ("df -k " +:+ DiskIO.path_folder d) w = (Ok stdout, w') ->
  lacks "010" stdout = true ->
  DiskIO.information_disk exec Number_of d w
  = (Throw (Error "Cannot read properties of undefined (reading 'replace')"), w').
Proof.
  intros Hexec Hl. unfold DiskIO.information_disk.
  rewrite bind_run, Hexec, (split_lacks _ _ Hl). reflexivity.
Qed.

Lemma information_disk_one_line_witness :
  fst (DiskIO.information_disk (fun _ => mret "") (fun _ => 0%float)
         (DiskIO.instance "/data" 65536 4096) world_empty)
  = Throw (Error "Cannot read properties of undefined (reading 'replace')").
Proof.
  rewrite (information_disk_one_line (fun _ => mret "") (fun _ => 0%float)
             (DiskIO.instance "/data" 65536 4096) world_empty world_empty "");
    reflexivity.
Defined.

(** ** Names that lead back to a directory *)

Section DotNames.

Implicit Types (fs : gmap (list string) node) (base segs q : list string).

Lemma mkdir_from_keeps segs : forall fs base e fs' q v,
  mkdir_from fs base segs = (e, fs') -> fs !! q = Some v -> fs' !! q = Some v.
Proof.
  induction segs as [|s segs IH]; intros fs base e fs' q v Hmk Hq.
  - cbn [mkdir_from] in Hmk. now injection Hmk as <- <-.
  - cbn [mkdir_from] in Hmk. rewrite lookup_nonroot in Hmk by (destruct base; discriminate).
    destruct (fs !! (base ++ [s])) as [[data|]|] eqn:E.
    + now injection Hmk as <- <-.
    + eapply IH; eauto.
    + eapply IH; [exact Hmk|]. rewrite lookup_insert_ne; [exact Hq|]. congruence.
Qed.

Lemma mkdir_from_ok segs : forall fs base fs',
  mkdir_from fs base segs = (None, fs') ->
  Fs.lookup fs base = Some Dir ->
  forall k, Fs.lookup fs' (base ++ take k segs) = Some Dir.
Proof.
  induction segs as [|s segs IH]; intros fs base fs' Hmk Hbase k.
  - cbn [mkdir_from] in Hmk. injection Hmk as <-. now rewrite take_nil, app_nil_r.
  - assert (Hkeep : Fs.lookup fs' base = Some Dir).
    { destruct base as [|x base']; [reflexivity|]. cbn [Fs.lookup] in *.
      eapply mkdir_from_keeps; eauto. }
    destruct k as [|k]; [now rewrite take_0, app_nil_r|].
    cbn [mkdir_from] in Hmk. rewrite lookup_nonroot in Hmk by (destruct base; discriminate).
    change (take (S k) (s :: segs)) with ([s] ++ take k segs). rewrite app_assoc.
    destruct (fs !! (base ++ [s])) as [[data|]|] eqn:E.
    + destruct segs; discriminate.
    + apply (IH fs (base ++ [s]) fs' Hmk).
      rewrite lookup_nonroot by (destruct base; discriminate). exact E.
    + apply (IH _ (base ++ [s]) fs' Hmk).
      rewrite lookup_nonroot by (destruct base; discriminate). apply lookup_insert_eq.
Qed.

Lemma resolve_join_dot (p : string) : Fs.resolve (Path.join [p; "."]) = Fs.resolve p.
Proof.
  rewrite resolve_join. cbn [flat_map JS.split]. rewrite app_nil_r.
  change (JS.split "/" ".") with ["."]. rewrite walk_app. reflexivity.
Qed.

Lemma resolve_join_dotdot (p : string) : Fs.resolve (Path.join [p; ".."]) = removelast (Fs.resolve p).
Proof.
  rewrite resolve_join. cbn [flat_map JS.split]. rewrite app_nil_r.
  change (JS.split "/" "..") with [".."]. rewrite walk_app, resolve_unfold.
  cbn [fold_left]. unfold Fs.walk_step at 1. cbn [String.eqb Ascii.eqb Bool.eqb].
  destruct (fold_left Fs.walk_step (JS.split "/" p) []) as [|x l]; [reflexivity|].
  cbn [tail rev]. now rewrite removelast_last.
Qed.

Lemma removelast_take (l : list string) : removelast l = take (length l - 1) l.
Proof.
  induction l as [|x l IH]; [reflexivity|]. destruct l as [|y l]; [reflexivity|].
  change (removelast (x :: y :: l)) with (x :: removelast (y :: l)). rewrite IH.
  cbn [length]. replace (S (S (length l)) - 1)%nat with (S (S (length l) - 1)) by lia.
  reflexivity.
Qed.

End DotNames.

(** A name that is [.] or [..] is found taken at every attempt. *)
Lemma create_dot_not_ok (fuel : nat) (d : DiskIO.t) (name : string) (w : world)
    (f : DiskIOFile) (w' : world) :
  name = "." \/ name = ".." ->
  DiskIO.create fuel d name w <> (Ok f, w').
Proof.
  intros Hname. revert w. induction fuel as [|fuel IH]; intros w Hrun;
    rewrite create_unfold in Hrun;
    (assert ((String.length name =? 0)%nat = false) as Hlen by (destruct Hname; subst; reflexivity));
    rewrite Hlen in Hrun; cbv zeta in Hrun;
    apply bind_ok_inv in Hrun as (uuid & w1 & _ & Hrun);
    apply bind_ok_inv in Hrun as ([] & w2 & Hmk & Hrun);
    apply bind_ok_inv in Hrun as (taken & w3 & Hex & Hrun);
    rewrite mkdir_recursive_run in Hmk;
    (destruct (mkdir_from (w_fs w1) [] (Fs.resolve (Path.join (DiskIO.path_folder d :: JS.split "-" uuid))))
       as [[e|] fs'] eqn:Emk; [discriminate|]);
    injection Hmk as <-;
    rewrite fs_exists_run in Hex; cbn [w_fs set_fs] in Hex;
    (assert (Htaken : taken = true);
     [ pose proof (mkdir_from_ok _ _ _ _ Emk eq_refl) as Hdirs; cbn [app] in Hdirs;
       destruct Hname as [-> | ->];
       [ rewrite resolve_join_dot in Hex;
         specialize (Hdirs (length (Fs.resolve (Path.join (DiskIO.path_folder d :: JS.split "-" uuid)))));
         rewrite take_ge in Hdirs by lia; rewrite Hdirs in Hex; congruence
       | rewrite resolve_join_dotdot, removelast_take, Hdirs in Hex; congruence ]
     | subst taken ]).
  - discriminate.
  - exact (IH _ Hrun).
Qed.

(** X17: the names [.] and [..] are never created.  For an instance and a
    state whatever they are, [create] with one of these names returns no
    file, however many attempts it is given: the path such a name leads to
    is the directory [create] has just made, or its parent, so every attempt
    that gets as far as the check finds the path taken and starts again
    with a new identifier, leaving its directories behind.  The call ends
    in an error, [OutOfFuel] standing for the attempts going on. *)
Theorem create_dot_never_returns (fuel : nat) (d : DiskIO.t) (name : string) (w : world) :
  name = "." \/ name = ".." ->
  exists e w', DiskIO.create fuel d name w = (Throw e, w').
Proof.
  intros Hname. destruct (DiskIO.create fuel d name w) as [[f|e] w'] eqn:E; [|eauto].
  exfalso. exact (create_dot_not_ok fuel d name w f w' Hname E).
Qed.

Lemma create_dot_never_returns_witness :
  exists e w', DiskIO.create 2 (DiskIO.instance "/data" 65536 4096) ".." world_file = (Throw e, w').
Proof. apply create_dot_never_returns. now right. Defined.

(** ** [delete] and [ready] at their edges *)

(** X18: [delete] of a name that leads to no regular file.  The handle is
    closed first, whatever the name and whether it was open or not; the
    unlink then fails, with [EISDIR] when the name leads to a directory,
    with [ENOTDIR] when a regular file stands on the way, with [ENOENT]
    when nothing is there.  [delete] throws that error with the handle
    gone; no directory is visited, the sentinel is not stabilized and the
    file system is as before.  The path is one the operating system can
    look up ([os_path]). *)
Theorem delete_fails_after_closing (d : DiskIO.t) (fh : FileHandle) (name : list string)
    (w : world) :
  let path := Path.join [Path.join (DiskIO.path_folder d :: name)] in
  let r := Fs.resolve path in
  os_path path = true ->
  (forall data, Fs.lookup (w_fs w) r <> Some (File data)) ->
  DiskIO.delete d fh name w
  = (Throw (match Fs.lookup (w_fs w) r with
            | Some _ => EISDIR
            | None => Fs.obstacle (w_fs w) [] r
            end),
     add_log (EvUnlink path) (set_fds (delete fh (w_fds w)) (add_log (EvClose fh) w))).
Proof.
  intros path r _ Hno. unfold DiskIO.delete. mstep. rewrite fh_close_any. mstep.
  rewrite unlink_run. cbn [w_fs set_fds add_log]. fold path r.
  destruct (Fs.lookup (w_fs w) r) as [[data|]|] eqn:E.
  - exfalso. exact (Hno data eq_refl).
  - reflexivity.
  - reflexivity.
Qed.

Lemma delete_fails_after_closing_witness :
  fst (DiskIO.delete (DiskIO.instance "/data" 65536 4096) 7%nat ["a"; "b"; "gone.txt"] world_tree)
  = Throw ENOENT
  /\ fst (DiskIO.delete (DiskIO.instance "/data" 65536 4096) 7%nat ["a"; "g.txt"; "x"] world_tree)
     = Throw ENOTDIR
  /\ fst (DiskIO.delete (DiskIO.instance "/data" 65536 4096) 7%nat ["a"] world_tree)
     = Throw EISDIR
  /\ w_fs (snd (DiskIO.delete (DiskIO.instance "/data" 65536 4096) 7%nat ["a"] world_tree))
     = w_fs world_tree.
Proof.
  assert (H1 := delete_fails_after_closing (DiskIO.instance "/data" 65536 4096) 7%nat
                  ["a"; "b"; "gone.txt"] world_tree eq_refl
                  ltac:(intros data; vm_compute; discriminate)).
  assert (H2 := delete_fails_after_closing (DiskIO.instance "/data" 65536 4096) 7%nat
                  ["a"; "g.txt"; "x"] world_tree eq_refl
                  ltac:(intros data; vm_compute; discriminate)).
  assert (H3 := delete_fails_after_closing (DiskIO.instance "/data" 65536 4096) 7%nat
                  ["a"] world_tree eq_refl
                  ltac:(intros data; vm_compute; discriminate)).
  rewrite H1, H2, H3. cbn [fst snd].
  split; [vm_compute; reflexivity|]. split; [vm_compute; reflexivity|].
  split; [vm_compute; reflexivity|reflexivity].
Defined.

(** X19: what [ready] settles.  On a folder that exists, [ready]
    stabilizes the folder to the capacity and then replaces the block size
    of 4096 the instance started with by the block size of the file system
    holding the folder; the capacity and the two paths stay as they are.
    Afterwards the sentinel is a file and the folder weighs the capacity,
    or more when its content alone exceeds it.  The folder path is one
    the unquoted command lines of [du] and [stat] take as a single word,
    and the byte counts are safe integers. *)
Theorem ready_settles (path : string) (size b : Z) (w : world) :
  let d := DiskIO.instance path size b in
  let root := Fs.resolve path in
  let sentinel := root ++ [DiskIO.RESERVED_FILE] in
  let old := match w_fs w !! sentinel with Some (File data) => data | _ => [] end in
  let rest := w_dirsz w + Fs.usage_below (w_dirsz w) (w_fs w) root - Z.of_nat (length old) in
  shell_word (DiskIO.path_folder d) = true ->
  safe_bytes size w root ->
  Fs.lookup (w_fs w) root = Some Dir ->
  w_fs w !! sentinel <> Some Dir ->
  exists w',
    DiskIO.ready d w = (Ok (DiskIO.instance path size (w_block w)), w')
    /\ fst (DiskIO.size_diskio d w') = Ok (Z.max 0 (size - rest))
    /\ fst (DiskIO.size_folder d w') = Ok (Z.max size rest).
Proof.
  intros d root sentinel old rest _ _ Hroot Hs.
  destruct (stabilize_run path size b size w Hroot Hs) as (w1 & Hrun & Hfs & Hfds & Hdz & Hblock).
  pose proof (usage_after_stabilize path size w Hroot Hs w1 Hfs Hdz) as Hu.
  fold root sentinel old in Hu, Hfs.
  assert (Hroot1 : Fs.lookup (w_fs w1) root = Some Dir).
  { rewrite Hfs. unfold sentinel, root. rewrite lookup_root_insert. exact Hroot. }
  unfold DiskIO.ready.
  change (DiskIO.stabilize d (DiskIO.RESERVED_SIZE d))
    with (DiskIO.stabilize (DiskIO.instance path size b) size).
  mstep. rewrite Hrun. mstep.
  unfold DiskIO.size_block, stat_f_S. run_monad. cbv beta. cbn [add_log w_fs w_block].
  unfold d at 1. rewrite resolve_folder. fold root. rewrite Hroot1, Hblock.
  eexists. split; [reflexivity|].
  split.
  - unfold DiskIO.size_diskio, d. mstep. rewrite stat_run, resolve_diskio. cbn [w_fs add_log].
    fold root sentinel. rewrite lookup_nonroot by apply sentinel_nonroot.
    rewrite Hfs, lookup_insert_eq. mstep. cbn [fst st_size Fs.node_size].
    rewrite length_resize. f_equal. unfold rest. lia.
  - unfold DiskIO.size_folder, d. rewrite du_sb_run, resolve_folder. cbn [w_fs w_dirsz add_log].
    fold root. rewrite Hu. cbn [fst]. f_equal. unfold rest. lia.
Qed.

Lemma ready_settles_witness :
  exists w',
    DiskIO.ready (DiskIO.instance "/data" 1024 4096) world_small
    = (Ok (DiskIO.instance "/data" 1024 64), w')
    /\ fst (DiskIO.size_folder (DiskIO.instance "/data" 1024 4096) w') = Ok 1024.
Proof.
  destruct (ready_settles "/data" 1024 4096 world_small) as (w' & Hrun & _ & Hfolder).
  - reflexivity.
  - safe_bytes_holds.
  - reflexivity.
  - vm_compute. discriminate.
  - exists w'. split; [exact Hrun|]. rewrite Hfolder. vm_compute. reflexivity.
Defined.

(** ** What a write does to the weight of the folder *)

Lemma fh_write_keeps_dirsz (fd : FileHandle) (buffer : list Byte.byte) (offset len position : Z)
    (w : world) :
  w_dirsz (snd (fh_write fd buffer offset len position w)) = w_dirsz w.
Proof.
  unfold fh_write, fh_file. run_monad. cbv beta zeta. cbn [add_log w_fs w_fds].
  repeat match goal with
         | |- context [if ?c then _ else _] => destruct c
         end; try reflexivity.
  cbn [add_log w_fds w_fs].
  destruct (w_fds w !! fd) as [r|]; [|reflexivity].
  destruct (w_fs w !! r) as [[old|]|]; reflexivity.
Qed.

Lemma write_keeps_dirsz (d : DiskIO.t) (fh : FileHandle) (data : list Byte.byte) (position : Z)
    (w : world) :
  w_dirsz (snd (DiskIO.write d fh data position w)) = w_dirsz w.
Proof.
  unfold DiskIO.write. cbv zeta. rewrite bind_run.
  assert (Ha : w_dirsz (snd (DiskIO.allocate d (Z.of_nat (length data)) w)) = w_dirsz w).
  { unfold DiskIO.allocate, DiskIO.size_diskio. mstep. rewrite stat_run.
    destruct (Fs.lookup (w_fs w) (Fs.resolve (DiskIO.path_diskio d))) as [n|] eqn:E; [|reflexivity].
    mstep. cbn [st_size]. destruct (_ >? _); [reflexivity|].
    rewrite truncate_run. cbn [w_fs add_log]. rewrite E. destruct n; reflexivity. }
  destruct (DiskIO.allocate d (Z.of_nat (length data)) w) as [[[]|e] w1]; cbn [snd] in *; [|exact Ha].
  apply (while_keeps _ (fun w' => w_dirsz w' = w_dirsz w)); [|exact Ha].
  intros i s w' Hw'. rewrite bind_run.
  pose proof (fh_write_keeps_dirsz fh data (position + i * DiskIO.optimal d)
                (if DiskIO.optimal d >? Z.of_nat (length data) - (position + i * DiskIO.optimal d)
                 then Z.of_nat (length data) - (position + i * DiskIO.optimal d)
                 else DiskIO.optimal d)
                (position + i * DiskIO.optimal d) w') as H.
  destruct (fh_write _ _ _ _ _ w') as [[z|e] w2]; unfold mret, M_ret; cbn [snd] in *; congruence.
Qed.

(** X20: what a write costs and what the folder gains.  A write at
    position 0 charges the budget the whole length of the data, while the
    file grows only by what reaches past its former end.  Written into an
    empty file the data leave the usage of the folder as it was; written
    over existing bytes they leave the folder lighter than before by the
    length of the overlap, until the next [stabilize] makes up for it.
    The usage is that of the file system, apparent sizes added up below
    the folder. *)
Theorem write_folder_usage (path : string) (size b : Z) (fh : FileHandle)
    (data old sentinel_data : list Byte.byte) (r : list string) (w : world) (usage : Z) :
  let d := DiskIO.instance path size b in
  let root := Fs.resolve path in
  let sentinel := root ++ [DiskIO.RESERVED_FILE] in
  0 < b ->
  w_fs w !! sentinel = Some (File sentinel_data) ->
  (length data <= length sentinel_data)%nat ->
  w_fds w !! fh = Some r ->
  w_fs w !! r = Some (File old) ->
  Fs.under root r = true ->
  r <> sentinel ->
  Fs.usage (w_dirsz w) (w_fs w) root = Some usage ->
  exists w',
    DiskIO.write d fh data 0 w = (Ok tt, w')
    /\ Fs.usage (w_dirsz w') (w_fs w') root
       = Some (usage - Z.of_nat (Nat.min (length old) (length data))).
Proof.
  intros d root sentinel Hb Hs Hfit Hfd Hfile Hunder Hne Hu.
  assert (Hrs : Fs.resolve (DiskIO.path_diskio d) = sentinel) by apply resolve_diskio.
  assert (Hs' : Fs.lookup (w_fs w) (Fs.resolve (DiskIO.path_diskio d)) = Some (File sentinel_data)).
  { rewrite Hrs, lookup_nonroot by apply sentinel_nonroot. exact Hs. }
  destruct (write_at_position_0 d fh data old r Hb w sentinel_data Hs' ltac:(lia) Hfd Hfile
              ltac:(rewrite Hrs; exact Hne))
    as (w' & Hrun & Hfile' & Hsent' & Hfds' & _).
  rewrite Hrs in Hsent'.
  exists w'. split; [exact Hrun|].
  pose proof (write_keeps_dirsz d fh data 0 w) as Hdz. rewrite Hrun in Hdz. cbn [snd] in Hdz.
  assert (Hfs : w_fs w' = <[r := File (data ++ drop (length data) old)]>
                            (<[sentinel := File (take (length sentinel_data - length data)
                                                   sentinel_data)]> (w_fs w))).
  { apply map_eq. intros q.
    destruct (decide (q = r)) as [->|Hqr]; [now rewrite lookup_insert_eq|].
    rewrite lookup_insert_ne by (now apply not_eq_sym).
    destruct (decide (q = sentinel)) as [->|Hqs]; [now rewrite lookup_insert_eq|].
    rewrite lookup_insert_ne by (now apply not_eq_sym).
    pose proof (proj1 (write_frame d fh data 0 w q ltac:(rewrite Hrs; exact Hqs)
                         ltac:(rewrite Hfd; congruence))) as Hq.
    now rewrite Hrun in Hq. }
  rewrite Hdz, Hfs. unfold Fs.usage in *.
  assert (Hrr : Fs.lookup (<[r := File (data ++ drop (length data) old)]>
                             (<[sentinel := File (take (length sentinel_data - length data)
                                                    sentinel_data)]> (w_fs w))) root
                = Fs.lookup (w_fs w) root).
  { apply lookup_same. intros Hroot. rewrite !lookup_insert_ne; [reflexivity| |].
    - unfold sentinel. apply sentinel_not_root.
    - intros Heq. subst r. apply under_true in Hunder as (x & t & Hx).
      apply (f_equal (@length string)) in Hx. rewrite length_app in Hx. cbn [length] in Hx. lia. }
  rewrite Hrr. destruct (Fs.lookup (w_fs w) root) as [n|]; [|discriminate].
  injection Hu as Hu. f_equal.
  assert (Hsu : Fs.under root sentinel = true) by apply sentinel_under.
  rewrite !usage_below_insert, Hunder, Hsu.
  unfold size_at. rewrite lookup_insert_ne by (now apply not_eq_sym).
  rewrite Hfile, Hs. cbn [Fs.node_size].
  rewrite length_app, length_drop, length_take. lia.
Qed.

Lemma write_folder_usage_witness :
  exists w',
    DiskIO.write (DiskIO.instance "/data" 65536 4096) 7%nat bytes8 0 world_file = (Ok tt, w')
    /\ Fs.usage (w_dirsz w') (w_fs w') ["data"] = Some 4208.
Proof.
  destruct (write_folder_usage "/data" 65536 4096 7%nat bytes8 (replicate 20 Byte.x09)
              (replicate 100 Byte.x00) ["data"; "f"] world_file 4216)
    as (w' & Hrun & Husage).
  - lia.
  - vm_compute. reflexivity.
  - vm_compute. lia.
  - reflexivity.
  - vm_compute. reflexivity.
  - reflexivity.
  - vm_compute. discriminate.
  - vm_compute. reflexivity.
  - exists w'. split; [exact Hrun|]. exact Husage.
Defined.

(** ** Reading a range that starts further on *)

Section RoundsResult.

Context {S : Type}.
Variable body : Z -> S -> M S.
Variable P : S -> Prop.
Hypothesis body_result : forall i s w s' w', 0 <= i -> P s -> body i s w = (Ok s', w') -> P s'.

Lemma rounds_result (n : nat) : forall i s w s' w',
  0 <= i -> P s -> rounds n i body s w = (Ok s', w') -> P s'.
Proof.
  induction n as [|n IH]; intros i s w s' w' Hi Hs Hrun.
  - cbn [rounds] in Hrun. unfold mret, M_ret in Hrun. congruence.
  - cbn [rounds] in Hrun. apply bind_ok_inv in Hrun as (s1 & w1 & Hb & Hrun).
    apply (IH (i + 1) s1 w1 s' w'); [lia| |exact Hrun].
    exact (body_result i s w s1 w1 Hi Hs Hb).
Qed.

Lemma while_result (bound : number) (s : S) (w : world) (s' : S) (w' : world) :
  P s -> while_index_lt bound body s w = (Ok s', w') -> P s'.
Proof.
  intros Hs Hrun. destruct bound as [n| | |]; cbn [while_index_lt] in Hrun.
  - exact (rounds_result _ 0 s w s' w' ltac:(lia) Hs Hrun).
  - apply bind_ok_inv in Hrun as (s1 & w1 & _ & Hrun). discriminate.
  - unfold mret, M_ret in Hrun. congruence.
  - unfold mret, M_ret in Hrun. congruence.
Qed.

End RoundsResult.

(** A chunk read at buffer offset [offset] leaves the bytes before it and
    the length of the buffer alone. *)
Lemma fh_read_front (fd : FileHandle) (buffer : list Byte.byte) (offset len position : Z)
    (w : world) (buffer' : list Byte.byte) (w' : world) (k : nat) :
  fh_read fd buffer offset len position w = (Ok buffer', w') ->
  (Z.of_nat k <= offset) ->
  length buffer' = length buffer /\ take k buffer' = take k buffer.
Proof.
  intros Hrun Hk. unfold fh_read, fh_file in Hrun. revert Hrun. run_monad. cbv beta.
  cbn [add_log w_fds w_fs].
  destruct (offset <? 0) eqn:E0; [discriminate|].
  destruct (len =? 0) eqn:E1; [cbv beta; intros H; injection H as H1 H2; subst; auto|].
  destruct (Z.of_nat (length buffer) =? 0) eqn:E2; [discriminate|].
  destruct (len <? 0) eqn:E3; [discriminate|].
  destruct (offset + len >? Z.of_nat (length buffer)) eqn:E4; [discriminate|].
  destruct (position <? 0) eqn:E5; [discriminate|].
  cbv beta. cbn [add_log w_fds w_fs].
  destruct (w_fds w !! fd) as [r|]; [|cbv beta iota; discriminate].
  destruct (w_fs w !! r) as [[data|]|]; cbv beta iota; try discriminate.
  intros H. injection H as H1 H2. subst buffer'.
  apply Z.ltb_ge in E0, E3. rewrite Z.gtb_ltb in E4. apply Z.ltb_ge in E4.
  unfold Fs.pread.
  assert (Hgot : (length (take (Z.to_nat len) (drop (Z.to_nat position) data)) <= Z.to_nat len)%nat)
    by (rewrite length_take; lia).
  split.
  - rewrite !length_app, length_take, length_drop. lia.
  - rewrite take_app_le by (rewrite length_take; lia). rewrite take_take. f_equal. lia.
Qed.

(** X22: where the bytes of a range that does not start at 0 land.  [read]
    stores each chunk in the buffer at the offset it has in the file, so a
    range that starts at [start > 0] never fills the front of the buffer:
    whenever [read] returns, the buffer has the length of the range and
    its first [start] bytes (all of it, when the range is shorter) are
    still the zeros it was allocated with. *)
Theorem read_later_range_front_is_zero (d : DiskIO.t) (fh : FileHandle) (start end_ : Z)
    (w : world) (buffer : list Byte.byte) (w' : world) :
  0 <= start ->
  0 <= DiskIO.optimal d ->
  DiskIO.read d fh start end_ w = (Ok buffer, w') ->
  length buffer = Z.to_nat (end_ - start)
  /\ take (Z.to_nat start) buffer
     = replicate (Nat.min (Z.to_nat start) (Z.to_nat (end_ - start))) Byte.x00.
Proof.
  intros Hstart Hb Hrun. unfold DiskIO.read in Hrun. cbv zeta in Hrun.
  apply bind_ok_inv in Hrun as (status & w1 & _ & Hrun).
  apply bind_ok_inv in Hrun as (zeros & w2 & Halloc & Hrun).
  unfold Buffer_alloc in Halloc. destruct (end_ - start <? 0); [discriminate|].
  unfold mret, M_ret in Halloc. injection Halloc as <- <-.
  set (L := Z.to_nat (end_ - start)) in *.
  apply (while_result _ (fun buf => length buf = L
                                    /\ take (Z.to_nat start) buf
                                       = replicate (Nat.min (Z.to_nat start) L) Byte.x00))
    in Hrun; [exact Hrun| |].
  - intros i s w0 s' w0' Hi [Hlen Hfront] Hread.
    destruct (fh_read_front _ _ _ _ _ _ _ _ (Z.to_nat start) Hread) as [Hl Ht]; [nia|].
    split; congruence.
  - split; [apply length_replicate|]. now rewrite take_replicate.
Qed.

Lemma read_later_range_front_is_zero_witness :
  DiskIO.read (DiskIO.instance "/data" 65536 4096) 7%nat 2 30 world_file
  = (Ok (replicate 2 Byte.x00 ++ replicate 18 Byte.x09 ++ replicate 8 Byte.x00),
     snd (DiskIO.read (DiskIO.instance "/data" 65536 4096) 7%nat 2 30 world_file))
  /\ take (Z.to_nat 2) (replicate 2 Byte.x00 ++ replicate 18 Byte.x09 ++ replicate 8 Byte.x00)
     = replicate (Nat.min (Z.to_nat 2) (Z.to_nat (30 - 2))) Byte.x00.
Proof.
  assert (Hrun : DiskIO.read (DiskIO.instance "/data" 65536 4096) 7%nat 2 30 world_file
                 = (Ok (replicate 2 Byte.x00 ++ replicate 18 Byte.x09 ++ replicate 8 Byte.x00),
                    snd (DiskIO.read (DiskIO.instance "/data" 65536 4096) 7%nat 2 30 world_file)))
    by (vm_compute; reflexivity).
  refine (conj Hrun _).
  exact (proj2 (read_later_range_front_is_zero (DiskIO.instance "/data" 65536 4096) 7%nat 2 30
                  world_file _ _ ltac:(lia) ltac:(vm_compute; discriminate) Hrun)).
Defined.

(** ** A path that is taken *)

(** X23: [create] on a path that is taken.  When the directories of the
    identifier drawn exist already and hold an entry of the name asked for,
    [create] makes no file and changes none: it draws the next identifier
    and starts again, and all that remains of the attempt is the
    identifier spent.  (In the model the attempt costs one unit of fuel, and
    with none left the call ends in [OutOfFuel].) *)
Theorem create_retries_when_taken (folder : list string) (size b : Z) (fuel : nat) (name : string)
    (uparts : list string) (w : world) (taken : node) :
  let d := DiskIO.instance (canonical folder) size b in
  let path := canonical (folder ++ uparts) in
  let filePath := canonical (folder ++ uparts ++ [name]) in
  let w1 := add_log (EvAccess filePath)
              (add_log (EvMkdir path) (set_next (S (w_next w)) (add_log EvRandomUUID w))) in
  folder <> [] ->
  Forall (fun x => plain x = true) folder ->
  plain name = true ->
  JS.split "-" (w_uuid w (w_next w)) = uparts ->
  Forall (fun x => plain x = true) uparts ->
  (forall k, (1 <= k <= length (folder ++ uparts))%nat ->
             w_fs w !! take k (folder ++ uparts) = Some Dir) ->
  w_fs w !! (folder ++ uparts ++ [name]) = Some taken ->
  DiskIO.create (S fuel) d name w = DiskIO.create fuel d name w1
  /\ DiskIO.create 0 d name w = (Throw OutOfFuel, w1)
  /\ w_fs w1 = w_fs w.
Proof.
  intros d path filePath w1 Hne Hplain Hname Hparts Huplain Hdirs Htaken.
  assert (Hfu : Forall (fun x => plain x = true) (folder ++ uparts)).
  { apply Forall_app. split; assumption. }
  assert (Hpf : DiskIO.path_folder d = canonical folder) by (apply folder_path; assumption).
  assert (Hpath : Path.join (DiskIO.path_folder d :: uparts) = path).
  { rewrite Hpf. now apply join_canonical. }
  assert (Hfile : Path.join [path; name] = filePath).
  { unfold path, filePath. rewrite join_canonical; [now rewrite <- app_assoc| |assumption|].
    - destruct folder; [congruence|discriminate].
    - repeat constructor. exact Hname. }
  assert (Hrun : forall fuel',
             DiskIO.create fuel' d name w
             = match fuel' with
               | O => (Throw OutOfFuel, w1)
               | S fuel'' => DiskIO.create fuel'' d name w1
               end).
  { intros fuel'. rewrite create_unfold, (plain_nonempty _ Hname).
    mstep. rewrite randomUUID_run, Hparts. mstep. rewrite Hpath.
    rewrite mkdir_recursive_run. unfold path at 1. rewrite resolve_canonical by exact Hfu.
    cbn [w_fs set_next add_log].
    pose proof (mkdir_from_existing (w_fs w) (folder ++ uparts) [] [] Hdirs) as Hmk.
    rewrite app_nil_r in Hmk. cbn [app mkdir_from] in Hmk. rewrite Hmk. mstep.
    rewrite Hfile, fs_exists_run. cbn [w_fs set_fs set_next add_log].
    unfold filePath at 1. rewrite resolve_canonical.
    2:{ rewrite app_assoc. apply Forall_app. split; [exact Hfu|]. repeat constructor. exact Hname. }
    rewrite lookup_nonroot by (destruct folder; [congruence|discriminate]).
    rewrite Htaken. mstep.
    assert (Hw : set_fs (w_fs w) (add_log (EvMkdir path) (set_next (S (w_next w)) (add_log EvRandomUUID w)))
                 = add_log (EvMkdir path) (set_next (S (w_next w)) (add_log EvRandomUUID w)))
      by (destruct w; reflexivity).
    rewrite Hw. destruct fuel'; reflexivity. }
  split; [exact (Hrun (S fuel))|]. split; [exact (Hrun 0%nat)|reflexivity].
Qed.

Lemma create_retries_when_taken_witness :
  DiskIO.create 1 (DiskIO.instance "/data" 65536 4096) "a.txt" world_taken
  = DiskIO.create 0 (DiskIO.instance "/data" 65536 4096) "a.txt"
      (add_log (EvAccess "/data/a1b2c3d4/e5f6/4a7b/8c9d/0123456789ab/a.txt")
         (add_log (EvMkdir "/data/a1b2c3d4/e5f6/4a7b/8c9d/0123456789ab")
            (set_next 1 (add_log EvRandomUUID world_taken)))).
Proof.
  refine (proj1 (create_retries_when_taken ["data"] 65536 4096 0 "a.txt"
                   ["a1b2c3d4"; "e5f6"; "4a7b"; "8c9d"; "0123456789ab"] world_taken (File [])
                   _ _ _ _ _ _ _)).
  - discriminate.
  - repeat constructor.
  - reflexivity.
  - reflexivity.
  - repeat constructor.
  - intros k Hk. cbn [length app] in Hk.
    destruct k as [|[|[|[|[|[|[|k]]]]]]]; try lia; vm_compute; reflexivity.
  - vm_compute. reflexivity.
Defined.
